(** * Selective disclosure: a shallow embedding of the disclosure engine

    The development follows the layout of the TypeScript sources:
    - [hash.ts]                 algorithm identifiers, [translateHashAlg], [hash],
                                [requireSecondPreimageResistant];
    - [salt.ts]                 [createSalt], [defaultCreateSalt];
    - [selective-disclosure.ts] [DisclosureOpions], [fillSDOptions];
    - [SDArray.ts]              [disclosureForArrayElement], [sdArray];
    - [SDObject.ts]             the class [SDObject] with [pure], [map], [flatMap],
                                [prop], [array], [nested], and [disclosureForObjectProps];
    - [utils.ts]                [fancyStringify].

    JavaScript values are a first-order datatype, objects are association
    lists in enumeration order, and effects (exceptions, the console, the
    random source) are threaded through a small state-and-error monad. *)

From Stdlib Require Import String Ascii List ZArith Lia Bool Arith.
From Stdlib Require Import Decimal DecimalString DecimalN DecimalFacts.
Import ListNotations.
Local Open Scope string_scope.
Local Open Scope list_scope.

Set Implicit Arguments.

(* ================================================================= *)
(** ** JavaScript values *)

(** The values a payload can hold.  Strings are kept as their UTF-8 bytes,
    numbers are the integer-valued ones; an object is the list of its own
    enumerable properties in enumeration order. *)
#[warnings="-register-all"] Inductive Value : Type :=
| VUndefined
| VNull
| VBool (b : bool)
| VNum (n : Z)
| VStr (s : string)
| VArr (elems : list Value)
| VObj (props : list (string * Value)).

(** A JavaScript object used as a record of claims. *)
Definition Obj := list (string * Value).

(** [o[k]] as a lookup: [None] when [k] is not an own property. *)
Fixpoint obj_get (k : string) (o : Obj) : option Value :=
  match o with
  | [] => None
  | (k', v) :: rest => if String.eqb k k' then Some v else obj_get k rest
  end.

(** [o[k]] as JavaScript evaluates it: a missing property reads [undefined]. *)
Definition obj_read (k : string) (o : Obj) : Value :=
  match obj_get k o with
  | Some v => v
  | None => VUndefined
  end.

(** [{ ...o, [k]: v }]: an existing key keeps its position, a new key is
    added last. *)
Fixpoint obj_set (k : string) (v : Value) (o : Obj) : Obj :=
  match o with
  | [] => [(k, v)]
  | (k', v') :: rest =>
      if String.eqb k k' then (k', v) :: rest else (k', v') :: obj_set k v rest
  end.

(** [delete o[k]]. *)
Fixpoint obj_delete (k : string) (o : Obj) : Obj :=
  match o with
  | [] => []
  | (k', v') :: rest =>
      if String.eqb k k' then obj_delete k rest else (k', v') :: obj_delete k rest
  end.

(** Pairwise distinct keys, as the properties of an object are. *)
Fixpoint distinct (keys : list string) : bool :=
  match keys with
  | [] => true
  | k :: rest => negb (existsb (String.eqb k) rest) && distinct rest
  end.

(** The values JSON text can represent: no [undefined] anywhere inside, and
    every object with pairwise distinct keys. *)
Fixpoint json_value (v : Value) : bool :=
  match v with
  | VUndefined => false
  | VNull | VBool _ | VNum _ | VStr _ => true
  | VArr elems => forallb json_value elems
  | VObj props =>
      distinct (List.map fst props) && forallb (fun kv => json_value (snd kv)) props
  end.

(* ================================================================= *)
(** ** Effects: exceptions, console, random source *)

(** Node's [Buffer]: a sequence of octets. *)
Definition Buffer := list ascii.

(** [Buffer.from(s, "utf8")] and [buf.toString("utf8")] on strings kept as
    UTF-8 bytes. *)
Definition Buffer_from (s : string) : Buffer := list_ascii_of_string s.
Definition Buffer_toString (b : Buffer) : string := string_of_list_ascii b.

(** The errors the engine throws.  Each constructor stands for one [throw]
    site (or one failure of the runtime underneath). *)
Inductive Error : Type :=
| InconsistentHashAlg          (* fillSDOptions and SDObject.flatMap *)
| UnsupportedHashAlg (alg : string)   (* translateHashAlg, k12 family *)
| ProhibitedHashAlg            (* requireSecondPreimageResistant *)
| DigestNotSupported (name : string)  (* crypto.createHash rejects the name *)
| TypeError                    (* a call on a value of the wrong shape *)
| RangeError.                  (* crypto.randomBytes rejects the size *)

Definition Result (A : Type) : Type := (Error + A)%type.

(** What a call can observe and change outside its arguments: the lines
    printed by [console.warn], and the random source behind
    [crypto.randomBytes] (an infinite supply of octets and how many of
    them have been handed out). *)
Record World : Type := mkWorld {
  console : list string;
  entropy : nat -> ascii;
  drawn : nat;
}.

(** A computation that may print, draw random bytes, and throw.  A thrown
    error keeps the effects performed before it. *)
Definition M (A : Type) : Type := World -> Result A * World.

Definition ret {A} (a : A) : M A := fun w => (inr a, w).

Definition throw {A} (e : Error) : M A := fun w => (inl e, w).

Definition bind {A B} (m : M A) (k : A -> M B) : M B :=
  fun w =>
    match m w with
    | (inl e, w') => (inl e, w')
    | (inr a, w') => k a w'
    end.

Definition lift {A} (r : Result A) : M A := fun w => (r, w).

Declare Scope sd_scope.
Delimit Scope sd_scope with sd.
Notation "x <- m ;; k" := (bind m (fun x => k))
  (at level 61, m at next level, right associativity) : sd_scope.
Notation "m ;;; k" := (bind m (fun _ => k))
  (at level 61, right associativity) : sd_scope.
Local Open Scope sd_scope.

(** [xs.map(f)] for a callback with effects: left to right, stopping at the
    first throw. *)
Fixpoint mapM {A B} (f : A -> M B) (xs : list A) : M (list B) :=
  match xs with
  | [] => ret []
  | x :: rest => y <- f x ;; ys <- mapM f rest ;; ret (y :: ys)
  end.

(** [xs.reduce(f, init)]: the callback receives the accumulator, the
    element and its index. *)
Fixpoint reduce_from {A B} (index : nat) (f : B -> A -> nat -> M B)
    (acc : B) (xs : list A) : M B :=
  match xs with
  | [] => ret acc
  | x :: rest => acc' <- f acc x index ;; reduce_from (S index) f acc' rest
  end.

Definition reduce {A B} (f : B -> A -> nat -> M B) (init : B) (xs : list A) : M B :=
  reduce_from 0 f init xs.

Definition console_warn (line : string) : M unit :=
  fun w => (inr tt, mkWorld (console w ++ [line]) (entropy w) (drawn w)).

(** The largest size [crypto.randomBytes] accepts, [2 ** 31 - 1]. *)
Definition maxRandomBytes : N := 2147483647%N.

(** [crypto.randomBytes(n)], for a size that is a natural number: the next
    [n] octets of the random source, or a RangeError for a size above
    [2 ** 31 - 1], with nothing drawn. *)
Definition randomBytes (n : nat) : M Buffer :=
  fun w =>
    if (N.of_nat n <=? maxRandomBytes)%N then
      (inr (map (entropy w) (seq (drawn w) n)),
       mkWorld (console w) (entropy w) (drawn w + n))
    else (inl RangeError, w).

(** [crypto.createHash(name)]: the digest function OpenSSL knows under
    [name], or [None] where Node throws for a name it does not know. *)
Class NodeCrypto : Type := {
  createHash : string -> option (Buffer -> Buffer);
}.

(* ================================================================= *)
(** ** base64url (the npm package of that name) *)

Module Base64url.

Definition alphabet : string :=
  "ABCDEFGHIJKLMNOPQRSTUVWXYZabcdefghijklmnopqrstuvwxyz0123456789-_".

(** The character of a 6-bit group. *)
Definition char_of_sextet (n : nat) : ascii :=
  match String.get n alphabet with
  | Some c => c
  | None => "A"%char
  end.

Fixpoint index_of (c : ascii) (s : string) (i : nat) : option nat :=
  match s with
  | EmptyString => None
  | String c' rest => if Ascii.eqb c c' then Some i else index_of c rest (S i)
  end.

Definition sextet_of_char (c : ascii) : option nat := index_of c alphabet 0.

(** Three octets make four groups; one or two trailing octets make two
    or three (no padding). *)
Fixpoint sextets_of_bytes (bs : list nat) : list nat :=
  match bs with
  | a :: b :: c :: rest =>
      a / 4 :: (a mod 4) * 16 + b / 16 :: (b mod 16) * 4 + c / 64 :: c mod 64
        :: sextets_of_bytes rest
  | [a; b] => [a / 4; (a mod 4) * 16 + b / 16; (b mod 16) * 4]
  | [a] => [a / 4; (a mod 4) * 16]
  | [] => []
  end.

Fixpoint bytes_of_sextets (ss : list nat) : list nat :=
  match ss with
  | p :: q :: r :: s :: rest =>
      p * 4 + q / 16 :: (q mod 16) * 16 + r / 4 :: (r mod 4) * 64 + s
        :: bytes_of_sextets rest
  | [p; q; r] => [p * 4 + q / 16; (q mod 16) * 16 + r / 4]
  | [p; q] => [p * 4 + q / 16]
  | _ => []
  end.

(** Reading stops at the first character outside the alphabet. *)
Fixpoint sextets_of_string (s : string) : list nat :=
  match s with
  | EmptyString => []
  | String c rest =>
      match sextet_of_char c with
      | Some n => n :: sextets_of_string rest
      | None => []
      end
  end.

(** [base64url(buffer)] / [base64url.encode(buffer)]. *)
Definition encode_buffer (b : Buffer) : string :=
  string_of_list_ascii (map char_of_sextet (sextets_of_bytes (map nat_of_ascii b))).

(** [base64url.toBuffer(text)]. *)
Definition toBuffer (s : string) : Buffer :=
  map ascii_of_nat (bytes_of_sextets (sextets_of_string s)).

(** [base64url.encode(text)], the input read as UTF-8. *)
Definition encode (s : string) : string := encode_buffer (Buffer_from s).

(** [base64url.decode(text)], the output read as UTF-8. *)
Definition decode (s : string) : string := Buffer_toString (toBuffer s).

End Base64url.

(** Calling the package itself, [base64url(input)], encodes. *)
Definition base64url (b : Buffer) : string := Base64url.encode_buffer b.

(* ================================================================= *)
(** ** JSON (the built-in [JSON.stringify] and [JSON.parse]) *)

Module JSON.

Local Open Scope string_scope.
Local Open Scope nat_scope.

Definition dquote : ascii := "034"%char.
Definition backslash : ascii := "092"%char.

Definition hex_digit (n : nat) : ascii :=
  match String.get n "0123456789abcdef" with
  | Some c => c
  | None => "0"%char
  end.

Definition hex_value (c : ascii) : option nat :=
  let n := nat_of_ascii c in
  if ((48 <=? n) && (n <=? 57))%nat then Some (n - 48)
  else if ((97 <=? n) && (n <=? 102))%nat then Some (n - 87)
  else if ((65 <=? n) && (n <=? 70))%nat then Some (n - 55)
  else None.

(** QuoteJSONString, one character at a time: the two-character escapes,
    [\u00xx] for the other control characters, everything else as it is. *)
Definition escape_char (c : ascii) : string :=
  let n := nat_of_ascii c in
  if n =? 34 then String backslash (String dquote "")
  else if n =? 92 then String backslash (String backslash "")
  else if n =? 8 then "\b"
  else if n =? 12 then "\f"
  else if n =? 10 then "\n"
  else if n =? 13 then "\r"
  else if n =? 9 then "\t"
  else if (n <? 32)%nat then "\u00" ++ String (hex_digit (n / 16)) (String (hex_digit (n mod 16)) "")
  else String c "".

Fixpoint escape (s : string) : string :=
  match s with
  | EmptyString => ""
  | String c rest => escape_char c ++ escape rest
  end.

Definition quote (s : string) : string :=
  String dquote (escape s ++ String dquote "").

Definition string_of_N (n : N) : string := NilEmpty.string_of_uint (N.to_uint n).

Definition string_of_Z (z : Z) : string :=
  match z with
  | Z0 => "0"
  | Zpos p => string_of_N (Npos p)
  | Zneg p => "-" ++ string_of_N (Npos p)
  end.

(** SerializeJSONProperty: [None] is the [undefined] result.  Inside an
    array [undefined] is written [null]; a property holding [undefined]
    is left out. *)
Fixpoint serialize (v : Value) : option string :=
  match v with
  | VUndefined => None
  | VNull => Some "null"
  | VBool b => Some (if b then "true" else "false")
  | VNum n => Some (string_of_Z n)
  | VStr s => Some (quote s)
  | VArr elems =>
      Some ("[" ++ String.concat ","
              (map (fun e => match serialize e with Some t => t | None => "null" end) elems)
            ++ "]")
  | VObj props =>
      Some ("{" ++ String.concat ","
              (flat_map (fun kv => match serialize (snd kv) with
                                   | Some t => [quote (fst kv) ++ ":" ++ t]
                                   | None => []
                                   end) props)
            ++ "}")
  end.

(** [JSON.stringify] at the type [(value: unknown) => string].  On
    [undefined] itself JavaScript returns [undefined], not a text; the
    engine only ever serializes arrays, which always have one. *)
Definition stringify (v : Value) : string :=
  match serialize v with
  | Some t => t
  | None => ""
  end.

Definition is_ws (c : ascii) : bool :=
  let n := nat_of_ascii c in
  (n =? 32) || (n =? 9) || (n =? 10) || (n =? 13).

Fixpoint skip_ws (s : string) : string :=
  match s with
  | EmptyString => ""
  | String c rest => if is_ws c then skip_ws rest else s
  end.

Definition unescape (c : ascii) : option ascii :=
  let n := nat_of_ascii c in
  if n =? 34 then Some dquote
  else if n =? 92 then Some backslash
  else if n =? 47 then Some "/"%char
  else if n =? 98 then Some (ascii_of_nat 8)
  else if n =? 102 then Some (ascii_of_nat 12)
  else if n =? 110 then Some (ascii_of_nat 10)
  else if n =? 114 then Some (ascii_of_nat 13)
  else if n =? 116 then Some (ascii_of_nat 9)
  else None.

Definition hex4 (a b c d : ascii) : option N :=
  match hex_value a, hex_value b, hex_value c, hex_value d with
  | Some p, Some q, Some r, Some s =>
      Some (((N.of_nat p * 16 + N.of_nat q) * 16 + N.of_nat r) * 16 + N.of_nat s)%N
  | _, _, _, _ => None
  end.

(** The UTF-8 bytes of a code point given by [\uXXXX].  Surrogate halves
    have no UTF-8 form of their own and are left out of the model. *)
Definition utf8 (cp : N) : option string :=
  if (cp <? 128)%N then Some (String (ascii_of_N cp) "")
  else if (cp <? 2048)%N then
    Some (String (ascii_of_N (192 + cp / 64)) (String (ascii_of_N (128 + cp mod 64)) ""))
  else if ((55296 <=? cp) && (cp <? 57344))%N then None
  else
    Some (String (ascii_of_N (224 + cp / 4096))
         (String (ascii_of_N (128 + (cp / 64) mod 64))
         (String (ascii_of_N (128 + cp mod 64)) ""))).

Definition prepend (p : string) (r : option (string * string)) : option (string * string) :=
  match r with
  | Some (s, rest) => Some (p ++ s, rest)
  | None => None
  end.

(** The characters of a string literal after its opening quote. *)
Fixpoint parse_string_body (s : string) : option (string * string) :=
  match s with
  | EmptyString => None
  | String c r =>
      if Ascii.eqb c dquote then Some ("", r)
      else if Ascii.eqb c backslash then
        match r with
        | EmptyString => None
        | String e r' =>
            if Ascii.eqb e "u"%char then
              match r' with
              | String h1 (String h2 (String h3 (String h4 r''))) =>
                  match hex4 h1 h2 h3 h4 with
                  | Some cp =>
                      match utf8 cp with
                      | Some bytes => prepend bytes (parse_string_body r'')
                      | None => None
                      end
                  | None => None
                  end
              | _ => None
              end
            else
              match unescape e with
              | Some c' => prepend (String c' "") (parse_string_body r')
              | None => None
              end
        end
      else if (nat_of_ascii c <? 32)%nat then None
      else prepend (String c "") (parse_string_body r)
  end.

Definition digit_of_char (c : ascii) : option (uint -> uint) :=
  let n := nat_of_ascii c in
  if n =? 48 then Some D0 else if n =? 49 then Some D1
  else if n =? 50 then Some D2 else if n =? 51 then Some D3
  else if n =? 52 then Some D4 else if n =? 53 then Some D5
  else if n =? 54 then Some D6 else if n =? 55 then Some D7
  else if n =? 56 then Some D8 else if n =? 57 then Some D9
  else None.

(** The longest run of decimal digits in front of [s]. *)
Fixpoint read_uint (s : string) : uint * string :=
  match s with
  | EmptyString => (Nil, "")
  | String c rest =>
      match digit_of_char c with
      | Some d => let (u, rest') := read_uint rest in (d u, rest')
      | None => (Nil, s)
      end
  end.

(** What may not follow the integer part in this model: a further digit
    never does (the run is maximal); a fraction or an exponent would make
    the number a non-integer. *)
Definition ends_number (s : string) : bool :=
  match s with
  | EmptyString => true
  | String c _ =>
      match digit_of_char c with
      | Some _ => false
      | None =>
          let n := nat_of_ascii c in
          negb ((n =? 46) || (n =? 101) || (n =? 69))
      end
  end.

Definition parse_N (s : string) : option (N * string) :=
  match read_uint s with
  | (Nil, _) => None
  | (D0 Nil, rest) => if ends_number rest then Some (0%N, rest) else None
  | (D0 _, _) => None
  | (u, rest) => if ends_number rest then Some (N.of_uint u, rest) else None
  end.

Definition parse_number (s : string) : option (Value * string) :=
  match s with
  | String "-" rest =>
      match parse_N rest with
      | Some (n, rest') => Some (VNum (- Z.of_N n), rest')
      | None => None
      end
  | _ =>
      match parse_N s with
      | Some (n, rest') => Some (VNum (Z.of_N n), rest')
      | None => None
      end
  end.

Fixpoint expect (word : string) (s : string) : option string :=
  match word, s with
  | EmptyString, _ => Some s
  | String c w, String c' s' => if Ascii.eqb c c' then expect w s' else None
  | String _ _, EmptyString => None
  end.

(** Properties are created in text order; a repeated key overwrites. *)
Definition object_of_members (members : list (string * Value)) : Obj :=
  fold_left (fun o kv => obj_set (fst kv) (snd kv) o) members [].

Fixpoint parse_value (fuel : nat) (s : string) : option (Value * string) :=
  match fuel with
  | O => None
  | S fuel' =>
      match skip_ws s with
      | EmptyString => None
      | String c r =>
          if Ascii.eqb c "["%char then
            match skip_ws r with
            | String c' r' =>
                if Ascii.eqb c' "]"%char then Some (VArr [], r')
                else match parse_elems fuel' (String c' r') with
                     | Some (vs, r'') => Some (VArr vs, r'')
                     | None => None
                     end
            | EmptyString => None
            end
          else if Ascii.eqb c "{"%char then
            match skip_ws r with
            | String c' r' =>
                if Ascii.eqb c' "}"%char then Some (VObj [], r')
                else match parse_members fuel' (String c' r') with
                     | Some (ms, r'') => Some (VObj (object_of_members ms), r'')
                     | None => None
                     end
            | EmptyString => None
            end
          else if Ascii.eqb c dquote then
            match parse_string_body r with
            | Some (str, r') => Some (VStr str, r')
            | None => None
            end
          else if Ascii.eqb c "n"%char then
            match expect "ull" r with Some r' => Some (VNull, r') | None => None end
          else if Ascii.eqb c "t"%char then
            match expect "rue" r with Some r' => Some (VBool true, r') | None => None end
          else if Ascii.eqb c "f"%char then
            match expect "alse" r with Some r' => Some (VBool false, r') | None => None end
          else parse_number (String c r)
      end
  end
with parse_elems (fuel : nat) (s : string) : option (list Value * string) :=
  match fuel with
  | O => None
  | S fuel' =>
      match parse_value fuel' s with
      | Some (v, r) =>
          match skip_ws r with
          | String c r' =>
              if Ascii.eqb c ","%char then
                match parse_elems fuel' r' with
                | Some (vs, r'') => Some (v :: vs, r'')
                | None => None
                end
              else if Ascii.eqb c "]"%char then Some ([v], r')
              else None
          | EmptyString => None
          end
      | None => None
      end
  end
with parse_members (fuel : nat) (s : string) : option (list (string * Value) * string) :=
  match fuel with
  | O => None
  | S fuel' =>
      match skip_ws s with
      | String q r =>
          if Ascii.eqb q dquote then
            match parse_string_body r with
            | Some (k, r1) =>
                match skip_ws r1 with
                | String c r2 =>
                    if Ascii.eqb c ":"%char then
                      match parse_value fuel' r2 with
                      | Some (v, r3) =>
                          match skip_ws r3 with
                          | String c' r4 =>
                              if Ascii.eqb c' ","%char then
                                match parse_members fuel' r4 with
                                | Some (ms, r5) => Some ((k, v) :: ms, r5)
                                | None => None
                                end
                              else if Ascii.eqb c' "}"%char then Some ([(k, v)], r4)
                              else None
                          | EmptyString => None
                          end
                      | None => None
                      end
                    else None
                | EmptyString => None
                end
            | None => None
            end
          else None
      | EmptyString => None
      end
  end.

(** [JSON.parse]: one value, then nothing but white space.  [None] is a
    SyntaxError (or a text outside the model: a non-integer number, a
    surrogate escape). *)
Definition parse (s : string) : option Value :=
  match parse_value (S (String.length s)) s with
  | Some (v, rest) =>
      match skip_ws rest with
      | EmptyString => Some v
      | String _ _ => None
      end
  | None => None
  end.

End JSON.

Local Open Scope string_scope.

(** [utils.ts]: [text.replaceAll(c, by)] for a one-character pattern. *)
Fixpoint replaceAll (c : ascii) (by_ : string) (s : string) : string :=
  match s with
  | EmptyString => ""
  | String a rest =>
      if Ascii.eqb a c then by_ ++ replaceAll c by_ rest
      else String a (replaceAll c by_ rest)
  end.

(** [utils.ts]: stringify with a space after every comma and colon. *)
Definition fancyStringify (value : Value) : string :=
  replaceAll ":" ": " (replaceAll "," ", " (JSON.stringify value)).

Local Open Scope list_scope.

(* ================================================================= *)
(** ** hash.ts *)

(** Available choice of hash algorithms for disclosures. *)
Inductive SDHashAlg : Type :=
| sha_256 | sha_256_128 | sha_256_120 | sha_256_96 | sha_256_64 | sha_256_32
| sha_384 | sha_512
| sha3_224 | sha3_256 | sha3_384 | sha3_512
| blake2s_256 | blake2b_256 | blake2b_512
| k12_256 | k12_512.

(** The string each identifier is in the source (the IANA hash name). *)
Definition SDHashAlg_name (alg : SDHashAlg) : string :=
  match alg with
  | sha_256 => "sha-256"
  | sha_256_128 => "sha-256-128"
  | sha_256_120 => "sha-256-120"
  | sha_256_96 => "sha-256-96"
  | sha_256_64 => "sha-256-64"
  | sha_256_32 => "sha-256-32"
  | sha_384 => "sha-384"
  | sha_512 => "sha-512"
  | sha3_224 => "sha3-224"
  | sha3_256 => "sha3-256"
  | sha3_384 => "sha3-384"
  | sha3_512 => "sha3-512"
  | blake2s_256 => "blake2s-256"
  | blake2b_256 => "blake2b-256"
  | blake2b_512 => "blake2b-512"
  | k12_256 => "k12-256"
  | k12_512 => "k12-512"
  end.

Definition all_SDHashAlg : list SDHashAlg :=
  [sha_256; sha_256_128; sha_256_120; sha_256_96; sha_256_64; sha_256_32;
   sha_384; sha_512; sha3_224; sha3_256; sha3_384; sha3_512;
   blake2s_256; blake2b_256; blake2b_512; k12_256; k12_512].

(** Reading an identifier back from its string. *)
Definition SDHashAlg_of_name (name : string) : option SDHashAlg :=
  find (fun alg => String.eqb (SDHashAlg_name alg) name) all_SDHashAlg.

(** [a === b] on identifiers: equality of the strings. *)
Definition SDHashAlg_eqb (a b : SDHashAlg) : bool :=
  String.eqb (SDHashAlg_name a) (SDHashAlg_name b).

(** The default hashing algorithm for disclosures. *)
Definition SDDefaultHashAlg : SDHashAlg := sha_256.

(** [crypto.createHash] requires hash names compatible with OpenSSL. *)
Definition translateHashAlg (namedHashAlg : SDHashAlg) : Result string :=
  match namedHashAlg with
  | sha_256 => inr "SHA256"
  | sha_256_128 => inr "SHA256-128"
  | sha_256_120 => inr "SHA256-120"
  | sha_256_96 => inr "SHA256-96"
  | sha_256_64 => inr "SHA256-64"
  | sha_256_32 => inr "SHA256-32"
  | sha_384 => inr "SHA3-384"
  | sha_512 => inr "SHA512"
  | sha3_224 => inr "SHA3-224"
  | sha3_256 => inr "SHA3-256"
  | sha3_384 => inr "SHA384"
  | sha3_512 => inr "SHA3-512"
  | blake2s_256 => inr "BLAKE2s256"
  | blake2b_256 => inr "BLAKE2b256"
  | blake2b_512 => inr "BLAKE2b512"
  | k12_256 => inl (UnsupportedHashAlg "k12-256")
  | k12_512 => inl (UnsupportedHashAlg "k12-512")
  end.

(** Hash data with the given algorithm:
    [createHash(translateHashAlg(hashAlg)).update(data).digest()]. *)
Definition hash `{NodeCrypto} (data : Buffer) (hashAlg : SDHashAlg) : M Buffer :=
  name <- lift (translateHashAlg hashAlg) ;;
  match createHash name with
  | Some digest => ret (digest data)
  | None => throw (DigestNotSupported name)
  end.

Definition prohibitedHashAlgorithms : list string := ["MD2"; "MD4"; "MD5"; "SHA-1"].
Definition weakHashAlgorithms : list string := ["sha-256-32"; "sha-256-64"].

(** [xs.includes(x)] on strings. *)
Definition includes_string (xs : list string) (x : string) : bool :=
  existsb (String.eqb x) xs.

Definition requireSecondPreimageResistant (hashAlg : string) : M unit :=
  if includes_string prohibitedHashAlgorithms hashAlg then
    throw ProhibitedHashAlg
  else if includes_string weakHashAlgorithms hashAlg then
    console_warn "A weak hash algorithm is used for disclosure digests."
  else ret tt.

(** The OpenSSL digest each identifier names (IANA "Named Information Hash
    Algorithm" name against the OpenSSL name of the same function); the
    k12 family has no OpenSSL digest. *)
Definition named_digest (alg : SDHashAlg) : option string :=
  match alg with
  | sha_256 => Some "SHA256"
  | sha_256_128 => Some "SHA256-128"
  | sha_256_120 => Some "SHA256-120"
  | sha_256_96 => Some "SHA256-96"
  | sha_256_64 => Some "SHA256-64"
  | sha_256_32 => Some "SHA256-32"
  | sha_384 => Some "SHA384"
  | sha_512 => Some "SHA512"
  | sha3_224 => Some "SHA3-224"
  | sha3_256 => Some "SHA3-256"
  | sha3_384 => Some "SHA3-384"
  | sha3_512 => Some "SHA3-512"
  | blake2s_256 => Some "BLAKE2s256"
  | blake2b_256 => Some "BLAKE2b256"
  | blake2b_512 => Some "BLAKE2b512"
  | k12_256 | k12_512 => None
  end.

(* ================================================================= *)
(** ** salt.ts *)

Definition inspectSizeOfSalt (bytesSalt : nat) : M nat :=
  (if (bytesSalt <? 16)%nat then
     console_warn "The RECOMMENDED minimum length of the randomly-generated portion of the salt is 128 bits."
   else ret tt) ;;;
  ret bytesSalt.

(** Create the given length of salt. *)
Definition createSalt (bytesOfSalt : nat) : M Buffer :=
  inspectSizeOfSalt bytesOfSalt ;;;
  randomBytes bytesOfSalt.

Definition SDDefaultBytesOfSalt : nat := 32.

Definition defaultCreateSalt : M Buffer := createSalt SDDefaultBytesOfSalt.

(* ================================================================= *)
(** ** selective-disclosure.ts *)

(** [() => Buffer]: a salt source may print and draw random bytes. *)
Definition SDCreateSalt : Type := World -> Buffer * World.

(** [(value: unknown) => string]. *)
Definition SDStringify : Type := Value -> string.

(** Running a caller's salt source inside the engine. *)
Definition call_createSalt (f : SDCreateSalt) : M Buffer :=
  fun w => let (b, w') := f w in (inr b, w').

(** [defaultCreateSalt] as a salt source ([createSalt(32)] does not throw:
    the size is one [crypto.randomBytes] accepts). *)
Definition defaultCreateSalt_source : SDCreateSalt :=
  fun w =>
    match defaultCreateSalt w with
    | (inr b, w') => (b, w')
    | (inl _, w') => ([], w')
    end.

(** Options for [SDObject.prop] and [SDObject.array]; every field optional. *)
Record DisclosureOpions : Type := mkOptions {
  hashAlg : option SDHashAlg;
  opt_createSalt : option SDCreateSalt;
  stringify : option SDStringify;
}.

(** [Required<DisclosureOpions>]. *)
Record RequiredDisclosureOpions : Type := mkRequired {
  r_hashAlg : SDHashAlg;
  r_createSalt : SDCreateSalt;
  r_stringify : SDStringify;
}.

(** [{}] *)
Definition no_options : DisclosureOpions := mkOptions None None None.

(** [payload._sd_alg] at its declared type [SDHashAlg | undefined]. *)
Definition payload_sd_alg (payload : Obj) : option SDHashAlg :=
  match obj_get "_sd_alg" payload with
  | Some (VStr name) => SDHashAlg_of_name name
  | _ => None
  end.

(** [payload._sd ?? []] at its declared type [string[] | undefined]. *)
Definition payload_sd (payload : Obj) : list Value :=
  match obj_get "_sd" payload with
  | Some (VArr digests) => digests
  | _ => []
  end.

(** An optional identifier as the value stored under a key. *)
Definition alg_value (alg : option SDHashAlg) : Value :=
  match alg with
  | Some a => VStr (SDHashAlg_name a)
  | None => VUndefined
  end.

(** [a ?? b] *)
Definition nullish {A} (a : option A) (b : A) : A :=
  match a with
  | Some x => x
  | None => b
  end.

(** Fills options with the given payload, options, or default values and
    verifies consistency. *)
Definition fillSDOptions (sdProps : Obj) (options : DisclosureOpions)
  : Result RequiredDisclosureOpions :=
  let payloadHashAlg := payload_sd_alg sdProps in
  let optionHashAlg := hashAlg options in
  let hashAlg := nullish payloadHashAlg (nullish optionHashAlg SDDefaultHashAlg) in
  if match payloadHashAlg, optionHashAlg with
     | Some p, Some o => negb (SDHashAlg_eqb p o)
     | _, _ => false
     end
  then inl InconsistentHashAlg
  else inr (mkRequired hashAlg
              (nullish (opt_createSalt options) defaultCreateSalt_source)
              (nullish (stringify options) JSON.stringify)).

(* ================================================================= *)
(** ** SDArray.ts *)

(** 5.2.4.2. Array Elements: the marker [{ "...": digest }]. *)
Definition arrayElementDigest (digest : string) : Value :=
  VObj [("...", VStr digest)].

(** 5.2.2. Disclosures for Array Elements *)
Definition disclosureForArrayElement (salt : string) (element : Value)
    (stringify : SDStringify) : string :=
  let array := VArr [VStr salt; element] in
  let jsonEncodedArray := stringify array in
  Base64url.encode jsonEncodedArray.

Record SDArrayResult : Type := mkSDArrayResult {
  sdArray_of : list Value;
  disclosures_of : list string;
}.

(** [indices.includes(index)] for the position handed to the callback of
    [reduce]; indices are the integer-valued numbers. *)
Definition includes_index (indices : list Z) (index : nat) : bool :=
  existsb (Z.eqb (Z.of_nat index)) indices.

Section SDArray.

Context `{NodeCrypto}.

(** The callback [sdArray] passes to [reduce]. *)
Definition sdArray_callback (indices : list Z)
    (disclosureOptions : RequiredDisclosureOpions)
    (acc : SDArrayResult) (e : Value) (index : nat) : M SDArrayResult :=
  let hashAlg := r_hashAlg disclosureOptions in
  let createSalt := r_createSalt disclosureOptions in
  if includes_index indices index then
    saltBytes <- call_createSalt createSalt ;;
    let salt := base64url saltBytes in
    let disclosure := disclosureForArrayElement salt e (r_stringify disclosureOptions) in
    digestBytes <- hash (Buffer_from disclosure) hashAlg ;;
    let disclosureDigest := base64url digestBytes in
    ret (mkSDArrayResult (sdArray_of acc ++ [arrayElementDigest disclosureDigest])
                         (disclosures_of acc ++ [disclosure]))
  else
    ret (mkSDArrayResult (sdArray_of acc ++ [e]) (disclosures_of acc)).

Definition sdArray (array : list Value) (indices : list Z)
    (disclosureOptions : RequiredDisclosureOpions) : M SDArrayResult :=
  reduce (sdArray_callback indices disclosureOptions) (mkSDArrayResult [] []) array.

End SDArray.

(* ================================================================= *)
(** ** SDObject.ts *)

(** 5.2.1. Disclosures for Object Properties *)
Definition disclosureForObjectProps (salt : string) (claimName : string)
    (claimValue : Value) (stringify : SDStringify) : string :=
  let array := VArr [VStr salt; VStr claimName; claimValue] in
  let jsonEncodedArray := stringify array in
  Base64url.encode jsonEncodedArray.

(** A json object with disclosable properties: the payload (of type
    [SDProps & T]) and the disclosures made so far. *)
Record SDObject : Type := mkSDObject {
  sdObject : Obj;
  disclosures : list string;
}.

(** [for (const k of names) delete o[k]] *)
Definition delete_all (names : list string) (o : Obj) : Obj :=
  fold_left (fun acc k => obj_delete k acc) names o.

Module SDObjectOps.

(** Lift an arbitrary object to an [SDObject]. *)
Definition pure (object : Obj) : SDObject :=
  mkSDObject (obj_set "_sd" (VArr []) object) [].

Section Methods.

Context `{NodeCrypto}.

(** Apply a function to a selectively disclosable object. *)
Definition map (self : SDObject) (f : Obj -> Obj) : SDObject :=
  let _sd_alg := obj_read "_sd_alg" (sdObject self) in
  let _sd := obj_read "_sd" (sdObject self) in
  mkSDObject (obj_set "_sd" _sd (obj_set "_sd_alg" _sd_alg (f (sdObject self))))
             (disclosures self).

(** Apply a function returning an [SDObject]; the two must have the
    consistent hashing algorithm. *)
Definition flatMap (self : SDObject) (f : Obj -> M SDObject) : M SDObject :=
  let pSdAlg := payload_sd_alg (sdObject self) in
  let pSd := payload_sd (sdObject self) in
  newSdObj <- f (sdObject self) ;;
  let nSdAlg := payload_sd_alg (sdObject newSdObj) in
  let nSd := payload_sd (sdObject newSdObj) in
  if negb (SDHashAlg_eqb (nullish pSdAlg SDDefaultHashAlg)
                         (nullish nSdAlg SDDefaultHashAlg))
  then throw InconsistentHashAlg
  else ret (mkSDObject (obj_set "_sd" (VArr (pSd ++ nSd)) (sdObject newSdObj))
                       (disclosures self ++ disclosures newSdObj)).

(** Make specific claims selectively disclosable. *)
Definition prop (self : SDObject) (claimNames : list string)
    (options : DisclosureOpions) : M SDObject :=
  let payload := sdObject self in
  let selfDisclosures := disclosures self in
  filled <- lift (fillSDOptions (sdObject self) options) ;;
  let hashAlg := r_hashAlg filled in
  let createSalt := r_createSalt filled in
  let stringify := r_stringify filled in
  staged <- mapM (fun claimName =>
                    saltBytes <- call_createSalt createSalt ;;
                    let salt := base64url saltBytes in
                    let claimValue := obj_read claimName payload in
                    ret (disclosureForObjectProps salt claimName claimValue stringify))
                 claimNames ;;
  sdClaims <- mapM (fun disclosure =>
                      digestBytes <- hash (Buffer_from disclosure) hashAlg ;;
                      let disclosureDigest := base64url digestBytes in
                      ret (disclosureDigest, disclosure))
                   staged ;;
  let disclosureDigests := List.map fst sdClaims in
  let newPayload :=
    obj_set "_sd_alg" (VStr (SDHashAlg_name hashAlg))
      (obj_set "_sd" (VArr (payload_sd payload ++ List.map VStr disclosureDigests))
         payload) in
  let newPayload := delete_all claimNames newPayload in
  let newDisclosures := selfDisclosures ++ List.map snd sdClaims in
  ret (mkSDObject newPayload newDisclosures).

(** Make specific elements of an array claim selectively disclosable. *)
Definition array (self : SDObject) (claimName : string) (indices : list Z)
    (options : DisclosureOpions) : M SDObject :=
  let selfDisclosures := disclosures self in
  let payload := sdObject self in
  filledSDOptions <- lift (fillSDOptions payload options) ;;
  match obj_read claimName payload with
  | VArr claimValueArray =>
      r <- sdArray claimValueArray indices filledSDOptions ;;
      let newDisclosures := disclosures_of r in
      let newArray := sdArray_of r in
      let newPayload :=
        obj_set "_sd_alg" (alg_value (hashAlg options))
          (obj_set claimName (VArr newArray) payload) in
      ret (mkSDObject newPayload (selfDisclosures ++ newDisclosures))
  | _ => throw TypeError
  end.

(** Make claim contents selectively disclosable individually. *)
Definition nested (self : SDObject) (claimName : string)
    (f : Value -> M SDObject) : M SDObject :=
  let selfDisclosures := disclosures self in
  let payload := sdObject self in
  let claimValue := obj_read claimName payload in
  r <- f claimValue ;;
  let newDisclosures := disclosures r in
  let newClaimValue := VObj (sdObject r) in
  let newPayload := obj_set claimName newClaimValue payload in
  ret (mkSDObject newPayload (selfDisclosures ++ newDisclosures)).

End Methods.

End SDObjectOps.

(* ================================================================= *)
(** ** Chains of redactions *)

(** One step of a chain [SDObject.pure(o).prop(...).array(...)...]. *)
Inductive Op : Type :=
| OpProp (claimNames : list string) (options : DisclosureOpions)
| OpArray (claimName : string) (indices : list Z) (options : DisclosureOpions).

Section Chains.

Context `{NodeCrypto}.

Definition run_op (self : SDObject) (op : Op) : M SDObject :=
  match op with
  | OpProp claimNames options => SDObjectOps.prop self claimNames options
  | OpArray claimName indices options => SDObjectOps.array self claimName indices options
  end.

Fixpoint run_chain (self : SDObject) (ops : list Op) : M SDObject :=
  match ops with
  | [] => ret self
  | op :: rest => next <- run_op self op ;; run_chain next rest
  end.

End Chains.

(** The number of properties a chain asks [prop] to redact. *)
Fixpoint redacted_properties (ops : list Op) : nat :=
  match ops with
  | [] => 0
  | OpProp claimNames _ :: rest => length claimNames + redacted_properties rest
  | OpArray _ _ _ :: rest => redacted_properties rest
  end.

(* ================================================================= *)
(** ** What [sdArray] computes, written as a recursion over the array *)

Section Redact.

Variable digest : Buffer -> Buffer.
Variable disclosureOptions : RequiredDisclosureOpions.
Variable indices : list Z.

(** The elements from position [index] on: the new elements, the
    disclosures of the redacted ones, and the world after the salts were
    drawn. *)
Fixpoint redact_from (index : nat) (xs : list Value) (w : World)
  : list Value * list string * World :=
  match xs with
  | [] => ([], [], w)
  | e :: rest =>
      if includes_index indices index then
        let (saltBytes, w1) := r_createSalt disclosureOptions w in
        let disclosure :=
          disclosureForArrayElement (base64url saltBytes) e
            (r_stringify disclosureOptions) in
        let '(arr, ds, w2) := redact_from (S index) rest w1 in
        (arrayElementDigest (base64url (digest (Buffer_from disclosure))) :: arr,
         disclosure :: ds, w2)
      else
        let '(arr, ds, w2) := redact_from (S index) rest w in
        (e :: arr, ds, w2)
  end.

End Redact.

(** The positions of an array of length [n], from [index] on, that
    [indices] selects: in ascending order. *)
Definition selected_positions (indices : list Z) (index n : nat) : list nat :=
  filter (includes_index indices) (seq index n).

(** The indices that name a position of an array of length [n]. *)
Definition in_range (n : nat) (indices : list Z) : list Z :=
  filter (fun i => (0 <=? i)%Z && (i <? Z.of_nat n)%Z) indices.

(* ================================================================= *)
(** ** A stand-in runtime for worked examples *)

(** Examples need some digest function and some random source.  The
    digest keeps the last four octets of its input, under every name; the
    random source hands out the octet 7 forever.  The theorems below are
    stated for every [NodeCrypto] and every [World]. *)
Definition exampleCrypto : NodeCrypto :=
  {| createHash := fun _ => Some (fun data => firstn 4 (List.rev data)) |}.

Definition exampleWorld : World := mkWorld [] (fun _ => "007"%char) 0.

(** A salt source as the tests mock it: always the same bytes. *)
Definition mockCreateSalt (salt : string) : SDCreateSalt :=
  fun w => (Base64url.toBuffer salt, w).

(* ================================================================= *)
(** ** Vocabulary of the statements *)

(** The payload and the caller both declare an algorithm, and not the
    same one. *)
Definition alg_conflict (payloadAlg callerAlg : option SDHashAlg) : Prop :=
  exists p o, payloadAlg = Some p /\ callerAlg = Some o /\ p <> o.

(** The algorithm options resolution settles on when there is no conflict:
    the payload's, else the caller's, else the default. *)
Definition effective_alg (payloadAlg callerAlg : option SDHashAlg) : SDHashAlg :=
  match payloadAlg, callerAlg with
  | Some p, _ => p
  | None, Some o => o
  | None, None => sha_256
  end.

(** The algorithm a payload is under: the declared one, else the default. *)
Definition declared_or_default (payload : Obj) : SDHashAlg :=
  nullish (payload_sd_alg payload) SDDefaultHashAlg.

(** The digest step accepts [alg]: the identifier has a translation and
    the runtime knows a digest under the translated name. *)
Definition digestible `{NodeCrypto} (alg : SDHashAlg) (digest : Buffer -> Buffer) : Prop :=
  exists name, translateHashAlg alg = inr name /\ createHash name = Some digest.

(** What the runtime returns for [createHash(name).update(data).digest()]. *)
Definition digest_under `{NodeCrypto} (name : string) (data : Buffer) : Result Buffer :=
  match createHash name with
  | Some digest => inr (digest data)
  | None => inl (DigestNotSupported name)
  end.

(** The line [requireSecondPreimageResistant] prints for a weak algorithm. *)
Definition weak_warning : string :=
  "A weak hash algorithm is used for disclosure digests.".

(** [entry] is the (digest, disclosure) pair [prop] stages for [claimName]:
    the disclosure of the claim's current value under some salt, and the
    digest [hash] returns for it. *)
Definition property_disclosure `{NodeCrypto} (payload : Obj)
    (filled : RequiredDisclosureOpions) (claimName : string)
    (entry : string * string) : Prop :=
  exists saltBytes digestBytes w0 w1,
    snd entry = disclosureForObjectProps (base64url saltBytes) claimName
                  (obj_read claimName payload) (r_stringify filled)
    /\ hash (Buffer_from (snd entry)) (r_hashAlg filled) w0 = (inr digestBytes, w1)
    /\ fst entry = base64url digestBytes.

(** The options of the repository's tests: sha-256, a fixed salt, the
    spaced-out serializer. *)
Definition testOptions (salt : string) : RequiredDisclosureOpions :=
  mkRequired sha_256 (mockCreateSalt salt) fancyStringify.

(** The payload [prop] builds from the digests it staged. *)
Definition prop_payload (payload : Obj) (filled : RequiredDisclosureOpions)
    (claimNames : list string) (digests : list string) : Obj :=
  delete_all claimNames
    (obj_set "_sd_alg" (VStr (SDHashAlg_name (r_hashAlg filled)))
       (obj_set "_sd" (VArr (payload_sd payload ++ List.map VStr digests)) payload)).

(** The claim set and the options of the worked examples. *)
Definition exampleClaims : Obj :=
  [("given_name", VStr "John"); ("nationalities", VArr [VStr "US"; VStr "DE"])].

Definition exampleOptions (alg : option SDHashAlg) (salt : string) : DisclosureOpions :=
  mkOptions alg (Some (mockCreateSalt salt)) (Some fancyStringify).

(** The 6-bit groups of one, two and three octets. *)
Definition group1 (a : nat) : nat := a / 4.
Definition group2 (a b : nat) : nat := (a mod 4) * 16 + b / 16.
Definition group3 (b c : nat) : nat := (b mod 16) * 4 + c / 64.
Definition group4 (c : nat) : nat := c mod 64.

(** What [JSON.serialize] writes for an element of an array and for a
    property of an object. *)
Definition elem_text (e : Value) : string :=
  match JSON.serialize e with Some t => t | None => "null" end.

Definition member_texts (kv : string * Value) : list string :=
  match JSON.serialize (snd kv) with
  | Some t => [(JSON.quote (fst kv) ++ ":" ++ t)%string]
  | None => []
  end.

Definition member_text (kv : string * Value) : string :=
  (JSON.quote (fst kv) ++ ":" ++ JSON.stringify (snd kv))%string.

(** The first character of a number: a digit, or the sign. *)
Definition number_start (c : ascii) : bool :=
  match JSON.digit_of_char c with
  | Some _ => true
  | None => Ascii.eqb c "-"
  end.

(** A serialized value starts with a character that is neither white
    space nor a closing bracket. *)
Definition value_start (c : ascii) : bool :=
  negb (JSON.is_ws c) && negb (Ascii.eqb c "]") && negb (Ascii.eqb c "}").

(** [v], serialized and followed by anything that cannot continue a
    number, parses back to [v] with that rest, given fuel beyond the
    length of its text. *)
Definition parses (v : Value) : Prop :=
  forall fuel rest,
    String.length (JSON.stringify v) < fuel -> JSON.ends_number rest = true ->
    JSON.parse_value fuel (JSON.stringify v ++ rest)%string = Some (v, rest).

(* ================================================================= *)
(** ** The repository's test fixtures *)

(** The claim set of the test "6.1. Issuance". *)
Definition inputClaimSet : Obj :=
  [("sub", VStr "user_42");
   ("given_name", VStr "John");
   ("family_name", VStr "Doe");
   ("email", VStr "johndoe@example.com");
   ("phone_number", VStr "+1-202-555-0101");
   ("phone_number_verified", VBool true);
   ("address", VObj [("street_address", VStr "123 Main St");
                     ("locality", VStr "Anytown");
                     ("region", VStr "Anystate");
                     ("country", VStr "US")]);
   ("birthdate", VStr "1940-01-01");
   ("updated_at", VNum 1570000000);
   ("nationalities", VArr [VStr "US"; VStr "DE"])].

(** The chain of redactions that test applies to it. *)
Definition issuance : list Op :=
  [OpArray "nationalities" [0%Z] (exampleOptions None "lklxF5jMYlGTPUovMNIvCA");
   OpArray "nationalities" [1%Z] (exampleOptions None "nPuoQnkRFq3BIeAm7AnXFA");
   OpProp ["given_name"] (exampleOptions None "2GLC42sKQveCfGfryNRN9w");
   OpProp ["family_name"] (exampleOptions None "eluV5Og3gSNII8EYnsxA_A");
   OpProp ["email"] (exampleOptions None "6Ij7tM-a5iVPGboS5tmvVA");
   OpProp ["phone_number"] (exampleOptions None "eI8ZWm9QnKPpNPeNenHdhQ");
   OpProp ["phone_number_verified"] (exampleOptions None "Qg_O64zqAxe412a108iroA");
   OpProp ["birthdate"] (exampleOptions None "Pc33JM2LchcU_lHggv_ufQ");
   OpProp ["updated_at"] (exampleOptions None "G02NSrQfjFXQ7Io09syajA");
   OpProp ["address"] (exampleOptions None "AJx-095VPrpTtN4QMOqROA")].

(** The disclosures of a run, none if it threw. *)
Definition disclosures_of_run (r : Result SDObject * World) : list string :=
  match fst r with
  | inr o => disclosures o
  | inl _ => []
  end.



(* ================================================================= *)
(** ** Vocabulary of the further properties *)

(** The world after [n] further octets were drawn, nothing printed. *)
Definition after_drawing (n : nat) (w : World) : World :=
  mkWorld (console w) (entropy w) (drawn w + n).

(** The world after one more line was printed. *)
Definition after_warning (line : string) (w : World) : World :=
  mkWorld (console w ++ [line]) (entropy w) (drawn w).

(** The line [inspectSizeOfSalt] prints for a short salt. *)
Definition short_salt_warning : string :=
  "The RECOMMENDED minimum length of the randomly-generated portion of the salt is 128 bits.".

(** The next [n] octets of the random source. *)
Definition next_octets (n : nat) (w : World) : Buffer :=
  List.map (entropy w) (seq (drawn w) n).

(** The disclosures [prop] stages for its names, and the world after their
    salts were drawn: the first pass of [prop], as a recursion. *)
Fixpoint stage_disclosures (payload : Obj) (filled : RequiredDisclosureOpions)
    (claimNames : list string) (w : World) : list string * World :=
  match claimNames with
  | [] => ([], w)
  | claimName :: rest =>
      let (saltBytes, w1) := r_createSalt filled w in
      let disclosure :=
        disclosureForObjectProps (base64url saltBytes) claimName
          (obj_read claimName payload) (r_stringify filled) in
      let (ds, w2) := stage_disclosures payload filled rest w1 in
      (disclosure :: ds, w2)
  end.

(** The digest [prop] and [sdArray] store for a disclosure. *)
Definition digest_text (digest : Buffer -> Buffer) (disclosure : string) : string :=
  base64url (digest (Buffer_from disclosure)).

(** A name that is a claim, not one of the two reserved keys. *)
Definition claim_name (k : string) : Prop := k <> "_sd" /\ k <> "_sd_alg".

(** A chain made of [prop] calls over claim names only. *)
Definition prop_chain (ops : list Op) : Prop :=
  Forall (fun op => match op with
                    | OpProp claimNames _ => Forall claim_name claimNames
                    | OpArray _ _ _ => False
                    end) ops.

(** [entry] is the digest [hash] returns for [disclosure] under [alg], as
    [prop] stores it in [_sd]. *)
Definition digest_of `{NodeCrypto} (alg : SDHashAlg) (entry : Value)
    (disclosure : string) : Prop :=
  exists digestBytes w0 w1,
    hash (Buffer_from disclosure) alg w0 = (inr digestBytes, w1)
    /\ entry = VStr (base64url digestBytes).

(** A call that cannot change the algorithm a payload declares: a [prop]
    call that does not name [_sd_alg], or an [array] call whose options
    state an algorithm.  ([array] stores the caller's option as it is.) *)
Definition keeps_algorithm (op : Op) : Prop :=
  match op with
  | OpProp claimNames _ => ~ In "_sd_alg" claimNames
  | OpArray _ _ options => hashAlg options <> None
  end.

(** Calling the salt source [n] times in a row. *)
Definition after_salts (createSalt : SDCreateSalt) (n : nat) (w : World) : World :=
  Nat.iter n (fun w0 => snd (createSalt w0)) w.

(** The digest collection matches the disclosures, entry by entry, under
    the algorithm the payload declares; or both are still empty. *)
Definition accounted `{NodeCrypto} (s : SDObject) : Prop :=
  (payload_sd (sdObject s) = [] /\ disclosures s = [])
  \/ (exists alg,
        payload_sd_alg (sdObject s) = Some alg
        /\ Forall2 (digest_of alg) (payload_sd (sdObject s)) (disclosures s)).


(** [text.replaceAll(",", ", ").replaceAll(":", ": ")], what [fancyStringify]
    does to the serialized text. *)
Definition spaced_text (s : string) : string :=
  replaceAll ":" ": " (replaceAll "," ", " s).

(** No comma and no colon. *)
Fixpoint plain_text (s : string) : bool :=
  match s with
  | EmptyString => true
  | String c rest => negb (Ascii.eqb c ",") && negb (Ascii.eqb c ":") && plain_text rest
  end.

(** [v] with every string in it, keys included, spaced out. *)
Fixpoint spaced (v : Value) : Value :=
  match v with
  | VStr s => VStr (spaced_text s)
  | VArr elems => VArr (List.map spaced elems)
  | VObj props => VObj (List.map (fun kv => (spaced_text (fst kv), spaced (snd kv))) props)
  | _ => v
  end.

(** Every string in [v], keys included, is free of commas and colons. *)
Fixpoint plain_value (v : Value) : bool :=
  match v with
  | VStr s => plain_text s
  | VArr elems => forallb plain_value elems
  | VObj props => forallb (fun kv => plain_text (fst kv) && plain_value (snd kv)) props
  | _ => true
  end.

(** [v], serialized by [fancyStringify] and followed by anything that
    cannot continue a number, parses to [spaced v] with that rest. *)
Definition fancy_parses (v : Value) : Prop :=
  forall fuel rest,
    String.length (fancyStringify v) < fuel -> JSON.ends_number rest = true ->
    JSON.parse_value fuel (fancyStringify v ++ rest)%string = Some (spaced v, rest).

(** Case analysis on every comparison of keys in the goal. *)
Ltac key_cases :=
  repeat match goal with
         | |- context [String.eqb ?a ?b] =>
             destruct (String.eqb_spec a b); try congruence; simpl
         end.


(* ================================================================= *)
(** * Properties *)

(** ** The repository's tests, replayed on the model *)

(** "sdArray produces the matching disclosure to the example." *)
Example sdArray_test_disclosure :
  disclosures_of_run
    (let (r, w) := @sdArray exampleCrypto [VStr "DE"; VStr "FR"] [1%Z]
                     (testOptions "lklxF5jMYlGTPUovMNIvCA") exampleWorld in
     (match r with
      | inr res => inr (mkSDObject [] (disclosures_of res))
      | inl e => inl e
      end, w))
  = ["WyJsa2x4RjVqTVlsR1RQVW92TU5JdkNBIiwgIkZSIl0"].
Proof. vm_compute. reflexivity. Qed.

(** "disclosureForObjectProps produces the matching disclosure to the
    example." *)
Example disclosureForObjectProps_test :
  disclosureForObjectProps "_26bc4LT-ac6q2KI6cBW5es" "family_name" (VStr "Möbius")
    fancyStringify
  = "WyJfMjZiYzRMVC1hYzZxMktJNmNCVzVlcyIsICJmYW1pbHlfbmFtZSIsICJNw7ZiaXVzIl0".
Proof. vm_compute. reflexivity. Qed.

(** "6.1. Issuance": "Produced disclosures match to the example". *)
Example issuance_disclosures :
  disclosures_of_run (@run_chain exampleCrypto (SDObjectOps.pure inputClaimSet) issuance exampleWorld)
  = ["WyJsa2x4RjVqTVlsR1RQVW92TU5JdkNBIiwgIlVTIl0";
     "WyJuUHVvUW5rUkZxM0JJZUFtN0FuWEZBIiwgIkRFIl0";
     "WyIyR0xDNDJzS1F2ZUNmR2ZyeU5STjl3IiwgImdpdmVuX25hbWUiLCAiSm9obiJd";
     "WyJlbHVWNU9nM2dTTklJOEVZbnN4QV9BIiwgImZhbWlseV9uYW1lIiwgIkRvZSJd";
     "WyI2SWo3dE0tYTVpVlBHYm9TNXRtdlZBIiwgImVtYWlsIiwgImpvaG5kb2VAZXhhbXBsZS5jb20iXQ";
     "WyJlSThaV205UW5LUHBOUGVOZW5IZGhRIiwgInBob25lX251bWJlciIsICIrMS0yMDItNTU1LTAxMDEiXQ";
     "WyJRZ19PNjR6cUF4ZTQxMmExMDhpcm9BIiwgInBob25lX251bWJlcl92ZXJpZmllZCIsIHRydWVd";
     "WyJQYzMzSk0yTGNoY1VfbEhnZ3ZfdWZRIiwgImJpcnRoZGF0ZSIsICIxOTQwLTAxLTAxIl0";
     "WyJHMDJOU3JRZmpGWFE3SW8wOXN5YWpBIiwgInVwZGF0ZWRfYXQiLCAxNTcwMDAwMDAwXQ";
     "WyJBSngtMDk1VlBycFR0TjRRTU9xUk9BIiwgImFkZHJlc3MiLCB7InN0cmVldF9hZGRyZXNzIjogIjEyMyBNYWluIFN0IiwgImxvY2FsaXR5IjogIkFueXRvd24iLCAicmVnaW9uIjogIkFueXN0YXRlIiwgImNvdW50cnkiOiAiVVMifV0"].
Proof. vm_compute. reflexivity. Qed.


(** ** Objects as association lists *)

Lemma obj_get_set_same k v o : obj_get k (obj_set k v o) = Some v.
Proof.
  induction o as [|[k' v'] o IH]; simpl.
  - now rewrite String.eqb_refl.
  - destruct (String.eqb k k') eqn:E; simpl; rewrite E; auto.
Qed.

Lemma obj_get_set_other k k' v o : k <> k' -> obj_get k (obj_set k' v o) = obj_get k o.
Proof.
  intros Hne. induction o as [|[k0 v0] o IH]; simpl.
  - destruct (String.eqb_spec k k'); congruence.
  - destruct (String.eqb_spec k' k0); simpl.
    + subst. destruct (String.eqb_spec k k0); congruence.
    + now rewrite IH.
Qed.

Lemma obj_get_delete_same k o : obj_get k (obj_delete k o) = None.
Proof.
  induction o as [|[k' v'] o IH]; simpl; auto.
  destruct (String.eqb k k') eqn:E; simpl; rewrite ?E; auto.
Qed.

Lemma obj_get_delete_other k k' o : k <> k' -> obj_get k (obj_delete k' o) = obj_get k o.
Proof.
  intros Hne. induction o as [|[k0 v0] o IH]; simpl; auto.
  destruct (String.eqb_spec k' k0); simpl.
  - subst. destruct (String.eqb_spec k k0); congruence.
  - now rewrite IH.
Qed.

Lemma obj_get_delete_all_other k names o :
  ~ In k names -> obj_get k (delete_all names o) = obj_get k o.
Proof.
  unfold delete_all. revert o.
  induction names as [|n names IH]; simpl; intros o Hnot; auto.
  rewrite IH by tauto. apply obj_get_delete_other. intros ->. tauto.
Qed.

Lemma obj_get_delete_all_none k names o :
  obj_get k o = None -> obj_get k (delete_all names o) = None.
Proof.
  unfold delete_all. revert o.
  induction names as [|n names IH]; simpl; intros o Hnone; auto.
  apply IH. destruct (String.eqb_spec k n) as [->|Hne].
  - apply obj_get_delete_same.
  - now rewrite obj_get_delete_other.
Qed.

Lemma obj_get_delete_all_same k names o :
  In k names -> obj_get k (delete_all names o) = None.
Proof.
  unfold delete_all. revert o.
  induction names as [|n names IH]; simpl; intros o Hin; [tauto|].
  destruct (String.eqb_spec k n) as [->|Hne].
  - apply (obj_get_delete_all_none n names). apply obj_get_delete_same.
  - apply IH. destruct Hin; congruence.
Qed.

(** ** Algorithm identifiers *)

Lemma SDHashAlg_eqb_eq a b : SDHashAlg_eqb a b = true <-> a = b.
Proof.
  split.
  - destruct a, b; intros E; try reflexivity; discriminate E.
  - intros ->. unfold SDHashAlg_eqb. apply String.eqb_refl.
Qed.

Lemma SDHashAlg_eqb_refl a : SDHashAlg_eqb a a = true.
Proof. now apply SDHashAlg_eqb_eq. Qed.

Lemma SDHashAlg_eqb_neq a b : SDHashAlg_eqb a b = false <-> a <> b.
Proof.
  split.
  - intros E ->. rewrite SDHashAlg_eqb_refl in E. discriminate.
  - intros Hne. destruct (SDHashAlg_eqb a b) eqn:E; auto.
    apply SDHashAlg_eqb_eq in E. contradiction.
Qed.

Lemma SDHashAlg_of_name_name a : SDHashAlg_of_name (SDHashAlg_name a) = Some a.
Proof. destruct a; reflexivity. Qed.

Lemma payload_sd_alg_set alg o :
  payload_sd_alg (obj_set "_sd_alg" (alg_value alg) o) = alg.
Proof.
  unfold payload_sd_alg. rewrite obj_get_set_same.
  destruct alg; simpl; auto using SDHashAlg_of_name_name.
Qed.

Lemma payload_sd_alg_frame k v o :
  k <> "_sd_alg" -> payload_sd_alg (obj_set k v o) = payload_sd_alg o.
Proof.
  intros Hne. unfold payload_sd_alg. rewrite obj_get_set_other; auto.
Qed.

Lemma payload_sd_set digests o : payload_sd (obj_set "_sd" (VArr digests) o) = digests.
Proof. unfold payload_sd. now rewrite obj_get_set_same. Qed.

Lemma payload_sd_frame k v o : k <> "_sd" -> payload_sd (obj_set k v o) = payload_sd o.
Proof.
  intros Hne. unfold payload_sd. rewrite obj_get_set_other; auto.
Qed.

(** ** C4: options resolution *)

(** Without a conflict, options resolution returns. *)
Lemma fillSDOptions_returns (sdProps : Obj) (options : DisclosureOpions) :
  ~ alg_conflict (payload_sd_alg sdProps) (hashAlg options) ->
  exists filled,
    fillSDOptions sdProps options = inr filled
    /\ r_hashAlg filled = effective_alg (payload_sd_alg sdProps) (hashAlg options).
Proof.
  unfold fillSDOptions, alg_conflict. intros Hok.
  destruct (payload_sd_alg sdProps) as [p|], (hashAlg options) as [o|]; simpl;
    try (eexists; split; reflexivity).
  destruct (SDHashAlg_eqb p o) eqn:E; simpl; [eexists; split; reflexivity|].
  apply SDHashAlg_eqb_neq in E. exfalso. apply Hok. exists p, o. auto.
Qed.

(** C4.  [fillSDOptions] fails, with the inconsistent-algorithm error, if and
    only if the payload and the caller both declare an algorithm and the two
    differ; in every other case it returns, and the algorithm of the record
    it returns is the payload's when declared, else the caller's when
    declared, else sha-256. *)
Theorem fillSDOptions_resolution (sdProps : Obj) (options : DisclosureOpions) :
  ((exists e, fillSDOptions sdProps options = inl e)
   <-> alg_conflict (payload_sd_alg sdProps) (hashAlg options))
  /\ (alg_conflict (payload_sd_alg sdProps) (hashAlg options)
      -> fillSDOptions sdProps options = inl InconsistentHashAlg)
  /\ (~ alg_conflict (payload_sd_alg sdProps) (hashAlg options)
      -> exists filled,
        fillSDOptions sdProps options = inr filled
        /\ r_hashAlg filled = effective_alg (payload_sd_alg sdProps) (hashAlg options)).
Proof.
  unfold fillSDOptions, alg_conflict.
  destruct (payload_sd_alg sdProps) as [p|], (hashAlg options) as [o|]; simpl.
  1: destruct (SDHashAlg_eqb p o) eqn:E; simpl;
     [apply SDHashAlg_eqb_eq in E | apply SDHashAlg_eqb_neq in E].
  all: repeat split.
  all: try (intros [e He]; discriminate He).
  all: try (intros (p' & o' & Hp & Ho & Hne); congruence).
  all: try (intros; eexists; split; reflexivity).
  all: try (intros; eexists; reflexivity).
  all: try (intros _; exists p, o; auto).
  all: try (intros Hc; exfalso; apply Hc; exists p, o; auto).
Qed.

(** ** The monad *)

Lemma bind_inr {A B} (m : M A) (k : A -> M B) w a w' :
  m w = (inr a, w') -> bind m k w = k a w'.
Proof. unfold bind. now intros ->. Qed.

Lemma bind_inl {A B} (m : M A) (k : A -> M B) w e w' :
  m w = (inl e, w') -> bind m k w = (inl e, w').
Proof. unfold bind. now intros ->. Qed.

Lemma bind_success {A B} (m : M A) (k : A -> M B) w b w' :
  bind m k w = (inr b, w') ->
  exists a w1, m w = (inr a, w1) /\ k a w1 = (inr b, w').
Proof.
  unfold bind. destruct (m w) as [[e|a] w1]; intros E; [discriminate|].
  now exists a, w1.
Qed.

Lemma lift_success {A} (r : Result A) w a w' :
  lift r w = (inr a, w') -> r = inr a /\ w' = w.
Proof. unfold lift. intros E. now inversion E. Qed.

Lemma mapM_length {A B} (f : A -> M B) xs : forall w ys w',
  mapM f xs w = (inr ys, w') -> length ys = length xs.
Proof.
  induction xs as [|x xs IH]; simpl; intros w ys w' E.
  - inversion E. reflexivity.
  - apply bind_success in E as (y & w1 & _ & E).
    apply bind_success in E as (ys' & w2 & E & R).
    inversion R; subst. simpl. f_equal. eauto.
Qed.

Lemma mapM_total {A B} (f : A -> M B) :
  (forall x w, exists y w', f x w = (inr y, w')) ->
  forall xs w, exists ys w', mapM f xs w = (inr ys, w').
Proof.
  intros Hf. induction xs as [|x xs IH]; intros w; simpl.
  - do 2 eexists. reflexivity.
  - destruct (Hf x w) as (y & w1 & Hy). erewrite bind_inr by exact Hy.
    destruct (IH w1) as (ys & w2 & Hys). erewrite bind_inr by exact Hys.
    do 2 eexists. reflexivity.
Qed.

(** ** hash.ts *)

Section HashFacts.

Context `{NodeCrypto}.

Lemma hash_digestible alg digest :
  digestible alg digest ->
  forall data w, hash data alg w = (inr (digest data), w).
Proof.
  intros (name & Ht & Hc) data w. unfold hash, bind, lift.
  now rewrite Ht, Hc.
Qed.

(** Whether [hash] throws depends on the algorithm only, and it leaves
    the world as it found it. *)
Lemma hash_cases alg :
  (exists digest, digestible alg digest)
  \/ (exists e, forall data w, hash data alg w = (inl e, w)).
Proof.
  unfold digestible, hash, bind, lift, throw, ret.
  destruct (translateHashAlg alg) as [e|name] eqn:Ht.
  - right. now exists e.
  - destruct (createHash name) as [digest|] eqn:Hc.
    + left. exists digest, name. auto.
    + right. exists (DigestNotSupported name). intros. reflexivity.
Qed.

Lemma hash_world data alg w : snd (hash data alg w) = w.
Proof.
  destruct (hash_cases alg) as [[digest Hd]|[e He]].
  - now rewrite (hash_digestible Hd).
  - now rewrite He.
Qed.

(** C10.  [hash] digests under the name [translateHashAlg] returns.  That
    name is the digest the identifier names for every supported identifier
    but two: sha-384 is digested with SHA3-384, and sha3-384 with SHA-384.
    The k12 identifiers fail with the unsupported-algorithm error. *)
Theorem hash_digest_names (data : Buffer) (w : World) :
  hash data sha_384 w = (digest_under "SHA3-384" data, w)
  /\ named_digest sha_384 = Some "SHA384"
  /\ hash data sha3_384 w = (digest_under "SHA384" data, w)
  /\ named_digest sha3_384 = Some "SHA3-384"
  /\ (forall alg name,
        named_digest alg = Some name -> alg <> sha_384 -> alg <> sha3_384 ->
        hash data alg w = (digest_under name data, w))
  /\ hash data k12_256 w = (inl (UnsupportedHashAlg "k12-256"), w)
  /\ hash data k12_512 w = (inl (UnsupportedHashAlg "k12-512"), w).
Proof.
  assert (Hh : forall alg name,
             translateHashAlg alg = inr name ->
             hash data alg w = (digest_under name data, w)).
  { intros alg name Ht. unfold hash, bind, lift, digest_under, ret, throw.
    rewrite Ht. now destruct (createHash name). }
  repeat split; try (apply Hh; reflexivity).
  intros alg name Hn Ha Hb. apply Hh.
  destruct alg; simpl in *; try congruence.
Qed.

(** C8.  A digest request never consults the policy: [hash] leaves the
    console as it found it, for every algorithm, where
    [requireSecondPreimageResistant] would have printed the warning for
    sha-256-64 and thrown for MD5. *)
Theorem hash_skips_policy (data : Buffer) (w : World) :
  console (snd (hash data sha_256_64 w)) = console w
  /\ hash data sha_256_64 w = (digest_under "SHA256-64" data, w)
  /\ console (snd (requireSecondPreimageResistant "sha-256-64" w))
     = console w ++ [weak_warning]
  /\ fst (requireSecondPreimageResistant "sha-256-64" w) = inr tt
  /\ requireSecondPreimageResistant "MD5" w = (inl ProhibitedHashAlg, w).
Proof.
  rewrite hash_world. repeat split.
  unfold hash, bind, lift, digest_under, ret, throw. simpl.
  now destruct (createHash "SHA256-64").
Qed.

End HashFacts.

(** ** C2: composition *)

(** C2, as the code has it.  Once the supplied function has returned its
    Redacted Value, [flatMap] compares the two algorithms after the default
    has been filled in: it fails with the inconsistent-algorithm error when
    they differ and returns the merged value when they agree.  An undeclared
    side therefore only agrees with a declared sha-256. *)
Theorem flatMap_consistency (self : SDObject) (f : Obj -> M SDObject)
    (w : World) (newSdObj : SDObject) (w' : World) :
  f (sdObject self) w = (inr newSdObj, w') ->
  (declared_or_default (sdObject self) <> declared_or_default (sdObject newSdObj)
   -> SDObjectOps.flatMap self f w = (inl InconsistentHashAlg, w'))
  /\ (declared_or_default (sdObject self) = declared_or_default (sdObject newSdObj)
      -> SDObjectOps.flatMap self f w
         = (inr (mkSDObject
                   (obj_set "_sd"
                      (VArr (payload_sd (sdObject self) ++ payload_sd (sdObject newSdObj)))
                      (sdObject newSdObj))
                   (disclosures self ++ disclosures newSdObj)), w')).
Proof.
  intros Hf. unfold SDObjectOps.flatMap, declared_or_default.
  erewrite bind_inr by exact Hf. split; intros Hcmp.
  - apply SDHashAlg_eqb_neq in Hcmp. now rewrite Hcmp.
  - apply SDHashAlg_eqb_eq in Hcmp. now rewrite Hcmp.
Qed.

Lemma flatMap_consistency_witness :
  SDObjectOps.flatMap
    (mkSDObject [("_sd", VArr [VStr "d1"]); ("_sd_alg", VStr "sha-256")] ["D1"])
    (fun o => ret (mkSDObject [("a", VNum 1); ("_sd", VArr [VStr "d2"])] ["D2"]))
    exampleWorld
  = (inr (mkSDObject [("a", VNum 1); ("_sd", VArr [VStr "d1"; VStr "d2"])] ["D1"; "D2"]),
     exampleWorld).
Proof.
  apply (proj2 (@flatMap_consistency
                  (mkSDObject [("_sd", VArr [VStr "d1"]); ("_sd_alg", VStr "sha-256")] ["D1"])
                  (fun o => ret (mkSDObject [("a", VNum 1); ("_sd", VArr [VStr "d2"])] ["D2"]))
                  exampleWorld _ exampleWorld eq_refl)).
  reflexivity.
Defined.

(** C2 fails as stated: a value that declares sha-512 composed with one that
    declares nothing (and so is left to the default) is rejected. *)
Lemma flatMap_declared_with_default_fails :
  payload_sd_alg [("_sd", VArr []); ("_sd_alg", VStr "sha-512")] = Some sha_512
  /\ payload_sd_alg (sdObject (SDObjectOps.pure [("a", VNum 1)])) = None
  /\ SDObjectOps.flatMap
       (mkSDObject [("_sd", VArr []); ("_sd_alg", VStr "sha-512")] [])
       (fun _ => ret (SDObjectOps.pure [("a", VNum 1)]))
       exampleWorld
     = (inl InconsistentHashAlg, exampleWorld).
Proof. repeat split. Qed.

(** ** SDArray.ts: [sdArray] against [redact_from] *)

Section RedactFacts.

Variable digest : Buffer -> Buffer.
Variable disclosureOptions : RequiredDisclosureOpions.

Lemma redact_from_length indices xs : forall index w arr ds w',
  redact_from digest disclosureOptions indices index xs w = (arr, ds, w') ->
  length arr = length xs
  /\ length ds = length (selected_positions indices index (length xs)).
Proof.
  unfold selected_positions.
  induction xs as [|e xs IH]; simpl; intros index w arr ds w' E.
  - inversion E. auto.
  - destruct (includes_index indices index).
    + destruct (r_createSalt disclosureOptions w) as [saltBytes w1].
      destruct (redact_from _ _ _ (S index) xs w1) as [[arr1 ds1] w2] eqn:R.
      inversion E; subst. apply IH in R as [Ha Hb]. simpl. now rewrite Ha, Hb.
    + destruct (redact_from _ _ _ (S index) xs w) as [[arr1 ds1] w2] eqn:R.
      inversion E; subst. apply IH in R as [Ha Hb]. simpl. now rewrite Ha, Hb.
Qed.

(** A position the index list does not select keeps its element. *)
Lemma redact_from_unselected indices xs : forall index w arr ds w' i,
  redact_from digest disclosureOptions indices index xs w = (arr, ds, w') ->
  includes_index indices (index + i) = false ->
  nth_error arr i = nth_error xs i.
Proof.
  induction xs as [|e xs IH]; simpl; intros index w arr ds w' i E Hi.
  - inversion E. reflexivity.
  - destruct (includes_index indices index) eqn:Hsel.
    + destruct (r_createSalt disclosureOptions w) as [saltBytes w1].
      destruct (redact_from _ _ _ (S index) xs w1) as [[arr1 ds1] w2] eqn:R.
      inversion E; subst. destruct i as [|i]; simpl.
      * rewrite Nat.add_0_r in Hi. congruence.
      * eapply IH; eauto. now rewrite Nat.add_succ_comm.
    + destruct (redact_from _ _ _ (S index) xs w) as [[arr1 ds1] w2] eqn:R.
      inversion E; subst. destruct i as [|i]; simpl; auto.
      eapply IH; eauto. now rewrite Nat.add_succ_comm.
Qed.

(** The [k]-th disclosure is the disclosure of the element at the [k]-th
    selected position, counted in ascending order, and that position holds
    the marker of its digest. *)
Lemma redact_from_selected indices xs : forall index w arr ds w' k p,
  redact_from digest disclosureOptions indices index xs w = (arr, ds, w') ->
  nth_error (selected_positions indices index (length xs)) k = Some p ->
  exists e saltBytes d,
    index <= p
    /\ nth_error xs (p - index) = Some e
    /\ d = disclosureForArrayElement (base64url saltBytes) e
             (r_stringify disclosureOptions)
    /\ nth_error ds k = Some d
    /\ nth_error arr (p - index)
       = Some (arrayElementDigest (base64url (digest (Buffer_from d)))).
Proof.
  unfold selected_positions.
  induction xs as [|e xs IH]; simpl; intros index w arr ds w' k p E Hk.
  - destruct k; discriminate.
  - destruct (includes_index indices index) eqn:Hsel.
    + destruct (r_createSalt disclosureOptions w) as [saltBytes w1].
      destruct (redact_from _ _ _ (S index) xs w1) as [[arr1 ds1] w2] eqn:R.
      inversion E; subst. destruct k as [|k]; simpl in Hk.
      * inversion Hk; subst. exists e, saltBytes. eexists.
        rewrite Nat.sub_diag. simpl. repeat split; auto.
      * destruct (IH _ _ _ _ _ _ _ R Hk) as (e' & s' & d' & Hle & Hx & Hd & Hds & Harr).
        exists e', s', d'.
        replace (p - index) with (S (p - S index)) by lia.
        simpl. repeat split; auto. lia.
    + destruct (redact_from _ _ _ (S index) xs w) as [[arr1 ds1] w2] eqn:R.
      inversion E; subst.
      destruct (IH _ _ _ _ _ _ _ R Hk) as (e' & s' & d' & Hle & Hx & Hd & Hds & Harr).
      exists e', s', d'.
      replace (p - index) with (S (p - S index)) by lia.
      simpl. repeat split; auto. lia.
Qed.

(** Only what the index list says about the positions of the array
    matters. *)
Lemma redact_from_ext indices indices' xs : forall index w,
  (forall i, i < length xs ->
             includes_index indices (index + i) = includes_index indices' (index + i)) ->
  redact_from digest disclosureOptions indices index xs w
  = redact_from digest disclosureOptions indices' index xs w.
Proof.
  induction xs as [|e xs IH]; simpl; intros index w Hagree; auto.
  assert (H0 := Hagree 0). rewrite Nat.add_0_r in H0. rewrite <- H0 by lia.
  assert (Hrest : forall w0, redact_from digest disclosureOptions indices (S index) xs w0
                           = redact_from digest disclosureOptions indices' (S index) xs w0).
  { intros w0. apply IH. intros i Hi.
    rewrite !Nat.add_succ_comm. apply Hagree. lia. }
  destruct (includes_index indices index).
  - destruct (r_createSalt disclosureOptions w) as [saltBytes w1]. now rewrite Hrest.
  - now rewrite Hrest.
Qed.

Lemma redact_from_none indices xs : forall index w,
  selected_positions indices index (length xs) = [] ->
  redact_from digest disclosureOptions indices index xs w = (xs, [], w).
Proof.
  unfold selected_positions.
  induction xs as [|e xs IH]; simpl; intros index w Hnone; auto.
  destruct (includes_index indices index); [discriminate|].
  now rewrite IH.
Qed.

End RedactFacts.

Lemma includes_index_in_range n indices i :
  i < n -> includes_index (in_range n indices) i = includes_index indices i.
Proof.
  intros Hi. unfold includes_index, in_range.
  induction indices as [|z zs IH]; simpl; auto.
  destruct ((0 <=? z)%Z && (z <? Z.of_nat n)%Z) eqn:Hr; simpl.
  - now rewrite IH.
  - rewrite IH. destruct (Z.eqb_spec (Z.of_nat i) z); auto.
    subst. apply andb_false_iff in Hr as [Hr|Hr]; lia.
Qed.

Lemma selected_positions_bound indices index n p :
  In p (selected_positions indices index n) -> index <= p < index + n.
Proof.
  unfold selected_positions. intros Hin. apply filter_In in Hin as [Hin _].
  apply in_seq in Hin. lia.
Qed.

Section SDArrayFacts.

Context `{NodeCrypto}.

Variable disclosureOptions : RequiredDisclosureOpions.
Variable indices : list Z.

Lemma reduce_from_cons {A B} (f : B -> A -> nat -> M B) index acc x xs w :
  reduce_from index f acc (x :: xs) w
  = match f acc x index w with
    | (inl e, w') => (inl e, w')
    | (inr acc', w') => reduce_from (S index) f acc' xs w'
    end.
Proof. reflexivity. Qed.

Lemma sdArray_callback_unselected acc e index w :
  includes_index indices index = false ->
  sdArray_callback indices disclosureOptions acc e index w
  = (inr (mkSDArrayResult (sdArray_of acc ++ [e]) (disclosures_of acc)), w).
Proof. unfold sdArray_callback. now intros ->. Qed.

Lemma sdArray_callback_selected digest acc e index w :
  digestible (r_hashAlg disclosureOptions) digest ->
  includes_index indices index = true ->
  sdArray_callback indices disclosureOptions acc e index w
  = let (saltBytes, w1) := r_createSalt disclosureOptions w in
    let disclosure :=
      disclosureForArrayElement (base64url saltBytes) e (r_stringify disclosureOptions) in
    (inr (mkSDArrayResult
            (sdArray_of acc
             ++ [arrayElementDigest (base64url (digest (Buffer_from disclosure)))])
            (disclosures_of acc ++ [disclosure])), w1).
Proof.
  intros Hd Hsel. unfold sdArray_callback. rewrite Hsel.
  unfold bind, call_createSalt.
  destruct (r_createSalt disclosureOptions w) as [saltBytes w1].
  now rewrite (hash_digestible Hd).
Qed.

Lemma sdArray_callback_rejected e0 acc e index w :
  (forall data w0, hash data (r_hashAlg disclosureOptions) w0 = (inl e0, w0)) ->
  includes_index indices index = true ->
  sdArray_callback indices disclosureOptions acc e index w
  = (inl e0, snd (r_createSalt disclosureOptions w)).
Proof.
  intros Hrej Hsel. unfold sdArray_callback. rewrite Hsel.
  unfold bind, call_createSalt.
  destruct (r_createSalt disclosureOptions w) as [saltBytes w1].
  now rewrite Hrej.
Qed.

(** With an algorithm the digest step accepts, [reduce] walks the array
    exactly as [redact_from] does. *)
Lemma reduce_from_redact digest :
  digestible (r_hashAlg disclosureOptions) digest ->
  forall xs index acc w arr ds w',
    redact_from digest disclosureOptions indices index xs w = (arr, ds, w') ->
    reduce_from index (sdArray_callback indices disclosureOptions) acc xs w
    = (inr (mkSDArrayResult (sdArray_of acc ++ arr) (disclosures_of acc ++ ds)), w').
Proof.
  intros Hd. induction xs as [|e xs IH]; intros index acc w arr ds w' E.
  - simpl in *. inversion E. rewrite !List.app_nil_r. now destruct acc.
  - rewrite reduce_from_cons. simpl in E.
    destruct (includes_index indices index) eqn:Hsel.
    + rewrite (@sdArray_callback_selected digest acc e index w Hd Hsel).
      destruct (r_createSalt disclosureOptions w) as [saltBytes w1].
      destruct (redact_from _ _ _ (S index) xs w1) as [[arr1 ds1] w2] eqn:R.
      inversion E; subst. cbv beta iota zeta. erewrite IH by eauto. simpl.
      now rewrite <- !List.app_assoc.
    + rewrite (@sdArray_callback_unselected acc e index w Hsel).
      destruct (redact_from _ _ _ (S index) xs w) as [[arr1 ds1] w2] eqn:R.
      inversion E; subst. cbv beta iota zeta. erewrite IH by eauto. simpl.
      now rewrite <- !List.app_assoc.
Qed.

(** With an algorithm the digest step rejects, [reduce] gets through
    exactly when no position is selected. *)
Lemma reduce_from_rejected e0 :
  (forall data w, hash data (r_hashAlg disclosureOptions) w = (inl e0, w)) ->
  forall xs index acc w,
    (selected_positions indices index (length xs) = [] ->
     reduce_from index (sdArray_callback indices disclosureOptions) acc xs w
     = (inr (mkSDArrayResult (sdArray_of acc ++ xs) (disclosures_of acc)), w))
    /\ (selected_positions indices index (length xs) <> [] ->
        exists w',
          reduce_from index (sdArray_callback indices disclosureOptions) acc xs w
          = (inl e0, w')).
Proof.
  intros Hrej. unfold selected_positions.
  induction xs as [|e xs IH]; intros index acc w.
  - simpl. split; [|congruence]. intros _. rewrite List.app_nil_r. now destruct acc.
  - rewrite reduce_from_cons. simpl.
    destruct (includes_index indices index) eqn:Hsel.
    + split; [discriminate|]. intros _.
      rewrite (@sdArray_callback_rejected e0 acc e index w Hrej Hsel). eauto.
    + rewrite (@sdArray_callback_unselected acc e index w Hsel).
      destruct (IH (S index)
                  (mkSDArrayResult (sdArray_of acc ++ [e]) (disclosures_of acc)) w)
        as [IH1 IH2].
      split; intros Hnone.
      * rewrite IH1 by assumption. simpl. now rewrite <- List.app_assoc.
      * apply IH2 in Hnone. exact Hnone.
Qed.

(** Whenever [sdArray] returns, what it returns is [redact_from] under some
    digest function: the one the runtime used if a digest was asked for. *)
Lemma sdArray_success xs w r w' :
  sdArray xs indices disclosureOptions w = (inr r, w') ->
  exists digest,
    redact_from digest disclosureOptions indices 0 xs w
    = (sdArray_of r, disclosures_of r, w').
Proof.
  unfold sdArray, reduce. intros E.
  destruct (hash_cases (r_hashAlg disclosureOptions)) as [[digest Hd]|[e0 Hrej]].
  - exists digest.
    destruct (redact_from digest disclosureOptions indices 0 xs w) as [[arr ds] w2] eqn:R.
    rewrite (@reduce_from_redact digest Hd xs 0 (mkSDArrayResult [] []) w arr ds w2 R) in E.
    simpl in E. inversion E; subst. reflexivity.
  - exists (fun _ => []).
    destruct (reduce_from_rejected Hrej xs 0 (mkSDArrayResult [] []) w) as [H1 H2].
    destruct (selected_positions indices 0 (length xs)) eqn:Hsel.
    + rewrite H1 in E by reflexivity. simpl in E. inversion E; subst. simpl.
      now apply redact_from_none.
    + destruct H2 as [w2 H2]; [discriminate|]. rewrite H2 in E. discriminate.
Qed.

End SDArrayFacts.

Section SDArrayClaims.

Context `{NodeCrypto}.

(** C3, for the algorithms the digest step accepts.  [sdArray] returns a
    sequence of the length of the array; a position the index list does not
    select holds the original element; the selected positions hold digest
    markers, the [k]-th disclosure being the disclosure of the [k]-th
    selected position in ascending order and the marker there carrying its
    digest; indices outside the array change nothing. *)
Theorem sdArray_shape (array : list Value) (indices : list Z)
    (disclosureOptions : RequiredDisclosureOpions)
    (digest : Buffer -> Buffer) (w : World) :
  digestible (r_hashAlg disclosureOptions) digest ->
  exists r w',
    sdArray array indices disclosureOptions w = (inr r, w')
    /\ length (sdArray_of r) = length array
    /\ (forall i, includes_index indices i = false ->
                  nth_error (sdArray_of r) i = nth_error array i)
    /\ (forall p, p < length array -> includes_index indices p = true ->
                  exists d, In d (disclosures_of r)
                            /\ nth_error (sdArray_of r) p
                               = Some (arrayElementDigest
                                         (base64url (digest (Buffer_from d)))))
    /\ length (disclosures_of r)
       = length (selected_positions indices 0 (length array))
    /\ (forall k p,
          nth_error (selected_positions indices 0 (length array)) k = Some p ->
          exists e saltBytes d,
            nth_error array p = Some e
            /\ d = disclosureForArrayElement (base64url saltBytes) e
                     (r_stringify disclosureOptions)
            /\ nth_error (disclosures_of r) k = Some d
            /\ nth_error (sdArray_of r) p
               = Some (arrayElementDigest (base64url (digest (Buffer_from d)))))
    /\ sdArray array (in_range (length array) indices) disclosureOptions w
       = (inr r, w').
Proof.
  intros Hd.
  destruct (redact_from digest disclosureOptions indices 0 array w)
    as [[arr ds] w'] eqn:R.
  exists (mkSDArrayResult arr ds), w'. simpl.
  destruct (@redact_from_length digest disclosureOptions indices array 0 w arr ds w' R)
    as [Hlen Hds].
  repeat split; auto.
  - unfold sdArray, reduce.
    now rewrite (@reduce_from_redact _ disclosureOptions indices digest Hd
                   array 0 (mkSDArrayResult [] []) w arr ds w' R).
  - intros i Hi. eapply redact_from_unselected; eauto.
  - intros p Hp Hsel.
    assert (Hin : In p (selected_positions indices 0 (length array))).
    { apply filter_In. split; [apply in_seq; lia|exact Hsel]. }
    apply In_nth_error in Hin as [k Hk].
    destruct (@redact_from_selected digest disclosureOptions indices array 0 w
                arr ds w' k p R Hk)
      as (e & saltBytes & d & _ & _ & _ & Hnth & Harr).
    rewrite Nat.sub_0_r in Harr. exists d. split; [|exact Harr].
    eapply nth_error_In. exact Hnth.
  - intros k p Hk.
    destruct (@redact_from_selected digest disclosureOptions indices array 0 w
                arr ds w' k p R Hk)
      as (e & saltBytes & d & _ & Hx & Hdd & Hnth & Harr).
    rewrite Nat.sub_0_r in *. exists e, saltBytes, d. auto.
  - unfold sdArray, reduce.
    apply (@reduce_from_redact _ disclosureOptions (in_range (length array) indices)
             digest Hd array 0 (mkSDArrayResult [] []) w arr ds w').
    rewrite <- R. apply redact_from_ext. intros i Hi. simpl.
    now apply includes_index_in_range.
Qed.

End SDArrayClaims.

Lemma sdArray_shape_witness :
  exists r w',
    @sdArray exampleCrypto [VStr "DE"; VStr "FR"] [1; 7; -1]%Z
      (testOptions "lklxF5jMYlGTPUovMNIvCA") exampleWorld = (inr r, w')
    /\ length (sdArray_of r) = 2
    /\ nth_error (sdArray_of r) 0 = Some (VStr "DE")
    /\ disclosures_of r = ["WyJsa2x4RjVqTVlsR1RQVW92TU5JdkNBIiwgIkZSIl0"].
Proof.
  destruct (@sdArray_shape exampleCrypto [VStr "DE"; VStr "FR"] [1; 7; -1]%Z
              (testOptions "lklxF5jMYlGTPUovMNIvCA")
              (fun data => firstn 4 (List.rev data)) exampleWorld)
    as (r & w' & Hrun & Hlen & Hkeep & _ & Hcount & Hsel & _).
  - exists "SHA256". split; reflexivity.
  - exists r, w'. split; [exact Hrun|]. split; [exact Hlen|].
    split; [exact (Hkeep 0 eq_refl)|].
    destruct (Hsel 0 1 eq_refl) as (e & saltBytes & d & _ & _ & _ & _).
    vm_compute in Hrun. inversion Hrun. reflexivity.
Defined.

(** C3 fails as stated: under a resolved options record whose algorithm is
    k12-256, redacting a position that exists throws, and no sequence is
    returned. *)
Lemma sdArray_k12_throws :
  fst (@sdArray exampleCrypto [VStr "DE"; VStr "FR"] [1%Z]
         (mkRequired k12_256 (mockCreateSalt "lklxF5jMYlGTPUovMNIvCA") fancyStringify)
         exampleWorld)
  = inl (UnsupportedHashAlg "k12-256").
Proof. vm_compute. reflexivity. Qed.

(** ** SDObject.ts: what a returning call returned *)

Lemma mapM_Forall2 {A B} (f : A -> M B) xs : forall w ys w',
  mapM f xs w = (inr ys, w') ->
  Forall2 (fun x y => exists w0 w1, f x w0 = (inr y, w1)) xs ys.
Proof.
  induction xs as [|x xs IH]; simpl; intros w ys w' E.
  - inversion E. constructor.
  - apply bind_success in E as (y & w1 & Hy & E).
    apply bind_success in E as (ys' & w2 & E & R).
    inversion R; subst. constructor; eauto.
Qed.

Lemma Forall2_compose {A B C} (P : A -> B -> Prop) (Q : B -> C -> Prop) xs :
  forall ys zs, Forall2 P xs ys -> Forall2 Q ys zs ->
                Forall2 (fun x z => exists y, P x y /\ Q y z) xs zs.
Proof.
  induction xs as [|x xs IH]; intros ys zs HP HQ; inversion HP; subst;
    inversion HQ; subst; constructor; eauto.
Qed.

Section SDObjectFacts.

Context `{NodeCrypto}.

Lemma prop_success self claimNames options w r w' :
  SDObjectOps.prop self claimNames options w = (inr r, w') ->
  exists filled sdClaims,
    fillSDOptions (sdObject self) options = inr filled
    /\ Forall2 (property_disclosure (sdObject self) filled) claimNames sdClaims
    /\ r = mkSDObject
             (prop_payload (sdObject self) filled claimNames (List.map fst sdClaims))
             (disclosures self ++ List.map snd sdClaims).
Proof.
  unfold SDObjectOps.prop. intros E.
  apply bind_success in E as (filled & w0 & Hfill & E).
  apply lift_success in Hfill as [Hfill ->].
  apply bind_success in E as (staged & w1 & Hstaged & E).
  apply bind_success in E as (sdClaims & w2 & Hclaims & E).
  inversion E; subst. exists filled, sdClaims.
  split; [assumption|]. split; [|reflexivity].
  apply mapM_Forall2 in Hstaged, Hclaims.
  pose proof (Forall2_compose Hstaged Hclaims) as HF.
  eapply Forall2_impl; [|exact HF].
  intros claimName entry (d & (wa & wb & Hd) & (wc & wd & Hh)).
  apply bind_success in Hd as (saltBytes & we & _ & Hd). inversion Hd; subst.
  apply bind_success in Hh as (digestBytes & wf & Hh & Hr). inversion Hr; subst.
  exists saltBytes, digestBytes, wc, wd. simpl. auto.
Qed.

Lemma array_success self claimName indices options w r w' :
  SDObjectOps.array self claimName indices options w = (inr r, w') ->
  exists filled xs res,
    fillSDOptions (sdObject self) options = inr filled
    /\ obj_read claimName (sdObject self) = VArr xs
    /\ sdArray xs indices filled w = (inr res, w')
    /\ r = mkSDObject
             (obj_set "_sd_alg" (alg_value (hashAlg options))
                (obj_set claimName (VArr (sdArray_of res)) (sdObject self)))
             (disclosures self ++ disclosures_of res).
Proof.
  unfold SDObjectOps.array. intros E.
  apply bind_success in E as (filled & w0 & Hfill & E).
  apply lift_success in Hfill as [Hfill ->].
  destruct (obj_read claimName (sdObject self)) as [| | | | |xs|] eqn:Hread;
    try discriminate E.
  apply bind_success in E as (res & w1 & Hres & E).
  inversion E; subst. exists filled, xs, res. auto.
Qed.

(** The algorithm [array] leaves in the payload is the caller's raw option,
    whatever options resolution settled on. *)
Lemma array_sets_caller_alg self claimName indices options w r w' :
  SDObjectOps.array self claimName indices options w = (inr r, w') ->
  payload_sd_alg (sdObject r) = hashAlg options.
Proof.
  intros E. apply array_success in E as (filled & xs & res & _ & _ & _ & ->).
  simpl. apply payload_sd_alg_set.
Qed.

Lemma payload_sd_prop_payload payload filled claimNames digests :
  ~ In "_sd" claimNames ->
  payload_sd (prop_payload payload filled claimNames digests)
  = payload_sd payload ++ List.map VStr digests.
Proof.
  intros Hnot. unfold prop_payload, payload_sd at 1.
  rewrite obj_get_delete_all_other by assumption.
  rewrite obj_get_set_other by discriminate.
  now rewrite obj_get_set_same.
Qed.

Lemma payload_sd_prop_payload_le payload filled claimNames digests :
  length (payload_sd (prop_payload payload filled claimNames digests))
  <= length (payload_sd payload) + length digests.
Proof.
  destruct (in_dec string_dec "_sd" claimNames) as [Hin|Hnot].
  - unfold prop_payload, payload_sd at 1.
    rewrite obj_get_delete_all_same by assumption. simpl. lia.
  - rewrite payload_sd_prop_payload by assumption.
    rewrite length_app, length_map. lia.
Qed.

Lemma payload_sd_array payload claimName xs newArray :
  obj_read claimName payload = VArr xs ->
  length newArray = length xs ->
  length (payload_sd (obj_set claimName (VArr newArray) payload))
  = length (payload_sd payload).
Proof.
  intros Hread Hlen. destruct (string_dec claimName "_sd") as [->|Hne].
  - rewrite payload_sd_set. unfold payload_sd, obj_read in *.
    destruct (obj_get "_sd" payload) as [v|]; [|discriminate]. now subst.
  - now rewrite payload_sd_frame.
Qed.

End SDObjectFacts.

(** ** C1: the algorithm [array] records *)

(** C1.  After [prop] has declared sha-512, an [array] call with no
    algorithm of its own resolves its options to sha-512 and digests under it,
    yet stores [undefined] under [_sd_alg]: the payload no longer declares
    the algorithm its digests were made with. *)
Theorem array_forgets_resolved_alg :
  exists declared filled r w1 w2,
    @SDObjectOps.prop exampleCrypto (SDObjectOps.pure exampleClaims) ["given_name"]
      (exampleOptions (Some sha_512) "2GLC42sKQveCfGfryNRN9w") exampleWorld
    = (inr declared, w1)
    /\ payload_sd_alg (sdObject declared) = Some sha_512
    /\ fillSDOptions (sdObject declared) (exampleOptions None "lklxF5jMYlGTPUovMNIvCA")
       = inr filled
    /\ r_hashAlg filled = sha_512
    /\ @SDObjectOps.array exampleCrypto declared "nationalities" [0%Z]
         (exampleOptions None "lklxF5jMYlGTPUovMNIvCA") w1
       = (inr r, w2)
    /\ obj_get "_sd_alg" (sdObject r) = Some VUndefined
    /\ payload_sd_alg (sdObject r) = None.
Proof.
  do 5 eexists. split; [vm_compute; reflexivity|].
  split; [reflexivity|]. split; [vm_compute; reflexivity|].
  split; [reflexivity|]. split; [vm_compute; reflexivity|].
  split; reflexivity.
Qed.

(** ** C5: accounting *)

Section Accounting.

Context `{NodeCrypto}.

(** When [sdArray] returns, it has redacted under the digest of the
    resolved algorithm; only when nothing was selected can that algorithm
    be one the digest step rejects. *)
Lemma sdArray_success_digest disclosureOptions indices xs w r w' :
  sdArray xs indices disclosureOptions w = (inr r, w') ->
  exists digest,
    redact_from digest disclosureOptions indices 0 xs w
    = (sdArray_of r, disclosures_of r, w')
    /\ (selected_positions indices 0 (length xs) <> [] ->
        digestible (r_hashAlg disclosureOptions) digest).
Proof.
  unfold sdArray, reduce. intros E.
  destruct (hash_cases (r_hashAlg disclosureOptions)) as [[digest Hd]|[e0 Hrej]].
  - exists digest. split; [|auto].
    destruct (redact_from digest disclosureOptions indices 0 xs w) as [[arr ds] w2] eqn:R.
    rewrite (@reduce_from_redact _ disclosureOptions indices digest Hd
               xs 0 (mkSDArrayResult [] []) w arr ds w2 R) in E.
    simpl in E. inversion E; subst. reflexivity.
  - exists (fun _ => []).
    destruct (@reduce_from_rejected _ disclosureOptions indices e0 Hrej
                xs 0 (mkSDArrayResult [] []) w) as [H1 H2].
    destruct (selected_positions indices 0 (length xs)) eqn:Hsel.
    + rewrite H1 in E by reflexivity. simpl in E. inversion E; subst. simpl.
      split; [now apply redact_from_none|congruence].
    + destruct H2 as [w2 H2]; [discriminate|]. rewrite H2 in E. discriminate.
Qed.

(** C5, as the code has it.  A [prop] call that returns (its names not
    including the reserved key [_sd]) adds to [_sd] as many digests as it
    appends disclosures, one of each per name.  An [array] call that returns
    adds no digest to [_sd]: it appends one disclosure per selected position
    of the array, and the digests sit in the markers inside the array.  The
    claim's new array has the length of the old one; a position that is not
    selected holds the element it held; the [k]-th selected position, in
    ascending order, holds the marker that carries the digest [hash] returns
    for the [k]-th appended disclosure under the resolved algorithm. *)
Theorem redaction_accounting (self : SDObject) (op : Op) (w : World)
    (r : SDObject) (w' : World) :
  run_op self op w = (inr r, w') ->
  match op with
  | OpProp claimNames _ =>
      ~ In "_sd" claimNames ->
      exists digests staged,
        payload_sd (sdObject r) = payload_sd (sdObject self) ++ digests
        /\ disclosures r = disclosures self ++ staged
        /\ length digests = length staged
        /\ length staged = length claimNames
  | OpArray claimName indices options =>
      exists xs added filled newArray,
        obj_read claimName (sdObject self) = VArr xs
        /\ length (payload_sd (sdObject r)) = length (payload_sd (sdObject self))
        /\ disclosures r = disclosures self ++ added
        /\ length added = length (selected_positions indices 0 (length xs))
        /\ fillSDOptions (sdObject self) options = inr filled
        /\ (claimName <> "_sd_alg" ->
            obj_get claimName (sdObject r) = Some (VArr newArray))
        /\ length newArray = length xs
        /\ (forall i, includes_index indices i = false ->
                      nth_error newArray i = nth_error xs i)
        /\ (forall k p,
              nth_error (selected_positions indices 0 (length xs)) k = Some p ->
              exists d digestBytes,
                nth_error added k = Some d
                /\ (forall w0, hash (Buffer_from d) (r_hashAlg filled) w0
                               = (inr digestBytes, w0))
                /\ nth_error newArray p
                   = Some (arrayElementDigest (base64url digestBytes)))
  end.
Proof.
  destruct op as [claimNames options|claimName indices options]; simpl; intros E.
  - intros Hnot.
    apply prop_success in E as (filled & sdClaims & _ & HF & ->). simpl.
    exists (List.map VStr (List.map fst sdClaims)), (List.map snd sdClaims).
    rewrite payload_sd_prop_payload by assumption.
    rewrite !length_map. apply Forall2_length in HF. auto.
  - apply array_success in E as (filled & xs & res & Hfill & Hread & Hres & ->). simpl.
    apply sdArray_success_digest in Hres as (digest & R & Hd).
    pose proof (@redact_from_length digest filled indices xs 0 w
                  (sdArray_of res) (disclosures_of res) w' R) as [Hlen Hds].
    exists xs, (disclosures_of res), filled, (sdArray_of res).
    split; [exact Hread|]. split.
    { rewrite payload_sd_frame by discriminate.
      now apply payload_sd_array with (xs := xs). }
    split; [reflexivity|]. split; [exact Hds|]. split; [exact Hfill|]. split.
    { intros Hne. rewrite obj_get_set_other by congruence. apply obj_get_set_same. }
    split; [exact Hlen|]. split.
    { intros i Hi. eapply redact_from_unselected; eauto. }
    intros k p Hk.
    assert (Hsel : selected_positions indices 0 (length xs) <> []).
    { intros Hnil. rewrite Hnil in Hk. destruct k; discriminate. }
    destruct (@redact_from_selected digest filled indices xs 0 w
                (sdArray_of res) (disclosures_of res) w' k p R Hk)
      as (e & saltBytes & d & _ & _ & _ & Hnth & Harr).
    rewrite Nat.sub_0_r in Harr.
    exists d, (digest (Buffer_from d)). split; [exact Hnth|]. split; [|exact Harr].
    intros w0. now apply hash_digestible, Hd.
Qed.

End Accounting.

Lemma redaction_accounting_witness :
  (exists r w',
     @run_op exampleCrypto (SDObjectOps.pure exampleClaims)
       (OpProp ["given_name"] (exampleOptions None "2GLC42sKQveCfGfryNRN9w"))
       exampleWorld = (inr r, w')
     /\ exists digests staged,
          payload_sd (sdObject r)
          = payload_sd (sdObject (SDObjectOps.pure exampleClaims)) ++ digests
          /\ disclosures r = disclosures (SDObjectOps.pure exampleClaims) ++ staged
          /\ length digests = length staged
          /\ length staged = length ["given_name"])
  /\ (exists r w',
        @run_op exampleCrypto (SDObjectOps.pure exampleClaims)
          (OpArray "nationalities" [0%Z] (exampleOptions None "lklxF5jMYlGTPUovMNIvCA"))
          exampleWorld = (inr r, w')
        /\ exists xs added filled newArray,
             obj_read "nationalities" (sdObject (SDObjectOps.pure exampleClaims)) = VArr xs
             /\ length (payload_sd (sdObject r))
                = length (payload_sd (sdObject (SDObjectOps.pure exampleClaims)))
             /\ disclosures r = disclosures (SDObjectOps.pure exampleClaims) ++ added
             /\ length added = length (selected_positions [0%Z] 0 (length xs))
             /\ fillSDOptions (sdObject (SDObjectOps.pure exampleClaims))
                  (exampleOptions None "lklxF5jMYlGTPUovMNIvCA") = inr filled
             /\ ("nationalities" <> "_sd_alg" ->
                 obj_get "nationalities" (sdObject r) = Some (VArr newArray))
             /\ length newArray = length xs
             /\ (forall i, includes_index [0%Z] i = false ->
                           nth_error newArray i = nth_error xs i)
             /\ (forall k p,
                   nth_error (selected_positions [0%Z] 0 (length xs)) k = Some p ->
                   exists d digestBytes,
                     nth_error added k = Some d
                     /\ (forall w0, @hash exampleCrypto (Buffer_from d) (r_hashAlg filled) w0
                                    = (inr digestBytes, w0))
                     /\ nth_error newArray p
                        = Some (arrayElementDigest (base64url digestBytes)))).
Proof.
  split.
  - do 2 eexists. split; [vm_compute; reflexivity|].
    refine (@redaction_accounting exampleCrypto (SDObjectOps.pure exampleClaims)
              (OpProp ["given_name"] (exampleOptions None "2GLC42sKQveCfGfryNRN9w"))
              exampleWorld _ _ _ _).
    + vm_compute. reflexivity.
    + simpl. intros [E|[]]. discriminate E.
  - do 2 eexists. split; [vm_compute; reflexivity|].
    refine (@redaction_accounting exampleCrypto (SDObjectOps.pure exampleClaims)
              (OpArray "nationalities" [0%Z]
                 (exampleOptions None "lklxF5jMYlGTPUovMNIvCA"))
              exampleWorld _ _ _).
    vm_compute. reflexivity.
Defined.

(** C5 fails as stated: an [array] call that redacts one element appends one
    disclosure and adds no digest to [_sd]. *)
Lemma array_adds_no_digest_to_sd :
  exists r w',
    @SDObjectOps.array exampleCrypto (SDObjectOps.pure exampleClaims) "nationalities"
      [0%Z] (exampleOptions None "lklxF5jMYlGTPUovMNIvCA") exampleWorld = (inr r, w')
    /\ length (payload_sd (sdObject r))
       = length (payload_sd (sdObject (SDObjectOps.pure exampleClaims))) + 0
    /\ length (disclosures r)
       = length (disclosures (SDObjectOps.pure exampleClaims)) + 1.
Proof.
  do 2 eexists. split; [vm_compute; reflexivity|]. split; reflexivity.
Qed.

(** ** C6: what [prop] changes and what it leaves alone *)

Section PropFrame.

Context `{NodeCrypto}.

(** C6.  A [prop] call over claim names (names other than the two reserved
    keys) returns whenever its options are consistent with the payload and
    the digest step accepts the algorithm; and whatever it returns has
    exactly the named claims removed: every other claim reads as before, a
    declared algorithm stays declared, [_sd] is the previous collection
    followed by the new digests in the order of the names, and the
    disclosures are the previous ones followed by the new ones in that same
    order. *)
Theorem prop_frame (self : SDObject) (claimNames : list string)
    (options : DisclosureOpions) (w : World) :
  ~ In "_sd" claimNames -> ~ In "_sd_alg" claimNames ->
  (forall digest,
      ~ alg_conflict (payload_sd_alg (sdObject self)) (hashAlg options) ->
      digestible (effective_alg (payload_sd_alg (sdObject self)) (hashAlg options)) digest ->
      exists r w', SDObjectOps.prop self claimNames options w = (inr r, w'))
  /\ (forall r w',
        SDObjectOps.prop self claimNames options w = (inr r, w') ->
        exists filled sdClaims,
          fillSDOptions (sdObject self) options = inr filled
          /\ Forall2 (property_disclosure (sdObject self) filled) claimNames sdClaims
          /\ (forall k, In k claimNames -> obj_get k (sdObject r) = None)
          /\ (forall k, ~ In k claimNames -> k <> "_sd" -> k <> "_sd_alg" ->
                        obj_get k (sdObject r) = obj_get k (sdObject self))
          /\ (forall alg, payload_sd_alg (sdObject self) = Some alg ->
                          payload_sd_alg (sdObject r) = Some alg)
          /\ payload_sd (sdObject r)
             = payload_sd (sdObject self) ++ List.map VStr (List.map fst sdClaims)
          /\ disclosures r = disclosures self ++ List.map snd sdClaims).
Proof.
  intros Hsd Halg. split.
  - intros digest Hok Hd.
    destruct (fillSDOptions_returns (sdObject self) options Hok)
      as (filled & Hfilled & Heff).
    rewrite <- Heff in Hd.
    unfold SDObjectOps.prop.
    erewrite bind_inr by (unfold lift; rewrite Hfilled; reflexivity).
    edestruct (@mapM_total string string) as (staged & w1 & Hs);
      [|erewrite bind_inr by exact Hs].
    { intros claimName w0. unfold bind, call_createSalt.
      destruct (r_createSalt filled w0) as [saltBytes w1].
      do 2 eexists. reflexivity. }
    edestruct (@mapM_total string (string * string)) as (sdClaims & w2 & Hc);
      [|erewrite bind_inr by exact Hc].
    { intros disclosure w0. unfold bind. rewrite (hash_digestible Hd).
      do 2 eexists. reflexivity. }
    do 2 eexists. reflexivity.
  - intros r w' E.
    apply prop_success in E as (filled & sdClaims & Hfill & HF & ->).
    exists filled, sdClaims. simpl.
    split; [assumption|]. split; [assumption|].
    split; [|split; [|split; [|split]]].
    + intros k Hin. unfold prop_payload. now apply obj_get_delete_all_same.
    + intros k Hnot Hk1 Hk2. unfold prop_payload.
      rewrite obj_get_delete_all_other by assumption.
      now rewrite !obj_get_set_other by assumption.
    + intros alg Hdecl. unfold prop_payload, payload_sd_alg at 1.
      rewrite obj_get_delete_all_other by assumption.
      rewrite obj_get_set_same. rewrite SDHashAlg_of_name_name. f_equal.
      unfold fillSDOptions in Hfill. rewrite Hdecl in Hfill.
      destruct (hashAlg options) as [o|]; simpl in Hfill.
      * destruct (SDHashAlg_eqb alg o); simpl in Hfill; [|discriminate].
        now inversion Hfill.
      * now inversion Hfill.
    + now apply payload_sd_prop_payload.
    + reflexivity.
Qed.

End PropFrame.

Lemma prop_frame_witness :
  exists r w',
    @SDObjectOps.prop exampleCrypto (SDObjectOps.pure exampleClaims) ["given_name"]
      (exampleOptions None "2GLC42sKQveCfGfryNRN9w") exampleWorld = (inr r, w')
    /\ obj_get "given_name" (sdObject r) = None
    /\ obj_get "nationalities" (sdObject r) = obj_get "nationalities" exampleClaims
    /\ length (payload_sd (sdObject r)) = 1
    /\ disclosures r
       = ["WyIyR0xDNDJzS1F2ZUNmR2ZyeU5STjl3IiwgImdpdmVuX25hbWUiLCAiSm9obiJd"].
Proof.
  assert (Hsd : ~ In "_sd" ["given_name"]) by (intros [E|[]]; discriminate E).
  assert (Halg : ~ In "_sd_alg" ["given_name"]) by (intros [E|[]]; discriminate E).
  destruct (@prop_frame exampleCrypto (SDObjectOps.pure exampleClaims) ["given_name"]
              (exampleOptions None "2GLC42sKQveCfGfryNRN9w") exampleWorld Hsd Halg)
    as [Hreturns Hframe].
  destruct (Hreturns (fun data => firstn 4 (List.rev data))) as (r & w' & E).
  - intros (p & o & Hp & _). discriminate Hp.
  - exists "SHA256". split; reflexivity.
  - exists r, w'. split; [exact E|].
    destruct (Hframe r w' E)
      as (filled & sdClaims & _ & HF & Hgone & Hkept & _ & Hdigests & _).
    split; [apply Hgone; simpl; auto|].
    split; [apply Hkept; [intros [E'|[]]|discriminate|discriminate]; discriminate E'|].
    split.
    + rewrite Hdigests, length_app, !length_map.
      apply Forall2_length in HF. now rewrite <- HF.
    + vm_compute in E. inversion E. reflexivity.
Defined.

(** ** C7: the reserved keys along a chain *)

Section ReservedKeys.

Context `{NodeCrypto}.

Lemma run_op_sd_bound self op w r w' :
  run_op self op w = (inr r, w') ->
  length (payload_sd (sdObject r))
  <= length (payload_sd (sdObject self)) + redacted_properties [op].
Proof.
  destruct op as [claimNames options|claimName indices options]; simpl; intros E.
  - apply prop_success in E as (filled & sdClaims & _ & HF & ->). simpl.
    apply Forall2_length in HF.
    pose proof (payload_sd_prop_payload_le (sdObject self) filled claimNames
                  (List.map fst sdClaims)) as Hle.
    rewrite length_map in Hle. lia.
  - apply array_success in E as (filled & xs & res & _ & Hread & Hres & ->). simpl.
    apply sdArray_success in Hres as [digest R].
    apply redact_from_length in R as [Hlen _].
    rewrite payload_sd_frame by discriminate.
    rewrite (@payload_sd_array (sdObject self) claimName xs (sdArray_of res) Hread Hlen). lia.
Qed.

(** Along a chain, [_sd] holds at most one digest per property the chain
    asked [prop] to redact. *)
Lemma run_chain_sd_bound ops : forall self w r w',
  run_chain self ops w = (inr r, w') ->
  length (payload_sd (sdObject r))
  <= length (payload_sd (sdObject self)) + redacted_properties ops.
Proof.
  induction ops as [|op ops IH]; simpl; intros self w r w' E.
  - inversion E. lia.
  - apply bind_success in E as (next & w1 & Hop & E).
    apply IH in E. apply run_op_sd_bound in Hop. simpl in Hop.
    destruct op; simpl in *; lia.
Qed.

(** C7, as the code has it.  Lifting a plain object that carries no
    algorithm identifier yields a payload without one, and with a digest
    collection that is present and empty.  Along a chain of [prop] and
    [array] calls from there, the digest collection is non-empty only if a
    property has been redacted, and an algorithm is declared only if a call
    has been made. *)
Theorem reserved_keys_along_chain (object : Obj) (ops : list Op) (w : World)
    (r : SDObject) (w' : World) :
  obj_get "_sd_alg" object = None ->
  run_chain (SDObjectOps.pure object) ops w = (inr r, w') ->
  obj_get "_sd_alg" (sdObject (SDObjectOps.pure object)) = None
  /\ obj_get "_sd" (sdObject (SDObjectOps.pure object)) = Some (VArr [])
  /\ (payload_sd (sdObject r) <> [] -> 0 < redacted_properties ops)
  /\ (payload_sd_alg (sdObject r) <> None -> ops <> []).
Proof.
  intros Hplain E. unfold SDObjectOps.pure in *. simpl in *.
  split; [now rewrite obj_get_set_other by discriminate|].
  split; [apply obj_get_set_same|]. split.
  - intros Hne. apply run_chain_sd_bound in E. simpl in E.
    rewrite payload_sd_set in E. simpl in E.
    destruct (payload_sd (sdObject r)); [congruence|simpl in E; lia].
  - intros Hdecl ->. simpl in E. inversion E; subst. apply Hdecl. simpl.
    unfold payload_sd_alg. rewrite obj_get_set_other by discriminate.
    now rewrite Hplain.
Qed.

End ReservedKeys.

Lemma reserved_keys_along_chain_witness :
  exists r w',
    @run_chain exampleCrypto (SDObjectOps.pure exampleClaims)
      [OpProp ["given_name"] (exampleOptions None "2GLC42sKQveCfGfryNRN9w")]
      exampleWorld = (inr r, w')
    /\ obj_get "_sd_alg" (sdObject (SDObjectOps.pure exampleClaims)) = None
    /\ obj_get "_sd" (sdObject (SDObjectOps.pure exampleClaims)) = Some (VArr [])
    /\ (payload_sd (sdObject r) <> [] ->
        0 < redacted_properties
              [OpProp ["given_name"] (exampleOptions None "2GLC42sKQveCfGfryNRN9w")])
    /\ (payload_sd_alg (sdObject r) <> None ->
        [OpProp ["given_name"] (exampleOptions None "2GLC42sKQveCfGfryNRN9w")] <> []).
Proof.
  do 2 eexists. split; [vm_compute; reflexivity|].
  refine (@reserved_keys_along_chain exampleCrypto exampleClaims _ exampleWorld _ _ _ _).
  - reflexivity.
  - vm_compute. reflexivity.
Defined.

(** C7 fails as stated: the value lifted from the empty object already has
    the digest collection key. *)
Lemma pure_has_sd_key :
  obj_get "_sd" (sdObject (SDObjectOps.pure [])) = Some (VArr []).
Proof. reflexivity. Qed.

(** ** base64url: decoding an encoding *)

Module Base64urlFacts.

Import Base64url.

Lemma sextet_of_char_of_sextet n :
  n < 64 -> sextet_of_char (char_of_sextet n) = Some n.
Proof.
  intros Hn.
  do 64 (destruct n as [|n]; [reflexivity|]). lia.
Qed.

Lemma sextets_of_string_chars ss :
  Forall (fun n => n < 64) ss ->
  sextets_of_string (string_of_list_ascii (List.map char_of_sextet ss)) = ss.
Proof.
  induction 1 as [|n ss Hn _ IH]; simpl; auto.
  now rewrite sextet_of_char_of_sextet, IH.
Qed.

Lemma list_ind3 {A} (P : list A -> Prop) :
  P [] -> (forall a, P [a]) -> (forall a b, P [a; b]) ->
  (forall a b c l, P l -> P (a :: b :: c :: l)) ->
  forall l, P l.
Proof.
  intros H0 H1 H2 H3 l.
  enough (P l /\ (forall a, P (a :: l)) /\ (forall a b, P (a :: b :: l))) by tauto.
  induction l as [|x l (IH0 & IH1 & IH2)]; auto.
Qed.

(** Two digits in base [k] packed into one number, and unpacked. *)
Lemma pack_div x y k : y < k -> (x * k + y) / k = x.
Proof.
  intros Hy. symmetry. apply Nat.div_unique with (r := y); lia.
Qed.

Lemma pack_mod x y k : y < k -> (x * k + y) mod k = y.
Proof.
  intros Hy. symmetry. apply Nat.mod_unique with (q := x); lia.
Qed.

Lemma div_bound a k q : 0 < k -> a < k * q -> a / k < q.
Proof. intros Hk Ha. apply Nat.Div0.div_lt_upper_bound. exact Ha. Qed.

Lemma unpack a k : 0 < k -> (a / k) * k + a mod k = a.
Proof. intros Hk. pose proof (Nat.div_mod_eq a k). lia. Qed.

Lemma group1_bound a : a < 256 -> group1 a < 64.
Proof. intros. apply div_bound; lia. Qed.

Lemma group2_bound a b : b < 256 -> group2 a b < 64.
Proof.
  intros. unfold group2. pose proof (Nat.mod_upper_bound a 4).
  assert (b / 16 < 16) by (apply div_bound; lia). lia.
Qed.

Lemma group3_bound b c : c < 256 -> group3 b c < 64.
Proof.
  intros. unfold group3. pose proof (Nat.mod_upper_bound b 16).
  assert (c / 64 < 4) by (apply div_bound; lia). lia.
Qed.

Lemma group4_bound c : group4 c < 64.
Proof. apply Nat.mod_upper_bound. lia. Qed.

Lemma first_octet a b : b < 256 -> group1 a * 4 + group2 a b / 16 = a.
Proof.
  intros. unfold group1, group2. rewrite pack_div by (apply div_bound; lia).
  apply unpack. lia.
Qed.

Lemma second_octet a b c : b < 256 -> c < 256 -> (group2 a b mod 16) * 16 + group3 b c / 4 = b.
Proof.
  intros. unfold group2, group3.
  rewrite pack_mod by (apply div_bound; lia).
  rewrite pack_div by (apply div_bound; lia).
  apply unpack. lia.
Qed.

Lemma third_octet b c : c < 256 -> (group3 b c mod 4) * 64 + group4 c = c.
Proof.
  intros. unfold group3, group4. rewrite pack_mod by (apply div_bound; lia).
  apply unpack. lia.
Qed.

Lemma sextets_of_bytes_unfold3 a b c rest :
  sextets_of_bytes (a :: b :: c :: rest)
  = group1 a :: group2 a b :: group3 b c :: group4 c :: sextets_of_bytes rest.
Proof. reflexivity. Qed.

Lemma sextets_of_bytes_bound bs :
  Forall (fun b => b < 256) bs -> Forall (fun n => n < 64) (sextets_of_bytes bs).
Proof.
  induction bs as [| a | a b | a b c bs IH] using list_ind3; intros Hb.
  - constructor.
  - inversion Hb; subst.
    change (sextets_of_bytes [a]) with [group1 a; (a mod 4) * 16].
    pose proof (Nat.mod_upper_bound a 4).
    constructor; [apply group1_bound; lia|].
    constructor; [lia|]. constructor.
  - inversion Hb as [|? ? Ha Hb']; subst. inversion Hb' as [|? ? Hb0 _]; subst.
    change (sextets_of_bytes [a; b]) with [group1 a; group2 a b; (b mod 16) * 4].
    pose proof (Nat.mod_upper_bound b 16).
    constructor; [apply group1_bound; lia|].
    constructor; [apply group2_bound; lia|].
    constructor; [lia|]. constructor.
  - inversion Hb as [|? ? Ha Hb']; subst. inversion Hb' as [|? ? Hb0 Hb'']; subst.
    inversion Hb'' as [|? ? Hc Hrest]; subst.
    rewrite sextets_of_bytes_unfold3.
    constructor; [apply group1_bound; lia|].
    constructor; [apply group2_bound; lia|].
    constructor; [apply group3_bound; lia|].
    constructor; [apply group4_bound|]. auto.
Qed.

Lemma bytes_of_sextets_of_bytes bs :
  Forall (fun b => b < 256) bs -> bytes_of_sextets (sextets_of_bytes bs) = bs.
Proof.
  induction bs as [| a | a b | a b c bs IH] using list_ind3; intros Hb.
  - reflexivity.
  - change (bytes_of_sextets (sextets_of_bytes [a]))
      with [a / 4 * 4 + (a mod 4) * 16 / 16].
    rewrite Nat.div_mul by lia. now rewrite unpack by lia.
  - inversion Hb as [|? ? Ha Hb']; subst. inversion Hb' as [|? ? Hb0 _]; subst.
    change (bytes_of_sextets (sextets_of_bytes [a; b]))
      with [group1 a * 4 + group2 a b / 16; (group2 a b mod 16) * 16 + (b mod 16) * 4 / 4].
    rewrite first_octet by lia. unfold group2.
    rewrite pack_mod by (apply div_bound; lia).
    rewrite Nat.div_mul by lia. now rewrite unpack by lia.
  - inversion Hb as [|? ? Ha Hb']; subst. inversion Hb' as [|? ? Hb0 Hb'']; subst.
    inversion Hb'' as [|? ? Hc Hrest]; subst.
    rewrite sextets_of_bytes_unfold3.
    change (bytes_of_sextets (group1 a :: group2 a b :: group3 b c :: group4 c :: sextets_of_bytes bs))
      with (group1 a * 4 + group2 a b / 16 :: (group2 a b mod 16) * 16 + group3 b c / 4
              :: (group3 b c mod 4) * 64 + group4 c :: bytes_of_sextets (sextets_of_bytes bs)).
    now rewrite first_octet, second_octet, third_octet, IH by auto.
Qed.

Lemma octets_bound (b : Buffer) : Forall (fun n => n < 256) (List.map nat_of_ascii b).
Proof.
  induction b; simpl; constructor; auto using nat_ascii_bounded.
Qed.

Lemma octets_back (b : Buffer) : List.map ascii_of_nat (List.map nat_of_ascii b) = b.
Proof.
  induction b; simpl; f_equal; auto using ascii_nat_embedding.
Qed.

(** [base64url.toBuffer(base64url(buffer))] is [buffer]. *)
Lemma toBuffer_encode_buffer (b : Buffer) : toBuffer (encode_buffer b) = b.
Proof.
  unfold toBuffer, encode_buffer.
  rewrite sextets_of_string_chars by (apply sextets_of_bytes_bound, octets_bound).
  rewrite bytes_of_sextets_of_bytes by apply octets_bound.
  apply octets_back.
Qed.

(** [base64url.decode(base64url.encode(text))] is [text]. *)
Lemma decode_encode (s : string) : decode (encode s) = s.
Proof.
  unfold decode, encode, Buffer_toString, Buffer_from.
  rewrite toBuffer_encode_buffer. apply string_of_list_ascii_of_string.
Qed.

End Base64urlFacts.

(** ** JSON: parsing a serialization *)

Module JSONFacts.

Import JSON.
Local Open Scope string_scope.

Lemma append_assoc (a b c : string) : (a ++ b) ++ c = a ++ (b ++ c).
Proof. induction a; simpl; congruence. Qed.

Lemma append_nil_r (a : string) : a ++ "" = a.
Proof. induction a; simpl; congruence. Qed.

Lemma length_append (a b : string) :
  String.length (a ++ b) = String.length a + String.length b.
Proof. induction a; simpl; congruence. Qed.

(** *** Strings *)

Lemma parse_escape_char c t :
  parse_string_body (escape_char c ++ t) = prepend (String c "") (parse_string_body t).
Proof.
  destruct c as [[] [] [] [] [] [] [] []]; reflexivity.
Qed.

Lemma parse_string_body_escape s rest :
  parse_string_body (escape s ++ String dquote rest) = Some (s, rest).
Proof.
  induction s as [|c s IH]; simpl.
  - reflexivity.
  - now rewrite append_assoc, parse_escape_char, IH.
Qed.

Lemma quote_append s rest :
  quote s ++ rest = String dquote (escape s ++ String dquote rest).
Proof. unfold quote. simpl. now rewrite append_assoc. Qed.

(** *** Numbers *)

Lemma read_uint_digits u rest :
  ends_number rest = true ->
  read_uint (NilEmpty.string_of_uint u ++ rest) = (u, rest).
Proof.
  intros Hrest.
  induction u; simpl; try (rewrite IHu; reflexivity).
  destruct rest as [|c rest]; simpl in *; auto.
  destruct (digit_of_char c); [discriminate|reflexivity].
Qed.

Lemma to_uint_normal n : unorm (N.to_uint n) = N.to_uint n.
Proof. now rewrite <- Unsigned.to_of, Unsigned.of_to. Qed.

Lemma to_uint_not_nil n : N.to_uint n <> Nil.
Proof.
  rewrite <- to_uint_normal. unfold unorm.
  destruct (nzhead (N.to_uint n)); discriminate.
Qed.

Lemma to_uint_leading_zero n u : N.to_uint n = D0 u -> u = Nil /\ n = 0%N.
Proof.
  intros E. pose proof (to_uint_normal n) as Hn. rewrite E in Hn.
  unfold unorm in Hn. destruct (nzhead (D0 u)) eqn:Hz; try discriminate.
  - inversion Hn; subst. split; auto.
    rewrite <- (Unsigned.of_to n), E. reflexivity.
  - exfalso. eapply nzhead_nonzero. exact Hz.
Qed.

Lemma parse_N_string_of_N n rest :
  ends_number rest = true ->
  parse_N (string_of_N n ++ rest) = Some (n, rest).
Proof.
  intros Hrest. unfold parse_N, string_of_N.
  rewrite read_uint_digits by assumption.
  pose proof (to_uint_not_nil n) as Hnil.
  pose proof (Unsigned.of_to n) as Hof.
  destruct (N.to_uint n) as [|u|u|u|u|u|u|u|u|u|u] eqn:E;
    try congruence; rewrite ?Hrest; try (now rewrite Hof).
  apply to_uint_leading_zero in E as [-> ->]. reflexivity.
Qed.

Lemma string_of_N_start n :
  exists c t, string_of_N n = String c t /\ digit_of_char c <> None.
Proof.
  unfold string_of_N. pose proof (to_uint_not_nil n) as Hnil.
  destruct (N.to_uint n); try congruence; simpl; do 2 eexists; split;
    try reflexivity; discriminate.
Qed.

Lemma parse_number_string_of_Z z rest :
  ends_number rest = true ->
  parse_number (string_of_Z z ++ rest) = Some (VNum z, rest).
Proof.
  intros Hrest. destruct z as [|p|p]; unfold string_of_Z.
  - pose proof (parse_N_string_of_N 0 rest Hrest) as HP.
    change (string_of_N 0 ++ rest) with (String "0" rest) in HP.
    change ("0" ++ rest) with (String "0" rest).
    unfold parse_number. cbv beta iota. now rewrite HP.
  - destruct (string_of_N_start (Npos p)) as (c & t & E & Hc).
    pose proof (parse_N_string_of_N (Npos p) rest Hrest) as HP.
    rewrite E in *. change (String c t ++ rest) with (String c (t ++ rest)) in *.
    unfold parse_number.
    destruct c as [[] [] [] [] [] [] [] []]; try (now rewrite HP);
      exfalso; apply Hc; reflexivity.
  - change (("-" ++ string_of_N (Npos p)) ++ rest)
      with (String "-" (string_of_N (Npos p) ++ rest)).
    unfold parse_number. cbv beta iota.
    now rewrite (parse_N_string_of_N (Npos p) rest Hrest).
Qed.

(** *** Values *)

Lemma Value_nested_ind (P : Value -> Prop) :
  P VUndefined -> P VNull -> (forall b, P (VBool b)) -> (forall n, P (VNum n)) ->
  (forall s, P (VStr s)) ->
  (forall elems, Forall P elems -> P (VArr elems)) ->
  (forall props, Forall (fun kv => P (snd kv)) props -> P (VObj props)) ->
  forall v, P v.
Proof.
  intros HU HN HB HZ HS HA HO. fix IH 1.
  intros [| |b|n|s|elems|props];
    [exact HU|exact HN|apply HB|apply HZ|apply HS| | ].
  - apply HA. induction elems as [|e elems IHl]; constructor; [apply IH|apply IHl].
  - apply HO. induction props as [|[k e] props IHl]; constructor; [apply IH|apply IHl].
Qed.

Lemma stringify_arr elems :
  stringify (VArr elems) = "[" ++ String.concat "," (List.map elem_text elems) ++ "]".
Proof. reflexivity. Qed.

Lemma stringify_obj props :
  stringify (VObj props) = "{" ++ String.concat "," (flat_map member_texts props) ++ "}".
Proof. reflexivity. Qed.

Lemma elem_text_stringify e : json_value e = true -> elem_text e = stringify e.
Proof. destruct e; simpl; try discriminate; reflexivity. Qed.

Lemma member_texts_json props :
  forallb (fun kv => json_value (snd kv)) props = true ->
  flat_map member_texts props = List.map member_text props.
Proof.
  induction props as [|[k e] props IH]; simpl; auto.
  intros Hj. apply andb_true_iff in Hj as [He Hrest].
  rewrite IH by assumption. unfold member_texts, member_text, stringify. simpl.
  destruct e; simpl in *; try discriminate; reflexivity.
Qed.

Lemma digit_value_start c : digit_of_char c <> None -> value_start c = true.
Proof.
  destruct c as [[] [] [] [] [] [] [] []]; intros Hc; try reflexivity;
    exfalso; apply Hc; reflexivity.
Qed.

Lemma stringify_start v :
  json_value v = true ->
  exists c t, stringify v = String c t /\ value_start c = true.
Proof.
  destruct v as [| |[]|[|p|p]|s|elems|props]; simpl; try discriminate; intros _;
    try (do 2 eexists; split; [reflexivity|reflexivity]).
  destruct (string_of_N_start (Npos p)) as (c & t & E & Hc).
  exists c, t. split; [exact E|]. now apply digit_value_start.
Qed.

Lemma skip_ws_start c t : value_start c = true -> skip_ws (String c t) = String c t.
Proof.
  unfold value_start. intros Hc. simpl. destruct (is_ws c); [discriminate|reflexivity].
Qed.

(** The equations of the parser, one per leading character. *)

Lemma parse_value_array fuel r :
  parse_value (S fuel) (String "[" r)
  = match skip_ws r with
    | String c' r' =>
        if Ascii.eqb c' "]" then Some (VArr [], r')
        else match parse_elems fuel (String c' r') with
             | Some (vs, r'') => Some (VArr vs, r'')
             | None => None
             end
    | EmptyString => None
    end.
Proof. reflexivity. Qed.

Lemma parse_value_object fuel r :
  parse_value (S fuel) (String "{" r)
  = match skip_ws r with
    | String c' r' =>
        if Ascii.eqb c' "}" then Some (VObj [], r')
        else match parse_members fuel (String c' r') with
             | Some (ms, r'') => Some (VObj (object_of_members ms), r'')
             | None => None
             end
    | EmptyString => None
    end.
Proof. reflexivity. Qed.

Lemma parse_value_string fuel r :
  parse_value (S fuel) (String dquote r)
  = match parse_string_body r with
    | Some (str, r') => Some (VStr str, r')
    | None => None
    end.
Proof. reflexivity. Qed.

Lemma parse_value_number fuel c r :
  number_start c = true ->
  parse_value (S fuel) (String c r) = parse_number (String c r).
Proof.
  destruct c as [[] [] [] [] [] [] [] []]; intros Hc; try discriminate Hc; reflexivity.
Qed.

Lemma parse_elems_step fuel s :
  parse_elems (S fuel) s
  = match parse_value fuel s with
    | Some (v, r) =>
        match skip_ws r with
        | String c r' =>
            if Ascii.eqb c "," then
              match parse_elems fuel r' with
              | Some (vs, r'') => Some (v :: vs, r'')
              | None => None
              end
            else if Ascii.eqb c "]" then Some ([v], r')
            else None
        | EmptyString => None
        end
    | None => None
    end.
Proof. reflexivity. Qed.

Lemma parse_members_step fuel r :
  parse_members (S fuel) (String dquote r)
  = match parse_string_body r with
    | Some (k, r1) =>
        match skip_ws r1 with
        | String c r2 =>
            if Ascii.eqb c ":" then
              match parse_value fuel r2 with
              | Some (v, r3) =>
                  match skip_ws r3 with
                  | String c' r4 =>
                      if Ascii.eqb c' "," then
                        match parse_members fuel r4 with
                        | Some (ms, r5) => Some ((k, v) :: ms, r5)
                        | None => None
                        end
                      else if Ascii.eqb c' "}" then Some ([(k, v)], r4)
                      else None
                  | EmptyString => None
                  end
              | None => None
              end
            else None
        | EmptyString => None
        end
    | None => None
    end.
Proof. reflexivity. Qed.

(** *** The round trip *)

Lemma concat_cons2 sep x y l :
  String.concat sep (x :: y :: l) = x ++ sep ++ String.concat sep (y :: l).
Proof. reflexivity. Qed.

Lemma parse_elems_texts elems :
  elems <> [] -> Forall parses elems -> forallb json_value elems = true ->
  forall fuel rest,
    String.length (String.concat "," (List.map elem_text elems)) + 2 <= fuel ->
    parse_elems fuel (String.concat "," (List.map elem_text elems) ++ String "]" rest)
    = Some (elems, rest).
Proof.
  induction elems as [|e es IH]; [congruence|].
  intros _ HF Hj fuel rest Hfuel.
  inversion HF as [|? ? He Hes]; subst.
  simpl in Hj. apply andb_true_iff in Hj as [Hje Hjes].
  destruct fuel as [|fuel]; [lia|]. rewrite parse_elems_step.
  destruct es as [|e' es'].
  - simpl in *. rewrite elem_text_stringify in * by assumption.
    rewrite (He fuel (String "]" rest) ltac:(lia) eq_refl). reflexivity.
  - set (C := String.concat "," (List.map elem_text (e' :: es'))) in *.
    change (String.concat "," (List.map elem_text (e :: e' :: es')))
      with (elem_text e ++ "," ++ C) in *.
    rewrite !length_append in Hfuel. change (String.length ",") with 1 in Hfuel.
    rewrite !append_assoc.
    change ("," ++ C ++ String "]" rest) with (String "," (C ++ String "]" rest)).
    rewrite elem_text_stringify in * by assumption.
    rewrite (He fuel (String "," (C ++ String "]" rest)) ltac:(lia) eq_refl).
    change (skip_ws (String "," (C ++ String "]" rest)))
      with (String "," (C ++ String "]" rest)).
    cbv beta iota. change (Ascii.eqb "," ",") with true. cbv beta iota.
    rewrite IH; auto; try discriminate. lia.
Qed.

Lemma member_text_append k v tail :
  member_text (k, v) ++ tail
  = String dquote (escape k ++ String dquote (String ":" (stringify v ++ tail))).
Proof.
  unfold member_text. simpl fst. simpl snd.
  rewrite append_assoc, quote_append. reflexivity.
Qed.

Lemma length_member_text k v :
  String.length (member_text (k, v))
  = String.length (quote k) + S (String.length (stringify v)).
Proof. unfold member_text. simpl fst. simpl snd. now rewrite length_append. Qed.

Lemma parse_members_texts props :
  props <> [] -> Forall (fun kv => parses (snd kv)) props ->
  forall fuel rest,
    String.length (String.concat "," (List.map member_text props)) + 2 <= fuel ->
    parse_members fuel (String.concat "," (List.map member_text props) ++ String "}" rest)
    = Some (props, rest).
Proof.
  induction props as [|[k v] ps IH]; [congruence|].
  intros _ HF fuel rest Hfuel.
  inversion HF as [|? ? Hv Hps]; subst. simpl in Hv.
  destruct fuel as [|fuel]; [lia|].
  destruct ps as [|kv' ps'].
  - change (String.concat "," (List.map member_text [(k, v)]))
      with (member_text (k, v)) in *.
    rewrite length_member_text in Hfuel.
    rewrite member_text_append, parse_members_step, parse_string_body_escape.
    change (skip_ws (String ":" (stringify v ++ String "}" rest)))
      with (String ":" (stringify v ++ String "}" rest)).
    cbv beta iota. change (Ascii.eqb ":" ":") with true. cbv beta iota.
    rewrite (Hv fuel (String "}" rest) ltac:(lia) eq_refl). reflexivity.
  - set (C := String.concat "," (List.map member_text (kv' :: ps'))) in *.
    change (String.concat "," (List.map member_text ((k, v) :: kv' :: ps')))
      with (member_text (k, v) ++ "," ++ C) in *.
    rewrite !length_append, length_member_text in Hfuel.
    change (String.length ",") with 1 in Hfuel.
    rewrite append_assoc, member_text_append.
    rewrite parse_members_step, parse_string_body_escape.
    change (("," ++ C) ++ String "}" rest) with (String "," (C ++ String "}" rest)).
    change (skip_ws (String ":" (stringify v ++ String "," (C ++ String "}" rest))))
      with (String ":" (stringify v ++ String "," (C ++ String "}" rest))).
    cbv beta iota. change (Ascii.eqb ":" ":") with true. cbv beta iota.
    rewrite (Hv fuel (String "," (C ++ String "}" rest)) ltac:(lia) eq_refl).
    change (skip_ws (String "," (C ++ String "}" rest)))
      with (String "," (C ++ String "}" rest)).
    cbv beta iota. change (Ascii.eqb "," ",") with true. cbv beta iota.
    rewrite IH; auto; try discriminate. lia.
Qed.

(** Creating the properties of an object with distinct keys, in order,
    gives the object. *)
Lemma obj_set_fresh k v o : obj_get k o = None -> obj_set k v o = (o ++ [(k, v)])%list.
Proof.
  induction o as [|[k' v'] o IH]; simpl; auto.
  destruct (String.eqb k k'); [discriminate|]. intros Hn. now rewrite IH.
Qed.

Lemma obj_get_app_fresh k k' v o :
  obj_get k o = None -> String.eqb k k' = false -> obj_get k (o ++ [(k', v)])%list = None.
Proof.
  intros Hn Hne. induction o as [|[k0 v0] o IH]; simpl in *.
  - now rewrite Hne.
  - destruct (String.eqb k k0); [discriminate|auto].
Qed.

Lemma object_of_members_distinct ms : forall acc,
  distinct (List.map fst ms) = true ->
  (forall k, In k (List.map fst ms) -> obj_get k acc = None) ->
  fold_left (fun o kv => obj_set (fst kv) (snd kv) o) ms acc = (acc ++ ms)%list.
Proof.
  induction ms as [|[k v] ms IH]; simpl; intros acc Hd Hfresh.
  - now rewrite List.app_nil_r.
  - apply andb_true_iff in Hd as [Hk Hd]. apply negb_true_iff in Hk.
    rewrite obj_set_fresh by auto. rewrite IH; auto.
    + now rewrite <- List.app_assoc.
    + intros k' Hin. apply obj_get_app_fresh; auto.
      destruct (String.eqb k' k) eqn:E; auto.
      apply String.eqb_eq in E. subst k'.
      assert (Hex : existsb (String.eqb k) (List.map fst ms) = true).
      { apply existsb_exists. exists k. split; auto. apply String.eqb_refl. }
      congruence.
Qed.

Lemma string_of_Z_start z :
  exists c t, string_of_Z z = String c t /\ number_start c = true.
Proof.
  destruct z as [|p|p]; simpl.
  - do 2 eexists. split; reflexivity.
  - destruct (string_of_N_start (Npos p)) as (c & t & E & Hc).
    exists c, t. split; auto. unfold number_start.
    destruct (digit_of_char c); congruence.
  - do 2 eexists. split; reflexivity.
Qed.

(** Every JSON value parses back from its serialization. *)
Theorem parse_value_stringify v : json_value v = true -> parses v.
Proof.
  induction v as [| |b|z|s|elems IH|props IH] using Value_nested_ind;
    intros Hj fuel rest Hfuel Hrest; try discriminate Hj;
    (destruct fuel as [|fuel]; [lia|]).
  - reflexivity.
  - destruct b; reflexivity.
  - destruct (string_of_Z_start z) as (c & t & E & Hc).
    change (stringify (VNum z)) with (string_of_Z z) in *.
    rewrite <- (parse_number_string_of_Z z rest Hrest).
    rewrite E. now apply parse_value_number.
  - change (stringify (VStr s)) with (quote s).
    now rewrite quote_append, parse_value_string, parse_string_body_escape.
  - simpl in Hj. rewrite stringify_arr in *.
    change (String.length ("[" ++ String.concat "," (List.map elem_text elems) ++ "]"))
      with (S (String.length (String.concat "," (List.map elem_text elems) ++ "]")))
      in Hfuel.
    rewrite length_append in Hfuel. change (String.length "]") with 1 in Hfuel.
    change (("[" ++ String.concat "," (List.map elem_text elems) ++ "]") ++ rest)
      with (String "[" ((String.concat "," (List.map elem_text elems) ++ "]") ++ rest)).
    rewrite append_assoc.
    change ("]" ++ rest) with (String "]" rest).
    rewrite parse_value_array.
    destruct elems as [|e es]; [reflexivity|].
    assert (HP : Forall parses (e :: es)).
    { apply Forall_forall. intros x Hx. rewrite Forall_forall in IH.
      apply IH; auto. rewrite forallb_forall in Hj. auto. }
    pose proof (@parse_elems_texts (e :: es) ltac:(discriminate) HP Hj fuel rest) as HE.
    specialize (HE ltac:(lia)).
    assert (Hs : exists c t,
               String.concat "," (List.map elem_text (e :: es)) ++ String "]" rest
               = String c t /\ value_start c = true).
    { simpl in Hj. apply andb_true_iff in Hj as [Hje _].
      destruct (stringify_start e Hje) as (c & t & E & Hc).
      rewrite <- elem_text_stringify in E by assumption.
      destruct es; simpl; rewrite E; simpl; eauto. }
    destruct Hs as (c & t & Es & Hc). rewrite Es in *.
    rewrite (@skip_ws_start c t Hc).
    unfold value_start in Hc. apply andb_true_iff in Hc as [Hc _].
    apply andb_true_iff in Hc as [_ Hc]. apply negb_true_iff in Hc.
    rewrite Hc, HE. reflexivity.
  - simpl in Hj. apply andb_true_iff in Hj as [Hd Hj].
    rewrite stringify_obj in *. rewrite member_texts_json in * by assumption.
    change (String.length ("{" ++ String.concat "," (List.map member_text props) ++ "}"))
      with (S (String.length (String.concat "," (List.map member_text props) ++ "}")))
      in Hfuel.
    rewrite length_append in Hfuel. change (String.length "}") with 1 in Hfuel.
    change (("{" ++ String.concat "," (List.map member_text props) ++ "}") ++ rest)
      with (String "{" ((String.concat "," (List.map member_text props) ++ "}") ++ rest)).
    rewrite append_assoc.
    change ("}" ++ rest) with (String "}" rest).
    rewrite parse_value_object.
    destruct props as [|[k v] ps]; [reflexivity|].
    assert (HP : Forall (fun kv => parses (snd kv)) ((k, v) :: ps)).
    { apply Forall_forall. intros x Hx. rewrite Forall_forall in IH.
      apply IH; auto. rewrite forallb_forall in Hj. auto. }
    pose proof (@parse_members_texts ((k, v) :: ps) ltac:(discriminate) HP fuel rest) as HE.
    specialize (HE ltac:(lia)).
    assert (Hs : exists t,
               String.concat "," (List.map member_text ((k, v) :: ps)) ++ String "}" rest
               = String dquote t).
    { destruct ps; simpl; eauto. }
    destruct Hs as (t & Es). rewrite Es in *.
    change (skip_ws (String dquote t)) with (String dquote t). cbv beta iota.
    change (Ascii.eqb dquote "}") with false. cbv beta iota.
    rewrite HE. unfold object_of_members.
    rewrite object_of_members_distinct; auto.
Qed.

(** [JSON.parse(JSON.stringify(v))] is [v] for every JSON value. *)
Theorem parse_stringify v : json_value v = true -> parse (stringify v) = Some v.
Proof.
  intros Hj. unfold parse.
  pose proof (@parse_value_stringify v Hj (S (String.length (stringify v))) ""
                ltac:(lia) eq_refl) as HP.
  rewrite append_nil_r in HP. now rewrite HP.
Qed.

End JSONFacts.

(** ** C9: decoding a disclosure *)

(** C9, for the values JSON represents.  Decoding a property disclosure made
    with the default serializer and parsing the text gives back
    [[salt, claimName, value]], and decoding and parsing an array-element
    disclosure gives back [[salt, value]]. *)
Theorem disclosure_roundtrip (salt claimName : string) (value : Value) :
  json_value value = true ->
  JSON.parse (Base64url.decode
                (disclosureForObjectProps salt claimName value JSON.stringify))
  = Some (VArr [VStr salt; VStr claimName; value])
  /\ JSON.parse (Base64url.decode
                   (disclosureForArrayElement salt value JSON.stringify))
     = Some (VArr [VStr salt; value]).
Proof.
  intros Hj. unfold disclosureForObjectProps, disclosureForArrayElement.
  rewrite !Base64urlFacts.decode_encode.
  split; apply JSONFacts.parse_stringify; simpl; now rewrite Hj.
Qed.

Lemma disclosure_roundtrip_witness :
  JSON.parse (Base64url.decode
                (disclosureForObjectProps "_26bc4LT-ac6q2KI6cBW5es" "family_name"
                   (VStr "Möbius") JSON.stringify))
  = Some (VArr [VStr "_26bc4LT-ac6q2KI6cBW5es"; VStr "family_name"; VStr "Möbius"])
  /\ JSON.parse (Base64url.decode
                   (disclosureForArrayElement "_26bc4LT-ac6q2KI6cBW5es"
                      (VStr "Möbius") JSON.stringify))
     = Some (VArr [VStr "_26bc4LT-ac6q2KI6cBW5es"; VStr "Möbius"]).
Proof.
  apply (@disclosure_roundtrip "_26bc4LT-ac6q2KI6cBW5es" "family_name" (VStr "Möbius")).
  reflexivity.
Defined.

(** C9 fails as stated: the disclosure of a claim whose value is [undefined]
    (what [prop] reads for a name the payload does not have) decodes to a
    tuple that holds [null] in its place. *)
Lemma disclosure_of_undefined_reads_null :
  JSON.parse (Base64url.decode
                (disclosureForObjectProps "c2FsdA" "nickname" VUndefined JSON.stringify))
  = Some (VArr [VStr "c2FsdA"; VStr "nickname"; VNull])
  /\ JSON.parse (Base64url.decode
                   (disclosureForObjectProps "c2FsdA" "nickname" VUndefined JSON.stringify))
     <> Some (VArr [VStr "c2FsdA"; VStr "nickname"; VUndefined]).
Proof.
  assert (E : JSON.parse (Base64url.decode
                (disclosureForObjectProps "c2FsdA" "nickname" VUndefined JSON.stringify))
              = Some (VArr [VStr "c2FsdA"; VStr "nickname"; VNull]))
    by (vm_compute; reflexivity).
  split; [exact E|]. rewrite E. discriminate.
Qed.

(* ================================================================= *)
(** * Further properties of the code *)

(** ** hash.ts *)

(** X1.  [translateHashAlg] throws exactly for the two k12 identifiers, with
    the unsupported-algorithm error that names the identifier, and on the
    identifiers it accepts it is injective: no two identifiers are digested
    under the same OpenSSL name. *)
Theorem translateHashAlg_names (a b : SDHashAlg) :
  ((exists e, translateHashAlg a = inl e) <-> a = k12_256 \/ a = k12_512)
  /\ (forall e, translateHashAlg a = inl e -> e = UnsupportedHashAlg (SDHashAlg_name a))
  /\ (forall name, translateHashAlg a = inr name -> translateHashAlg b = inr name -> a = b).
Proof.
  split; [|split].
  - split.
    + intros [e He]. destruct a; try discriminate He; auto.
    + intros [-> | ->]; eexists; reflexivity.
  - intros e He. destruct a; try discriminate He; now inversion He.
  - intros name Ha Hb. destruct a; simpl in Ha; try discriminate Ha;
      inversion Ha; subst name; destruct b; simpl in Hb; try discriminate Hb;
      reflexivity.
Qed.

(** X2.  On the identifiers of the type [SDHashAlg] the policy check never
    throws: none of them is on the prohibited list.  It prints the warning,
    once, exactly for sha-256-32 and sha-256-64, and leaves the world alone
    for every other identifier.  A name on the prohibited list throws and
    prints nothing. *)
Theorem policy_on_identifiers (alg : SDHashAlg) (w : World) :
  (alg = sha_256_32 \/ alg = sha_256_64 ->
   requireSecondPreimageResistant (SDHashAlg_name alg) w
   = (inr tt, after_warning weak_warning w))
  /\ (alg <> sha_256_32 -> alg <> sha_256_64 ->
      requireSecondPreimageResistant (SDHashAlg_name alg) w = (inr tt, w))
  /\ (forall name, In name prohibitedHashAlgorithms ->
                   requireSecondPreimageResistant name w = (inl ProhibitedHashAlg, w)).
Proof.
  split; [|split].
  - intros [-> | ->]; reflexivity.
  - intros H32 H64. destruct alg; try reflexivity; congruence.
  - intros name Hin. simpl in Hin.
    destruct Hin as [<-|[<-|[<-|[<-|[]]]]]; reflexivity.
Qed.

(** ** salt.ts *)

Lemma createSalt_run (bytesOfSalt : nat) (w : World) :
  (N.of_nat bytesOfSalt <= maxRandomBytes)%N ->
  createSalt bytesOfSalt w
  = (inr (next_octets bytesOfSalt w),
     mkWorld (console w ++ (if (bytesOfSalt <? 16)%nat then [short_salt_warning] else []))
             (entropy w) (drawn w + bytesOfSalt)).
Proof.
  intros Hsize. apply N.leb_le in Hsize.
  unfold createSalt, inspectSizeOfSalt, bind, randomBytes, console_warn, ret, next_octets.
  destruct (bytesOfSalt <? 16)%nat; simpl; rewrite Hsize; [reflexivity|].
  now rewrite List.app_nil_r.
Qed.

Lemma length_next_octets n w : length (next_octets n w) = n.
Proof. unfold next_octets. now rewrite length_map, length_seq. Qed.

(** X3.  For a size [n] that [crypto.randomBytes] accepts (up to
    [2 ** 31 - 1]), [createSalt(n)] returns exactly [n] octets, the next [n]
    of the random source, which it advances by [n]; it prints the
    recommendation once when [n] is below 16 and nothing otherwise.  For a
    larger size it throws the RangeError of [crypto.randomBytes], and has
    printed and drawn nothing. *)
Theorem createSalt_draws (bytesOfSalt : nat) (w : World) :
  ((N.of_nat bytesOfSalt <= maxRandomBytes)%N ->
   exists w',
     createSalt bytesOfSalt w = (inr (next_octets bytesOfSalt w), w')
     /\ length (next_octets bytesOfSalt w) = bytesOfSalt
     /\ entropy w' = entropy w
     /\ drawn w' = drawn w + bytesOfSalt
     /\ (bytesOfSalt < 16 -> console w' = console w ++ [short_salt_warning])
     /\ (16 <= bytesOfSalt -> console w' = console w))
  /\ ((maxRandomBytes < N.of_nat bytesOfSalt)%N ->
      createSalt bytesOfSalt w = (inl RangeError, w)).
Proof.
  split.
  - intros Hsize. rewrite createSalt_run by assumption.
    eexists. split; [reflexivity|]. simpl.
    rewrite length_next_octets. repeat split.
    + intros Hlt. apply Nat.ltb_lt in Hlt. now rewrite Hlt.
    + intros Hge. apply Nat.ltb_ge in Hge. rewrite Hge. apply List.app_nil_r.
  - intros Hsize.
    assert (Hbig : (bytesOfSalt <? 16)%nat = false).
    { apply Nat.ltb_ge. unfold maxRandomBytes in Hsize. lia. }
    apply N.leb_gt in Hsize.
    unfold createSalt, inspectSizeOfSalt, bind, randomBytes, ret.
    rewrite Hbig. simpl. now rewrite Hsize.
Qed.

(** ** selective-disclosure.ts *)

Lemma defaultCreateSalt_source_run (w : World) :
  defaultCreateSalt_source w = (next_octets 32 w, after_drawing 32 w).
Proof. reflexivity. Qed.

(** X5.  Whenever [fillSDOptions] returns, the salt source and the serializer
    of the record are the caller's where the caller gave one.  Where the
    caller gave none, the serializer is [JSON.stringify] and the salt source
    draws 32 fresh octets from the random source without printing anything. *)
Theorem fillSDOptions_defaults (sdProps : Obj) (options : DisclosureOpions)
    (filled : RequiredDisclosureOpions) :
  fillSDOptions sdProps options = inr filled ->
  (forall f, opt_createSalt options = Some f -> r_createSalt filled = f)
  /\ (forall f, stringify options = Some f -> r_stringify filled = f)
  /\ (stringify options = None -> r_stringify filled = JSON.stringify)
  /\ (opt_createSalt options = None ->
      forall w, r_createSalt filled w = (next_octets 32 w, after_drawing 32 w)
                /\ length (next_octets 32 w) = 32).
Proof.
  unfold fillSDOptions. intros E.
  destruct (match payload_sd_alg sdProps with
            | Some p => match hashAlg options with
                        | Some o => negb (SDHashAlg_eqb p o)
                        | None => false
                        end
            | None => false
            end); [discriminate|].
  inversion E; subst; simpl. split; [|split; [|split]].
  - now intros f ->.
  - now intros f ->.
  - now intros ->.
  - intros Hnone w0. rewrite Hnone. split; reflexivity.
Qed.

Lemma fillSDOptions_defaults_witness :
  (forall f, opt_createSalt no_options = Some f ->
             r_createSalt (mkRequired sha_256 defaultCreateSalt_source JSON.stringify) = f)
  /\ (forall f, stringify no_options = Some f ->
                r_stringify (mkRequired sha_256 defaultCreateSalt_source JSON.stringify) = f)
  /\ (stringify no_options = None ->
      r_stringify (mkRequired sha_256 defaultCreateSalt_source JSON.stringify)
      = JSON.stringify)
  /\ (opt_createSalt no_options = None ->
      forall w,
        r_createSalt (mkRequired sha_256 defaultCreateSalt_source JSON.stringify) w
        = (next_octets 32 w, after_drawing 32 w)
        /\ length (next_octets 32 w) = 32).
Proof.
  apply (@fillSDOptions_defaults [] no_options). reflexivity.
Defined.

(** ** SDArray.ts *)

Section SDArrayFurther.

Context `{NodeCrypto}.

Variable disclosureOptions : RequiredDisclosureOpions.

Lemma sdArray_none array indices w :
  selected_positions indices 0 (length array) = [] ->
  sdArray array indices disclosureOptions w = (inr (mkSDArrayResult array []), w).
Proof.
  intros Hnone. unfold sdArray, reduce.
  destruct (hash_cases (r_hashAlg disclosureOptions)) as [[digest Hd]|[e0 Hrej]].
  - apply (@reduce_from_redact _ disclosureOptions indices digest Hd array 0
             (mkSDArrayResult [] []) w array [] w).
    now apply redact_from_none.
  - now apply (@reduce_from_rejected _ disclosureOptions indices e0 Hrej array 0
                 (mkSDArrayResult [] []) w).
Qed.

(** X6.  When the index list selects no position of the array, [sdArray]
    returns the array as it is, with no disclosure, and draws no salt:
    under every options record, the unsupported algorithms included.  That
    is so for an empty index list and for an empty array. *)
Theorem sdArray_without_selection (array : list Value) (indices : list Z) (w : World) :
  (selected_positions indices 0 (length array) = [] ->
   sdArray array indices disclosureOptions w = (inr (mkSDArrayResult array []), w))
  /\ sdArray array [] disclosureOptions w = (inr (mkSDArrayResult array []), w)
  /\ sdArray [] indices disclosureOptions w = (inr (mkSDArrayResult [] []), w).
Proof.
  split; [apply sdArray_none|]. split; [|reflexivity].
  apply sdArray_none. unfold selected_positions.
  induction (seq 0 (length array)); auto.
Qed.

Lemma reduce_from_rejected_world indices e0 :
  (forall data w, hash data (r_hashAlg disclosureOptions) w = (inl e0, w)) ->
  forall xs index acc w,
    selected_positions indices index (length xs) <> [] ->
    reduce_from index (sdArray_callback indices disclosureOptions) acc xs w
    = (inl e0, snd (r_createSalt disclosureOptions w)).
Proof.
  intros Hrej. unfold selected_positions.
  induction xs as [|e xs IH]; intros index acc w Hsel; [simpl in Hsel; congruence|].
  rewrite reduce_from_cons. simpl in Hsel.
  destruct (includes_index indices index) eqn:Hin.
  - now rewrite (@sdArray_callback_rejected _ disclosureOptions indices e0 acc e index w
                   Hrej Hin).
  - rewrite (@sdArray_callback_unselected _ disclosureOptions indices acc e index w Hin).
    now apply IH.
Qed.

(** X7.  Under an algorithm the digest step rejects, [sdArray] throws as soon
    as the index list selects a position of the array: it throws the error
    of [hash], and by then it has called the salt source exactly once. *)
Theorem sdArray_rejected (array : list Value) (indices : list Z) (e0 : Error) (w : World) :
  (forall data w0, hash data (r_hashAlg disclosureOptions) w0 = (inl e0, w0)) ->
  selected_positions indices 0 (length array) <> [] ->
  sdArray array indices disclosureOptions w
  = (inl e0, snd (r_createSalt disclosureOptions w)).
Proof.
  intros Hrej Hsel. now apply reduce_from_rejected_world.
Qed.

Lemma reduce_from_index_ext indices indices' xs : forall index acc w,
  (forall i, i < length xs ->
             includes_index indices (index + i) = includes_index indices' (index + i)) ->
  reduce_from index (sdArray_callback indices disclosureOptions) acc xs w
  = reduce_from index (sdArray_callback indices' disclosureOptions) acc xs w.
Proof.
  induction xs as [|e xs IH]; intros index acc w Hagree; [reflexivity|].
  rewrite !reduce_from_cons.
  assert (H0 := Hagree 0). rewrite Nat.add_0_r in H0.
  assert (Hcb : sdArray_callback indices disclosureOptions acc e index w
                = sdArray_callback indices' disclosureOptions acc e index w).
  { unfold sdArray_callback. rewrite H0 by (simpl; lia). reflexivity. }
  rewrite Hcb.
  destruct (sdArray_callback indices' disclosureOptions acc e index w) as [[err|acc'] w1];
    [reflexivity|].
  apply IH. intros i Hi. rewrite !Nat.add_succ_comm. apply Hagree. simpl. lia.
Qed.

(** X8.  [sdArray] depends on the index list only through the positions of
    the array it names: two index lists that name the same positions (in
    another order, with repetitions, with other out-of-range entries) give
    the same outcome. *)
Theorem sdArray_index_set (array : list Value) (indices indices' : list Z) (w : World) :
  (forall i, i < length array -> includes_index indices i = includes_index indices' i) ->
  sdArray array indices disclosureOptions w = sdArray array indices' disclosureOptions w.
Proof.
  intros Hagree. unfold sdArray, reduce. apply reduce_from_index_ext.
  intros i Hi. simpl. now apply Hagree.
Qed.

Lemma redact_from_world digest indices xs : forall index w arr ds w',
  redact_from digest disclosureOptions indices index xs w = (arr, ds, w') ->
  w' = Nat.iter (length ds) (fun w0 => snd (r_createSalt disclosureOptions w0)) w.
Proof.
  induction xs as [|e xs IH]; simpl; intros index w arr ds w' E.
  - now inversion E.
  - destruct (includes_index indices index).
    + destruct (r_createSalt disclosureOptions w) as [saltBytes w1] eqn:Es.
      destruct (redact_from _ _ _ (S index) xs w1) as [[arr1 ds1] w2] eqn:R.
      inversion E; subst. apply IH in R. rewrite R.
      change (length (?d :: ds1)) with (S (length ds1)).
      rewrite Nat.iter_succ_r. now rewrite Es.
    + destruct (redact_from _ _ _ (S index) xs w) as [[arr1 ds1] w2] eqn:R.
      inversion E; subst. eapply IH; eauto.
Qed.

Lemma iter_default_salt n : forall w,
  Nat.iter n (fun w0 => snd (defaultCreateSalt_source w0)) w = after_drawing (32 * n) w.
Proof.
  induction n as [|n IH]; intros w.
  - simpl. unfold after_drawing. rewrite Nat.add_0_r. now destruct w.
  - rewrite Nat.iter_succ_r, IH.
    change (snd (defaultCreateSalt_source w)) with (after_drawing 32 w).
    unfold after_drawing. cbn [console entropy drawn]. f_equal. lia.
Qed.

(** X9.  When [sdArray] returns, it has called the salt source once per
    disclosure it made, one call after the other, and changed the world in
    no other way.  With the default salt source that is 32 octets of the
    random source per redacted element, and nothing printed. *)
Theorem sdArray_salt_calls (array : list Value) (indices : list Z) (w : World)
    (r : SDArrayResult) (w' : World) :
  sdArray array indices disclosureOptions w = (inr r, w') ->
  w' = Nat.iter (length (disclosures_of r))
         (fun w0 => snd (r_createSalt disclosureOptions w0)) w
  /\ (r_createSalt disclosureOptions = defaultCreateSalt_source ->
      w' = after_drawing (32 * length (disclosures_of r)) w).
Proof.
  intros E. apply sdArray_success in E as [digest R].
  apply redact_from_world in R. split; [exact R|].
  intros Hdef. rewrite R, Hdef. apply iter_default_salt.
Qed.

End SDArrayFurther.

Lemma sdArray_rejected_witness :
  @sdArray exampleCrypto [VStr "DE"; VStr "FR"] [1%Z]
    (mkRequired k12_512 (mockCreateSalt "lklxF5jMYlGTPUovMNIvCA") fancyStringify)
    exampleWorld
  = (inl (UnsupportedHashAlg "k12-512"), exampleWorld).
Proof.
  apply (@sdArray_rejected exampleCrypto
           (mkRequired k12_512 (mockCreateSalt "lklxF5jMYlGTPUovMNIvCA") fancyStringify)
           [VStr "DE"; VStr "FR"] [1%Z] (UnsupportedHashAlg "k12-512") exampleWorld).
  - intros data w0. reflexivity.
  - discriminate.
Defined.

Lemma sdArray_index_set_witness :
  @sdArray exampleCrypto [VStr "DE"; VStr "FR"] [1; 1; 9; 0]%Z
    (testOptions "lklxF5jMYlGTPUovMNIvCA") exampleWorld
  = @sdArray exampleCrypto [VStr "DE"; VStr "FR"] [0; -3; 1]%Z
      (testOptions "lklxF5jMYlGTPUovMNIvCA") exampleWorld.
Proof.
  apply (@sdArray_index_set exampleCrypto (testOptions "lklxF5jMYlGTPUovMNIvCA")
           [VStr "DE"; VStr "FR"] [1; 1; 9; 0]%Z [0; -3; 1]%Z exampleWorld).
  intros i Hi. simpl in Hi.
  destruct i as [|[|i]]; [reflexivity|reflexivity|lia].
Defined.

Lemma sdArray_salt_calls_witness :
  exists r w',
    @sdArray exampleCrypto [VStr "DE"; VStr "FR"] [0; 1]%Z
      (mkRequired sha_256 defaultCreateSalt_source fancyStringify) exampleWorld
    = (inr r, w')
    /\ w' = Nat.iter (length (disclosures_of r))
              (fun w0 => snd (defaultCreateSalt_source w0)) exampleWorld
    /\ (defaultCreateSalt_source = defaultCreateSalt_source ->
        w' = after_drawing (32 * length (disclosures_of r)) exampleWorld).
Proof.
  do 2 eexists. split; [vm_compute; reflexivity|].
  refine (@sdArray_salt_calls exampleCrypto
            (mkRequired sha_256 defaultCreateSalt_source fancyStringify)
            [VStr "DE"; VStr "FR"] [0; 1]%Z exampleWorld _ _ _).
  vm_compute. reflexivity.
Defined.

(** ** Disclosures *)

Lemma encode_stringify_inj (a b : Value) :
  json_value a = true -> json_value b = true ->
  Base64url.encode (JSON.stringify a) = Base64url.encode (JSON.stringify b) -> a = b.
Proof.
  intros Ha Hb E.
  apply (f_equal Base64url.decode) in E. rewrite !Base64urlFacts.decode_encode in E.
  apply (f_equal JSON.parse) in E.
  rewrite !JSONFacts.parse_stringify in E by assumption. now inversion E.
Qed.

(** X10.  With the default serializer a disclosure determines the tuple it
    was made from: two property disclosures are equal only if salt, claim
    name and value are, two array-element disclosures only if salt and value
    are, and a property disclosure is never equal to an array-element
    disclosure.  (Values are those JSON represents.) *)
Theorem disclosures_determine_tuples (salt name salt' name' : string)
    (value value' : Value) :
  json_value value = true -> json_value value' = true ->
  (disclosureForObjectProps salt name value JSON.stringify
   = disclosureForObjectProps salt' name' value' JSON.stringify ->
   salt = salt' /\ name = name' /\ value = value')
  /\ (disclosureForArrayElement salt value JSON.stringify
      = disclosureForArrayElement salt' value' JSON.stringify ->
      salt = salt' /\ value = value')
  /\ disclosureForObjectProps salt name value JSON.stringify
     <> disclosureForArrayElement salt' value' JSON.stringify.
Proof.
  intros Hv Hv'. unfold disclosureForObjectProps, disclosureForArrayElement.
  split; [|split]; intros E; apply encode_stringify_inj in E;
    try (simpl; rewrite ?Hv, ?Hv'; reflexivity).
  - now inversion E.
  - now inversion E.
  - discriminate E.
Qed.

Lemma disclosures_determine_tuples_witness :
  (disclosureForObjectProps "c2FsdA" "given_name" (VStr "John") JSON.stringify
   = disclosureForObjectProps "c2FsdA" "given_name" (VStr "John") JSON.stringify ->
   "c2FsdA" = "c2FsdA" /\ "given_name" = "given_name" /\ VStr "John" = VStr "John")
  /\ (disclosureForArrayElement "c2FsdA" (VStr "John") JSON.stringify
      = disclosureForArrayElement "c2FsdA" (VStr "John") JSON.stringify ->
      "c2FsdA" = "c2FsdA" /\ VStr "John" = VStr "John")
  /\ disclosureForObjectProps "c2FsdA" "given_name" (VStr "John") JSON.stringify
     <> disclosureForArrayElement "c2FsdA" (VStr "John") JSON.stringify.
Proof.
  apply (@disclosures_determine_tuples "c2FsdA" "given_name" "c2FsdA" "given_name"
           (VStr "John") (VStr "John")); reflexivity.
Defined.

(** ** SDObject.ts *)

Lemma obj_set_set_same k v v' o : obj_set k v (obj_set k v' o) = obj_set k v o.
Proof.
  induction o as [|[k0 v0] o IH]; simpl.
  - now rewrite String.eqb_refl.
  - destruct (String.eqb k k0) eqn:E; simpl; rewrite E; [reflexivity|now rewrite IH].
Qed.

Lemma obj_set_unchanged k v o : obj_get k o = Some v -> obj_set k v o = o.
Proof.
  induction o as [|[k0 v0] o IH]; simpl; [discriminate|].
  destruct (String.eqb_spec k k0) as [->|Hne].
  - intros E. now inversion E.
  - intros E. now rewrite IH.
Qed.

(** X11.  [pure] starts a Redacted Value afresh: no disclosures, an empty
    digest collection even when the object came with an [_sd] of its own,
    and every other property as the object has it.  Lifting the payload of
    a lifted object changes nothing. *)
Theorem pure_lifts (object : Obj) :
  disclosures (SDObjectOps.pure object) = []
  /\ payload_sd (sdObject (SDObjectOps.pure object)) = []
  /\ (forall k, k <> "_sd" ->
                obj_get k (sdObject (SDObjectOps.pure object)) = obj_get k object)
  /\ SDObjectOps.pure (sdObject (SDObjectOps.pure object)) = SDObjectOps.pure object.
Proof.
  unfold SDObjectOps.pure. simpl. repeat split.
  - apply payload_sd_set.
  - intros k Hk. now apply obj_get_set_other.
  - now rewrite obj_set_set_same.
Qed.

Lemma payload_sd_reset (o o' : Obj) :
  payload_sd (obj_set "_sd" (obj_read "_sd" o) o') = payload_sd o.
Proof.
  unfold payload_sd, obj_read. rewrite obj_get_set_same.
  destruct (obj_get "_sd" o) as [v|]; reflexivity.
Qed.

Lemma payload_sd_alg_reset (o o' : Obj) :
  payload_sd_alg (obj_set "_sd_alg" (obj_read "_sd_alg" o) o') = payload_sd_alg o.
Proof.
  unfold payload_sd_alg, obj_read. rewrite obj_get_set_same.
  destruct (obj_get "_sd_alg" o) as [v|]; reflexivity.
Qed.

(** X12.  Whatever the function given to [map] returns, the mapped value
    reads the same digest collection and the same algorithm as before and
    has the same disclosures; every other property is the one the function
    returned. *)
Theorem map_keeps_metadata (self : SDObject) (f : Obj -> Obj) :
  payload_sd (sdObject (SDObjectOps.map self f)) = payload_sd (sdObject self)
  /\ payload_sd_alg (sdObject (SDObjectOps.map self f)) = payload_sd_alg (sdObject self)
  /\ disclosures (SDObjectOps.map self f) = disclosures self
  /\ (forall k, claim_name k ->
                obj_get k (sdObject (SDObjectOps.map self f)) = obj_get k (f (sdObject self))).
Proof.
  unfold SDObjectOps.map. simpl. repeat split.
  - apply payload_sd_reset.
  - rewrite payload_sd_alg_frame by discriminate. apply payload_sd_alg_reset.
  - intros k [Hsd Halg]. now rewrite !obj_get_set_other by assumption.
Qed.

(** X13.  Lifting is a right identity of [flatMap]: composing a Redacted
    Value whose [_sd] holds an array with the function that lifts its payload
    gives the value back, and the world is untouched. *)
Theorem flatMap_pure_right (self : SDObject) (digests : list Value) (w : World) :
  obj_get "_sd" (sdObject self) = Some (VArr digests) ->
  SDObjectOps.flatMap self (fun payload => ret (SDObjectOps.pure payload)) w
  = (inr self, w).
Proof.
  intros Hsd. unfold SDObjectOps.flatMap, bind, ret, SDObjectOps.pure. simpl.
  rewrite payload_sd_alg_frame by discriminate.
  rewrite SDHashAlg_eqb_refl. simpl.
  rewrite payload_sd_set, !List.app_nil_r, obj_set_set_same.
  unfold payload_sd. rewrite Hsd. rewrite (obj_set_unchanged _ _ Hsd).
  now destruct self.
Qed.

Lemma flatMap_pure_right_witness :
  SDObjectOps.flatMap
    (mkSDObject [("a", VNum 1); ("_sd", VArr [VStr "d1"]); ("_sd_alg", VStr "sha-512")] ["D1"])
    (fun payload => ret (SDObjectOps.pure payload)) exampleWorld
  = (inr (mkSDObject [("a", VNum 1); ("_sd", VArr [VStr "d1"]); ("_sd_alg", VStr "sha-512")]
            ["D1"]), exampleWorld).
Proof.
  apply (@flatMap_pure_right
           (mkSDObject [("a", VNum 1); ("_sd", VArr [VStr "d1"]); ("_sd_alg", VStr "sha-512")]
              ["D1"])
           [VStr "d1"] exampleWorld).
  reflexivity.
Defined.

(** X14.  Lifting is a left identity of [flatMap] under the default
    algorithm only.  From a lifted object that declares no algorithm,
    [flatMap] returns exactly what the function returned when that value is
    under sha-256 (declared or by default) and its [_sd] holds an array; when
    the function's value declares any other algorithm, [flatMap] throws the
    inconsistent-algorithm error. *)
Theorem flatMap_pure_left (object : Obj) (f : Obj -> M SDObject) (w : World)
    (newSdObj : SDObject) (w' : World) :
  obj_get "_sd_alg" object = None ->
  f (sdObject (SDObjectOps.pure object)) w = (inr newSdObj, w') ->
  (declared_or_default (sdObject newSdObj) = sha_256 ->
   forall digests, obj_get "_sd" (sdObject newSdObj) = Some (VArr digests) ->
   SDObjectOps.flatMap (SDObjectOps.pure object) f w = (inr newSdObj, w'))
  /\ (declared_or_default (sdObject newSdObj) <> sha_256 ->
      SDObjectOps.flatMap (SDObjectOps.pure object) f w = (inl InconsistentHashAlg, w')).
Proof.
  intros Hplain Hf. unfold SDObjectOps.flatMap. erewrite bind_inr by exact Hf.
  assert (Hself : nullish (payload_sd_alg (sdObject (SDObjectOps.pure object)))
                    SDDefaultHashAlg = sha_256).
  { unfold SDObjectOps.pure. simpl. rewrite payload_sd_alg_frame by discriminate.
    unfold payload_sd_alg. now rewrite Hplain. }
  rewrite Hself. unfold declared_or_default. split.
  - intros Hnew digests Hsd. rewrite Hnew. simpl.
    unfold SDObjectOps.pure. simpl. rewrite payload_sd_set. simpl.
    unfold payload_sd. rewrite Hsd. rewrite (obj_set_unchanged _ _ Hsd).
    now destruct newSdObj.
  - intros Hnew.
    assert (E : SDHashAlg_eqb sha_256
                  (nullish (payload_sd_alg (sdObject newSdObj)) SDDefaultHashAlg) = false).
    { apply SDHashAlg_eqb_neq. congruence. }
    now rewrite E.
Qed.

Lemma flatMap_pure_left_witness :
  (declared_or_default [("a", VNum 1); ("_sd", VArr [VStr "d"])] = sha_256 ->
   forall digests,
     obj_get "_sd" [("a", VNum 1); ("_sd", VArr [VStr "d"])] = Some (VArr digests) ->
     SDObjectOps.flatMap (SDObjectOps.pure [("a", VNum 1)])
       (fun _ => ret (mkSDObject [("a", VNum 1); ("_sd", VArr [VStr "d"])] ["D"]))
       exampleWorld
     = (inr (mkSDObject [("a", VNum 1); ("_sd", VArr [VStr "d"])] ["D"]), exampleWorld))
  /\ (declared_or_default [("a", VNum 1); ("_sd", VArr [VStr "d"])] <> sha_256 ->
      SDObjectOps.flatMap (SDObjectOps.pure [("a", VNum 1)])
        (fun _ => ret (mkSDObject [("a", VNum 1); ("_sd", VArr [VStr "d"])] ["D"]))
        exampleWorld
      = (inl InconsistentHashAlg, exampleWorld)).
Proof.
  apply (@flatMap_pure_left [("a", VNum 1)]
           (fun _ => ret (mkSDObject [("a", VNum 1); ("_sd", VArr [VStr "d"])] ["D"]))
           exampleWorld
           (mkSDObject [("a", VNum 1); ("_sd", VArr [VStr "d"])] ["D"]) exampleWorld);
    reflexivity.
Defined.

(** X15.  [nested] replaces the named property with the payload the function
    returned for its value (for a missing property the function receives
    [undefined]), appends the function's disclosures, and leaves every other
    property as it was: for a claim name, the outer digest collection and the
    outer algorithm are untouched.  No algorithm is compared, so it returns
    whatever algorithm the inner value declares; an error of the function is
    passed on. *)
Theorem nested_frame (self : SDObject) (claimName : string) (f : Value -> M SDObject)
    (w : World) :
  (forall e w', f (obj_read claimName (sdObject self)) w = (inl e, w') ->
                SDObjectOps.nested self claimName f w = (inl e, w'))
  /\ (forall inner w',
        f (obj_read claimName (sdObject self)) w = (inr inner, w') ->
        exists r,
          SDObjectOps.nested self claimName f w = (inr r, w')
          /\ obj_get claimName (sdObject r) = Some (VObj (sdObject inner))
          /\ (forall k, k <> claimName -> obj_get k (sdObject r) = obj_get k (sdObject self))
          /\ disclosures r = disclosures self ++ disclosures inner
          /\ (claim_name claimName ->
              payload_sd (sdObject r) = payload_sd (sdObject self)
              /\ payload_sd_alg (sdObject r) = payload_sd_alg (sdObject self))).
Proof.
  unfold SDObjectOps.nested. split.
  - intros e w' Hf. now erewrite bind_inl by exact Hf.
  - intros inner w' Hf. erewrite bind_inr by exact Hf.
    eexists. split; [reflexivity|]. simpl.
    split; [apply obj_get_set_same|].
    split; [intros k Hk; now apply obj_get_set_other|].
    split; [reflexivity|].
    intros [Hsd Halg]. split.
    + apply payload_sd_frame. congruence.
    + apply payload_sd_alg_frame. congruence.
Qed.

(** *** [prop], pass by pass *)

Section PropFurther.

Context `{NodeCrypto}.

Lemma stage_run (payload : Obj) (filled : RequiredDisclosureOpions) claimNames : forall w,
  mapM (fun claimName =>
          saltBytes <- call_createSalt (r_createSalt filled) ;;
          ret (disclosureForObjectProps (base64url saltBytes) claimName
                 (obj_read claimName payload) (r_stringify filled)))
       claimNames w
  = (inr (fst (stage_disclosures payload filled claimNames w)),
     snd (stage_disclosures payload filled claimNames w)).
Proof.
  induction claimNames as [|n rest IH]; intros w; [reflexivity|].
  simpl. unfold bind at 1. unfold bind at 1. unfold call_createSalt at 1.
  destruct (r_createSalt filled w) as [saltBytes w1]. unfold ret at 1.
  unfold bind at 1. rewrite IH.
  destruct (stage_disclosures payload filled rest w1) as [ds w2]. reflexivity.
Qed.

Lemma stage_length payload filled claimNames : forall w,
  length (fst (stage_disclosures payload filled claimNames w)) = length claimNames.
Proof.
  induction claimNames as [|n rest IH]; intros w; [reflexivity|].
  simpl. destruct (r_createSalt filled w) as [saltBytes w1].
  specialize (IH w1). destruct (stage_disclosures payload filled rest w1) as [ds w2].
  simpl in *. now rewrite IH.
Qed.

Lemma stage_world payload filled claimNames : forall w,
  snd (stage_disclosures payload filled claimNames w)
  = after_salts (r_createSalt filled) (length claimNames) w.
Proof.
  unfold after_salts.
  induction claimNames as [|n rest IH]; intros w; [reflexivity|].
  change (length (n :: rest)) with (S (length rest)). rewrite Nat.iter_succ_r.
  simpl. destruct (r_createSalt filled w) as [saltBytes w1] eqn:Es.
  specialize (IH w1). destruct (stage_disclosures payload filled rest w1) as [ds w2].
  simpl in *. exact IH.
Qed.

Lemma stage_app payload filled names1 names2 : forall w,
  stage_disclosures payload filled (names1 ++ names2) w
  = (fst (stage_disclosures payload filled names1 w)
       ++ fst (stage_disclosures payload filled names2
                 (snd (stage_disclosures payload filled names1 w))),
     snd (stage_disclosures payload filled names2
            (snd (stage_disclosures payload filled names1 w)))).
Proof.
  induction names1 as [|n rest IH]; intros w; simpl.
  - now destruct (stage_disclosures payload filled names2 w).
  - destruct (r_createSalt filled w) as [saltBytes w1]. rewrite IH.
    destruct (stage_disclosures payload filled rest w1) as [ds w2]. reflexivity.
Qed.

Lemma stage_ext payload payload' filled claimNames : forall w,
  (forall n, In n claimNames -> obj_read n payload = obj_read n payload') ->
  stage_disclosures payload filled claimNames w
  = stage_disclosures payload' filled claimNames w.
Proof.
  induction claimNames as [|n rest IH]; intros w Hsame; [reflexivity|].
  simpl. rewrite (Hsame n) by (simpl; auto).
  destruct (r_createSalt filled w) as [saltBytes w1].
  rewrite IH by (intros; apply Hsame; simpl; auto). reflexivity.
Qed.

Lemma hash_all_digestible alg digest staged : forall w,
  digestible alg digest ->
  mapM (fun disclosure =>
          digestBytes <- hash (Buffer_from disclosure) alg ;;
          ret (base64url digestBytes, disclosure))
       staged w
  = (inr (List.map (fun d => (digest_text digest d, d)) staged), w).
Proof.
  intros w Hd. induction staged as [|d rest IH]; [reflexivity|].
  simpl. unfold bind at 1. unfold bind at 1. rewrite (hash_digestible Hd).
  unfold ret at 1. unfold bind at 1. now rewrite IH.
Qed.

Lemma hash_all_rejected alg e staged : forall w,
  (forall data w0, hash data alg w0 = (inl e, w0)) ->
  staged <> [] ->
  mapM (fun disclosure =>
          digestBytes <- hash (Buffer_from disclosure) alg ;;
          ret (base64url digestBytes, disclosure))
       staged w
  = (inl e, w).
Proof.
  intros w Hrej Hne. destruct staged as [|d rest]; [congruence|].
  simpl. unfold bind at 1. unfold bind at 1. now rewrite Hrej.
Qed.

Lemma prop_unresolved self claimNames options e w :
  fillSDOptions (sdObject self) options = inl e ->
  SDObjectOps.prop self claimNames options w = (inl e, w).
Proof.
  intros Hfill. unfold SDObjectOps.prop, bind, lift. now rewrite Hfill.
Qed.

Lemma prop_run self claimNames options filled digest w :
  fillSDOptions (sdObject self) options = inr filled ->
  digestible (r_hashAlg filled) digest ->
  SDObjectOps.prop self claimNames options w
  = (inr (mkSDObject
            (prop_payload (sdObject self) filled claimNames
               (List.map (digest_text digest)
                  (fst (stage_disclosures (sdObject self) filled claimNames w))))
            (disclosures self
               ++ fst (stage_disclosures (sdObject self) filled claimNames w))),
     snd (stage_disclosures (sdObject self) filled claimNames w)).
Proof.
  intros Hfill Hd. unfold SDObjectOps.prop.
  erewrite bind_inr by (unfold lift; rewrite Hfill; reflexivity).
  erewrite bind_inr by apply stage_run.
  erewrite bind_inr by (apply hash_all_digestible; exact Hd).
  unfold ret, prop_payload. rewrite !map_map. simpl. rewrite map_id. reflexivity.
Qed.

Lemma prop_run_rejected self claimNames options filled e w :
  fillSDOptions (sdObject self) options = inr filled ->
  (forall data w0, hash data (r_hashAlg filled) w0 = (inl e, w0)) ->
  claimNames <> [] ->
  SDObjectOps.prop self claimNames options w
  = (inl e, snd (stage_disclosures (sdObject self) filled claimNames w)).
Proof.
  intros Hfill Hrej Hne. unfold SDObjectOps.prop.
  erewrite bind_inr by (unfold lift; rewrite Hfill; reflexivity).
  erewrite bind_inr by apply stage_run.
  erewrite bind_inl; [reflexivity|].
  apply hash_all_rejected; auto.
  intros Hnil. apply (f_equal (@length string)) in Hnil.
  rewrite stage_length in Hnil. destruct claimNames; [congruence|discriminate].
Qed.

Lemma prop_run_empty self options filled w :
  fillSDOptions (sdObject self) options = inr filled ->
  SDObjectOps.prop self [] options w
  = (inr (mkSDObject (prop_payload (sdObject self) filled [] []) (disclosures self)), w).
Proof.
  intros Hfill. unfold SDObjectOps.prop, bind, lift. rewrite Hfill. simpl.
  unfold ret, prop_payload. simpl. rewrite !List.app_nil_r. reflexivity.
Qed.

(** X16.  The outcomes of [prop].  If options resolution fails, [prop] fails
    with that error before doing anything.  Otherwise it calls the salt
    source once per name, and then: under an algorithm the digest step
    accepts it returns; under one it rejects it throws the error of [hash]
    (the salts already drawn), unless the list of names is empty, in which
    case it returns, having redacted nothing, with the algorithm declared. *)
Theorem prop_outcome (self : SDObject) (claimNames : list string)
    (options : DisclosureOpions) (w : World) :
  (forall e, fillSDOptions (sdObject self) options = inl e ->
             SDObjectOps.prop self claimNames options w = (inl e, w))
  /\ (forall filled,
        fillSDOptions (sdObject self) options = inr filled ->
        (forall digest,
            digestible (r_hashAlg filled) digest ->
            exists r,
              SDObjectOps.prop self claimNames options w
              = (inr r, after_salts (r_createSalt filled) (length claimNames) w))
        /\ (forall e,
              (forall data w0, hash data (r_hashAlg filled) w0 = (inl e, w0)) ->
              claimNames <> [] ->
              SDObjectOps.prop self claimNames options w
              = (inl e, after_salts (r_createSalt filled) (length claimNames) w))
        /\ (claimNames = [] ->
            exists r,
              SDObjectOps.prop self claimNames options w = (inr r, w)
              /\ payload_sd_alg (sdObject r) = Some (r_hashAlg filled)
              /\ payload_sd (sdObject r) = payload_sd (sdObject self)
              /\ disclosures r = disclosures self)).
Proof.
  split; [intros e; apply prop_unresolved|].
  intros filled Hfill. split; [|split].
  - intros digest Hd.
    rewrite (@prop_run self claimNames options filled digest w Hfill Hd).
    rewrite stage_world. eexists. reflexivity.
  - intros e Hrej Hne.
    rewrite (@prop_run_rejected self claimNames options filled e w Hfill Hrej Hne).
    now rewrite stage_world.
  - intros ->. rewrite (@prop_run_empty self options filled w Hfill).
    eexists. split; [reflexivity|]. simpl.
    unfold prop_payload, delete_all. simpl. repeat split.
    + unfold payload_sd_alg. rewrite obj_get_set_same. apply SDHashAlg_of_name_name.
    + rewrite payload_sd_frame by discriminate.
      rewrite payload_sd_set. apply List.app_nil_r.
Qed.

End PropFurther.

(** *** The algorithm, once declared *)

Lemma fillSDOptions_alg sdProps options filled :
  fillSDOptions sdProps options = inr filled ->
  r_hashAlg filled = effective_alg (payload_sd_alg sdProps) (hashAlg options).
Proof.
  unfold fillSDOptions. intros E.
  destruct (payload_sd_alg sdProps) as [p|], (hashAlg options) as [o|]; simpl in E;
    try (inversion E; reflexivity).
  destruct (SDHashAlg_eqb p o); simpl in E; [|discriminate].
  inversion E; reflexivity.
Qed.

Lemma fillSDOptions_declared_other sdProps options alg other :
  payload_sd_alg sdProps = Some alg -> hashAlg options = Some other -> other <> alg ->
  fillSDOptions sdProps options = inl InconsistentHashAlg.
Proof.
  intros Hp Ho Hne. unfold fillSDOptions. rewrite Hp, Ho.
  assert (E : SDHashAlg_eqb alg other = false) by (apply SDHashAlg_eqb_neq; congruence).
  now rewrite E.
Qed.

(** Resolving the same options against a payload that declares the
    algorithm they resolved to gives the same record. *)
Lemma fillSDOptions_again sdProps sdProps' options filled :
  fillSDOptions sdProps options = inr filled ->
  payload_sd_alg sdProps' = Some (r_hashAlg filled) ->
  fillSDOptions sdProps' options = inr filled.
Proof.
  intros Hfill Hdecl. pose proof (fillSDOptions_alg _ _ Hfill) as Halg.
  unfold fillSDOptions in *. rewrite Hdecl.
  destruct (payload_sd_alg sdProps) as [p|], (hashAlg options) as [o|]; simpl in *.
  - destruct (SDHashAlg_eqb p o) eqn:E; simpl in Hfill; [|discriminate].
    apply SDHashAlg_eqb_eq in E. subst o. inversion Hfill; subst. simpl.
    now rewrite SDHashAlg_eqb_refl.
  - inversion Hfill; subst. reflexivity.
  - inversion Hfill; subst. simpl. now rewrite SDHashAlg_eqb_refl.
  - inversion Hfill; subst. reflexivity.
Qed.

Section AlgorithmDeclared.

Context `{NodeCrypto}.

Lemma array_unresolved self claimName indices options e w :
  fillSDOptions (sdObject self) options = inl e ->
  SDObjectOps.array self claimName indices options w = (inl e, w).
Proof.
  intros Hfill. unfold SDObjectOps.array, bind, lift. now rewrite Hfill.
Qed.

Lemma payload_sd_alg_prop_payload payload filled claimNames digests :
  ~ In "_sd_alg" claimNames ->
  payload_sd_alg (prop_payload payload filled claimNames digests)
  = Some (r_hashAlg filled).
Proof.
  intros Hnot. unfold prop_payload, payload_sd_alg.
  rewrite obj_get_delete_all_other by assumption.
  rewrite obj_get_set_same. apply SDHashAlg_of_name_name.
Qed.

(** A chain of calls that keep the algorithm ends under the algorithm it
    started under. *)
Lemma run_chain_keeps_algorithm alg ops :
  Forall keeps_algorithm ops ->
  forall self w r w',
    payload_sd_alg (sdObject self) = Some alg ->
    run_chain self ops w = (inr r, w') ->
    payload_sd_alg (sdObject r) = Some alg.
Proof.
  induction 1 as [|op ops Hop _ IH]; simpl; intros self w r w' Hdecl E.
  - inversion E; subst. exact Hdecl.
  - apply bind_success in E as (next & w1 & Hrun & E).
    apply (IH next w1 r w'); [|exact E].
    destruct op as [claimNames options|claimName indices options]; simpl in *.
    + apply prop_success in Hrun as (filled & sdClaims & Hfill & _ & ->). simpl.
      rewrite payload_sd_alg_prop_payload by assumption.
      apply fillSDOptions_alg in Hfill. rewrite Hdecl in Hfill. simpl in Hfill.
      now rewrite Hfill.
    + rewrite (array_sets_caller_alg _ _ _ _ _ Hrun).
      apply array_success in Hrun as (filled & xs & res & Hfill & _).
      destruct (hashAlg options) as [o|] eqn:Ho; [|congruence].
      destruct (SDHashAlg_eqb o alg) eqn:Eo.
      * apply SDHashAlg_eqb_eq in Eo. now subst.
      * apply SDHashAlg_eqb_neq in Eo.
        rewrite (fillSDOptions_declared_other _ _ Hdecl Ho Eo) in Hfill. discriminate.
Qed.

(** X17.  The algorithm after [prop].  When [prop] has returned, the payload
    declares the algorithm the options resolved to (the payload's, else the
    caller's, else sha-256); every options resolution against that payload
    returns it, and a [prop] or [array] call made on that value asking for a
    different one throws the inconsistent-algorithm error before doing
    anything.  The declaration is not fixed for good.  It survives every
    chain of [prop] calls that do not name [_sd_alg] and of [array] calls
    whose options state an algorithm; an [array] call whose options state
    none returns with the declaration erased, after which any algorithm
    resolves again. *)
Theorem algorithm_after_prop (self : SDObject) (claimNames : list string)
    (options : DisclosureOpions) (w : World) (r : SDObject) (w' : World) :
  SDObjectOps.prop self claimNames options w = (inr r, w') ->
  ~ In "_sd_alg" claimNames ->
  exists alg,
    payload_sd_alg (sdObject r) = Some alg
    /\ alg = effective_alg (payload_sd_alg (sdObject self)) (hashAlg options)
    /\ (forall options' filled',
          fillSDOptions (sdObject r) options' = inr filled' -> r_hashAlg filled' = alg)
    /\ (forall options' other,
          hashAlg options' = Some other -> other <> alg ->
          (forall names' w0,
              SDObjectOps.prop r names' options' w0 = (inl InconsistentHashAlg, w0))
          /\ (forall name indices w0,
                SDObjectOps.array r name indices options' w0
                = (inl InconsistentHashAlg, w0)))
    /\ (forall ops w1 r2 w2,
          Forall keeps_algorithm ops ->
          run_chain r ops w1 = (inr r2, w2) ->
          payload_sd_alg (sdObject r2) = Some alg)
    /\ (forall name indices options' w1 r2 w2,
          hashAlg options' = None ->
          SDObjectOps.array r name indices options' w1 = (inr r2, w2) ->
          payload_sd_alg (sdObject r2) = None
          /\ forall options2 other,
               hashAlg options2 = Some other ->
               exists filled2,
                 fillSDOptions (sdObject r2) options2 = inr filled2
                 /\ r_hashAlg filled2 = other).
Proof.
  intros E Hnot.
  apply prop_success in E as (filled & sdClaims & Hfill & _ & ->). simpl.
  exists (r_hashAlg filled).
  pose proof (@payload_sd_alg_prop_payload (sdObject self) filled claimNames
                (List.map fst sdClaims) Hnot) as Hdecl.
  split; [exact Hdecl|]. split; [now apply fillSDOptions_alg|]. split; [|split; [|split]].
  - intros options' filled' Hfill'. apply fillSDOptions_alg in Hfill'.
    now rewrite Hfill', Hdecl.
  - intros options' other Ho Hne.
    pose proof (fillSDOptions_declared_other _ _ Hdecl Ho Hne) as Hfail.
    split; intros.
    + now apply prop_unresolved.
    + now apply array_unresolved.
  - intros ops w1 r2 w2 Hops Hrun.
    eapply run_chain_keeps_algorithm; [exact Hops| |exact Hrun]. exact Hdecl.
  - intros name indices options' w1 r2 w2 Hnone Hrun.
    pose proof (array_sets_caller_alg _ _ _ _ _ Hrun) as Herased.
    rewrite Hnone in Herased. split; [exact Herased|].
    intros options2 other Ho. unfold fillSDOptions. rewrite Herased, Ho. simpl.
    eexists. split; reflexivity.
Qed.

End AlgorithmDeclared.

Lemma algorithm_after_prop_witness :
  exists r w',
    @SDObjectOps.prop exampleCrypto (SDObjectOps.pure exampleClaims) ["given_name"]
      (exampleOptions (Some sha_512) "2GLC42sKQveCfGfryNRN9w") exampleWorld = (inr r, w')
    /\ payload_sd_alg (sdObject r) = Some sha_512
    /\ @SDObjectOps.array exampleCrypto r "nationalities" [0%Z]
         (exampleOptions (Some sha_256) "lklxF5jMYlGTPUovMNIvCA") w'
       = (inl InconsistentHashAlg, w')
    /\ (forall r2 w2,
          @SDObjectOps.array exampleCrypto r "nationalities" [0%Z]
            (exampleOptions None "lklxF5jMYlGTPUovMNIvCA") w' = (inr r2, w2) ->
          payload_sd_alg (sdObject r2) = None).
Proof.
  do 2 eexists. split; [vm_compute; reflexivity|].
  edestruct (@algorithm_after_prop exampleCrypto (SDObjectOps.pure exampleClaims)
               ["given_name"] (exampleOptions (Some sha_512) "2GLC42sKQveCfGfryNRN9w")
               exampleWorld) as (alg & Hdecl & Halg & _ & Hlater & _ & Herase).
  - vm_compute. reflexivity.
  - intros [E|[]]. discriminate E.
  - simpl in Halg. subst alg. split; [exact Hdecl|]. split.
    + apply (Hlater (exampleOptions (Some sha_256) "lklxF5jMYlGTPUovMNIvCA") sha_256
               eq_refl ltac:(discriminate)).
    + intros r2 w2 Hrun.
      apply (Herase "nationalities" [0%Z]
               (exampleOptions None "lklxF5jMYlGTPUovMNIvCA") _ r2 w2 eq_refl Hrun).
Defined.

(** *** One call or two *)

Lemma obj_set_swap k k' v v' v0 o :
  k <> k' ->
  obj_set k v (obj_set k' v' (obj_set k v0 o)) = obj_set k' v' (obj_set k v o).
Proof.
  intros Hne. induction o as [|[k0 x] o IH]; simpl; key_cases;
    rewrite ?obj_set_set_same, ?IH; reflexivity.
Qed.

Lemma obj_set_delete_comm k k' v o :
  k <> k' -> obj_set k v (obj_delete k' o) = obj_delete k' (obj_set k v o).
Proof.
  intros Hne. induction o as [|[k0 x] o IH]; simpl; key_cases;
    rewrite ?IH; reflexivity.
Qed.

Lemma obj_set_delete_all_comm k v names : forall o,
  ~ In k names -> obj_set k v (delete_all names o) = delete_all names (obj_set k v o).
Proof.
  unfold delete_all. induction names as [|n names IH]; intros o Hnot; [reflexivity|].
  simpl. rewrite IH by (simpl in Hnot; tauto).
  rewrite obj_set_delete_comm; [reflexivity|]. intros ->. apply Hnot. simpl. auto.
Qed.

Lemma delete_all_app names1 names2 o :
  delete_all names2 (delete_all names1 o) = delete_all (names1 ++ names2) o.
Proof. unfold delete_all. now rewrite fold_left_app. Qed.

Lemma obj_read_prop_payload payload filled claimNames digests n :
  ~ In n claimNames -> claim_name n ->
  obj_read n (prop_payload payload filled claimNames digests) = obj_read n payload.
Proof.
  intros Hnot [Hsd Halg]. unfold obj_read, prop_payload.
  rewrite obj_get_delete_all_other by assumption.
  now rewrite !obj_get_set_other by assumption.
Qed.

Lemma Forall_claim_name_sd names : Forall claim_name names -> ~ In "_sd" names.
Proof.
  intros HF Hin. rewrite Forall_forall in HF. destruct (HF _ Hin) as [Hsd _]. congruence.
Qed.

Lemma Forall_claim_name_alg names : Forall claim_name names -> ~ In "_sd_alg" names.
Proof.
  intros HF Hin. rewrite Forall_forall in HF. destruct (HF _ Hin) as [_ Halg]. congruence.
Qed.

Section TwoCalls.

Context `{NodeCrypto}.

(** X18.  Redacting two disjoint lists of claims in one [prop] call or in
    two successive calls with the same options gives the same Redacted Value
    and leaves the same world, under options that resolve and an algorithm
    the digest step accepts. *)
Theorem prop_in_two_calls (self : SDObject) (names1 names2 : list string)
    (options : DisclosureOpions) (filled : RequiredDisclosureOpions)
    (digest : Buffer -> Buffer) (w : World) :
  fillSDOptions (sdObject self) options = inr filled ->
  digestible (r_hashAlg filled) digest ->
  Forall claim_name names1 -> Forall claim_name names2 ->
  (forall n, In n names2 -> ~ In n names1) ->
  SDObjectOps.prop self (names1 ++ names2) options w
  = (r1 <- SDObjectOps.prop self names1 options ;;
     SDObjectOps.prop r1 names2 options) w.
Proof.
  intros Hfill Hd Hc1 Hc2 Hdisj.
  pose proof (Forall_claim_name_sd Hc1) as Hsd1.
  pose proof (Forall_claim_name_alg Hc1) as Halg1.
  rewrite (@prop_run _ self (names1 ++ names2) options filled digest w Hfill Hd).
  erewrite bind_inr by (apply (@prop_run _ self names1 options filled digest w Hfill Hd)).
  set (p := sdObject self).
  set (s1 := stage_disclosures p filled names1 w).
  set (p1 := prop_payload p filled names1 (List.map (digest_text digest) (fst s1))).
  assert (Hfill1 : fillSDOptions p1 options = inr filled).
  { apply (@fillSDOptions_again (sdObject self) p1 options filled Hfill).
    now apply payload_sd_alg_prop_payload. }
  rewrite (@prop_run _ (mkSDObject p1 (disclosures self ++ fst s1)) names2 options
             filled digest (snd s1) Hfill1 Hd).
  cbn [sdObject disclosures].
  assert (Hstage : stage_disclosures p1 filled names2 (snd s1)
                   = stage_disclosures p filled names2 (snd s1)).
  { apply stage_ext. intros n Hn. apply obj_read_prop_payload; auto.
    rewrite Forall_forall in Hc2. auto. }
  rewrite Hstage, stage_app. fold s1.
  set (s2 := stage_disclosures p filled names2 (snd s1)).
  cbn [fst snd]. rewrite <- List.app_assoc. f_equal. f_equal.
  unfold prop_payload at 2. fold p1.
  assert (Hsd : payload_sd p1
                = payload_sd p ++ List.map VStr (List.map (digest_text digest) (fst s1))).
  { apply payload_sd_prop_payload. exact Hsd1. }
  rewrite Hsd. unfold p1, prop_payload.
  rewrite obj_set_delete_all_comm by exact Hsd1.
  rewrite obj_set_delete_all_comm by exact Halg1.
  rewrite delete_all_app. f_equal.
  repeat rewrite obj_set_swap by discriminate.
  rewrite ?obj_set_set_same.
  now rewrite !map_app, List.app_assoc.
Qed.

End TwoCalls.

Lemma prop_in_two_calls_witness :
  @SDObjectOps.prop exampleCrypto (SDObjectOps.pure exampleClaims)
    (["given_name"] ++ ["nationalities"])
    (exampleOptions None "2GLC42sKQveCfGfryNRN9w") exampleWorld
  = (r1 <- @SDObjectOps.prop exampleCrypto (SDObjectOps.pure exampleClaims)
             ["given_name"] (exampleOptions None "2GLC42sKQveCfGfryNRN9w") ;;
     @SDObjectOps.prop exampleCrypto r1 ["nationalities"]
       (exampleOptions None "2GLC42sKQveCfGfryNRN9w")) exampleWorld.
Proof.
  apply (@prop_in_two_calls exampleCrypto (SDObjectOps.pure exampleClaims)
           ["given_name"] ["nationalities"]
           (exampleOptions None "2GLC42sKQveCfGfryNRN9w")
           (mkRequired sha_256 (mockCreateSalt "2GLC42sKQveCfGfryNRN9w") fancyStringify)
           (fun data => firstn 4 (List.rev data)) exampleWorld).
  - reflexivity.
  - exists "SHA256". split; reflexivity.
  - repeat constructor; discriminate.
  - repeat constructor; discriminate.
  - intros n [<-|[]] [E|[]]. discriminate E.
Defined.

(** *** [array] *)

Section ArrayFurther.

Context `{NodeCrypto}.

(** X19.  The outcomes of [array].  A failed options resolution is thrown
    first, whatever the claim holds.  With resolved options, a claim that is
    not an array (a missing property reads [undefined]) is a TypeError, and
    no salt is drawn.  When [array] returns, the claim is an array of the
    length it had and every property other than the claim and [_sd_alg]
    reads as before. *)
Theorem array_outcome (self : SDObject) (claimName : string) (indices : list Z)
    (options : DisclosureOpions) (w : World) :
  (forall e, fillSDOptions (sdObject self) options = inl e ->
             SDObjectOps.array self claimName indices options w = (inl e, w))
  /\ (forall filled,
        fillSDOptions (sdObject self) options = inr filled ->
        (forall xs, obj_read claimName (sdObject self) <> VArr xs) ->
        SDObjectOps.array self claimName indices options w = (inl TypeError, w))
  /\ (forall r w',
        SDObjectOps.array self claimName indices options w = (inr r, w') ->
        (forall k, k <> claimName -> k <> "_sd_alg" ->
                   obj_get k (sdObject r) = obj_get k (sdObject self))
        /\ (claimName <> "_sd_alg" ->
            exists xs newArray,
              obj_get claimName (sdObject self) = Some (VArr xs)
              /\ obj_get claimName (sdObject r) = Some (VArr newArray)
              /\ length newArray = length xs)).
Proof.
  split; [intros e; apply array_unresolved|]. split.
  - intros filled Hfill Hnot. unfold SDObjectOps.array, bind, lift. rewrite Hfill.
    destruct (obj_read claimName (sdObject self)) as [| | | | |xs|] eqn:Hread;
      try reflexivity.
    exfalso. now apply (Hnot xs).
  - intros r w' E.
    apply array_success in E as (filled & xs & res & _ & Hread & Hres & ->). simpl.
    split.
    + intros k Hk Halg. now rewrite !obj_get_set_other by assumption.
    + intros Hname. exists xs, (sdArray_of res).
      apply sdArray_success in Hres as [digest R].
      apply redact_from_length in R as [Hlen _].
      split; [|split; [|exact Hlen]].
      * unfold obj_read in Hread.
        destruct (obj_get claimName (sdObject self)); [now subst|discriminate].
      * rewrite obj_get_set_other by assumption. apply obj_get_set_same.
Qed.

End ArrayFurther.

(** *** Disclosures are only ever appended *)

Section AppendOnly.

Context `{NodeCrypto}.

Lemma run_op_appends self op w r w' :
  run_op self op w = (inr r, w') ->
  exists added, disclosures r = disclosures self ++ added.
Proof.
  destruct op as [claimNames options|claimName indices options]; simpl; intros E.
  - apply prop_success in E as (filled & sdClaims & _ & _ & ->). simpl. eauto.
  - apply array_success in E as (filled & xs & res & _ & _ & _ & ->). simpl. eauto.
Qed.

(** X20.  No operation removes or reorders a disclosure.  [map] keeps the
    disclosures as they are; whenever [flatMap], [prop], [array] or [nested]
    returns, and whenever a chain of [prop] and [array] calls returns, the
    disclosures of the result are the disclosures of the value it started
    from, followed by the new ones. *)
Theorem disclosures_append_only (self : SDObject) (w : World) (r : SDObject) (w' : World) :
  (forall f, disclosures (SDObjectOps.map self f) = disclosures self)
  /\ (forall f, SDObjectOps.flatMap self f w = (inr r, w') ->
                exists added, disclosures r = disclosures self ++ added)
  /\ (forall claimName f, SDObjectOps.nested self claimName f w = (inr r, w') ->
                          exists added, disclosures r = disclosures self ++ added)
  /\ (forall ops, run_chain self ops w = (inr r, w') ->
                  exists added, disclosures r = disclosures self ++ added).
Proof.
  split; [reflexivity|]. split; [|split].
  - intros f E. unfold SDObjectOps.flatMap in E.
    apply bind_success in E as (n & w1 & _ & E).
    destruct (negb _); [discriminate|]. inversion E; subst. simpl. eauto.
  - intros claimName f E. unfold SDObjectOps.nested in E.
    apply bind_success in E as (n & w1 & _ & E). inversion E; subst. simpl. eauto.
  - intros ops. revert self w.
    induction ops as [|op ops IH]; simpl; intros self w E.
    + inversion E; subst. exists []. now rewrite List.app_nil_r.
    + apply bind_success in E as (next & w1 & Hop & E).
      apply run_op_appends in Hop as [a1 H1]. apply IH in E as [a2 H2].
      exists (a1 ++ a2). now rewrite H2, H1, List.app_assoc.
Qed.

(** *** Accounting along a chain of [prop] calls *)

Lemma property_disclosures_digests payload filled claimNames sdClaims :
  Forall2 (property_disclosure payload filled) claimNames sdClaims ->
  Forall2 (digest_of (r_hashAlg filled))
    (List.map VStr (List.map fst sdClaims)) (List.map snd sdClaims).
Proof.
  induction 1 as [|n entry names entries Hentry _ IH]; simpl; constructor; auto.
  destruct Hentry as (saltBytes & digestBytes & w0 & w1 & _ & Hhash & Hfst).
  exists digestBytes, w0, w1. split; [exact Hhash|]. now rewrite Hfst.
Qed.

Lemma prop_keeps_accounted self claimNames options w r w' :
  Forall claim_name claimNames ->
  accounted self ->
  SDObjectOps.prop self claimNames options w = (inr r, w') ->
  accounted r.
Proof.
  intros Hnames Hacc E.
  apply prop_success in E as (filled & sdClaims & Hfill & HF & ->).
  right. exists (r_hashAlg filled). simpl.
  rewrite payload_sd_alg_prop_payload by now apply Forall_claim_name_alg.
  rewrite payload_sd_prop_payload by now apply Forall_claim_name_sd.
  split; [reflexivity|].
  apply Forall2_app; [|now apply property_disclosures_digests with (claimNames := claimNames)
                                  (payload := sdObject self)].
  destruct Hacc as [[-> ->]|(alg & Hdecl & Hall)]; [constructor|].
  apply fillSDOptions_alg in Hfill. rewrite Hdecl in Hfill. simpl in Hfill.
  now rewrite Hfill.
Qed.

(** X21.  Along a chain of [prop] calls over claim names, started from a
    lifted object, the digest collection accounts for the disclosures one to
    one and in order: [_sd] has as many entries as there are disclosures,
    and the [k]-th entry is the digest of the [k]-th disclosure under the one
    algorithm the payload declares. *)
Theorem prop_chain_accounting (object : Obj) (ops : list Op) (w : World)
    (r : SDObject) (w' : World) :
  prop_chain ops ->
  run_chain (SDObjectOps.pure object) ops w = (inr r, w') ->
  length (payload_sd (sdObject r)) = length (disclosures r)
  /\ (forall alg, payload_sd_alg (sdObject r) = Some alg ->
                  Forall2 (digest_of alg) (payload_sd (sdObject r)) (disclosures r)).
Proof.
  intros Hchain E.
  assert (Hacc : accounted r).
  { assert (Hstart : accounted (SDObjectOps.pure object)).
    { left. split; [apply payload_sd_set|reflexivity]. }
    revert Hstart E. generalize (SDObjectOps.pure object) as self. revert w.
    induction Hchain as [|op ops Hop _ IH]; simpl; intros w self Hstart E.
    - inversion E; subst. exact Hstart.
    - apply bind_success in E as (next & w1 & Hrun & E).
      destruct op as [claimNames options|]; [|contradiction].
      simpl in Hrun. eapply IH; [|exact E].
      eapply prop_keeps_accounted; eauto. }
  destruct Hacc as [[Hsd Hds]|(alg & Hdecl & Hall)].
  - rewrite Hsd, Hds. split; [reflexivity|]. intros. constructor.
  - split; [now apply Forall2_length in Hall|].
    intros alg' Hdecl'. rewrite Hdecl in Hdecl'. inversion Hdecl'; subst. exact Hall.
Qed.

End AppendOnly.

Lemma prop_chain_accounting_witness :
  exists r w',
    @run_chain exampleCrypto (SDObjectOps.pure exampleClaims)
      [OpProp ["given_name"] (exampleOptions None "2GLC42sKQveCfGfryNRN9w");
       OpProp ["nationalities"] (exampleOptions None "eluV5Og3gSNII8EYnsxA_A")]
      exampleWorld = (inr r, w')
    /\ length (payload_sd (sdObject r)) = length (disclosures r)
    /\ (forall alg, payload_sd_alg (sdObject r) = Some alg ->
                    Forall2 (@digest_of exampleCrypto alg)
                      (payload_sd (sdObject r)) (disclosures r)).
Proof.
  do 2 eexists. split; [vm_compute; reflexivity|].
  refine (@prop_chain_accounting exampleCrypto exampleClaims
            [OpProp ["given_name"] (exampleOptions None "2GLC42sKQveCfGfryNRN9w");
             OpProp ["nationalities"] (exampleOptions None "eluV5Og3gSNII8EYnsxA_A")]
            exampleWorld _ _ _ _).
  - repeat constructor; discriminate.
  - vm_compute. reflexivity.
Defined.

(** ** utils.ts *)

Module FancyFacts.

Import JSON.
Import JSONFacts.
Local Open Scope string_scope.

Lemma replaceAll_app c by_ a b :
  replaceAll c by_ (a ++ b) = replaceAll c by_ a ++ replaceAll c by_ b.
Proof.
  induction a as [|x a IH]; simpl; [reflexivity|].
  destruct (Ascii.eqb x c); rewrite IH; [now rewrite append_assoc|reflexivity].
Qed.

Lemma spaced_text_app a b : spaced_text (a ++ b) = spaced_text a ++ spaced_text b.
Proof. unfold spaced_text. now rewrite !replaceAll_app. Qed.

Lemma spaced_text_cons c s :
  spaced_text (String c s) = spaced_text (String c "") ++ spaced_text s.
Proof. now rewrite <- spaced_text_app. Qed.

Lemma spaced_text_plain s : plain_text s = true -> spaced_text s = s.
Proof.
  induction s as [|c s IH]; [reflexivity|]. simpl. intros Hp.
  apply andb_true_iff in Hp as [Hc Hs]. apply andb_true_iff in Hc as [Hcomma Hcolon].
  apply negb_true_iff in Hcomma, Hcolon.
  rewrite spaced_text_cons, IH by assumption.
  unfold spaced_text. simpl. rewrite Hcomma. simpl. now rewrite Hcolon.
Qed.

(** Spacing out commutes with escaping: the escapes contain neither
    character, and the space that is added needs no escape. *)
Lemma spaced_escape_char c :
  spaced_text (escape_char c) = escape (spaced_text (String c "")).
Proof. destruct c as [[] [] [] [] [] [] [] []]; reflexivity. Qed.

Lemma escape_app a b : escape (a ++ b) = escape a ++ escape b.
Proof. induction a as [|c a IH]; simpl; [reflexivity|]. now rewrite IH, append_assoc. Qed.

Lemma spaced_escape s : spaced_text (escape s) = escape (spaced_text s).
Proof.
  induction s as [|c s IH]; [reflexivity|]. simpl escape.
  rewrite spaced_text_app, spaced_escape_char, IH.
  now rewrite (spaced_text_cons c s), escape_app.
Qed.

Lemma spaced_quote s : spaced_text (quote s) = quote (spaced_text s).
Proof.
  unfold quote.
  change (String dquote (escape s ++ String dquote ""))
    with (String dquote "" ++ (escape s ++ String dquote "")).
  rewrite !spaced_text_app, spaced_escape. reflexivity.
Qed.

Lemma plain_digits u : plain_text (NilEmpty.string_of_uint u) = true.
Proof. induction u; simpl; auto. Qed.

Lemma spaced_number z : spaced_text (string_of_Z z) = string_of_Z z.
Proof.
  apply spaced_text_plain. destruct z; simpl; auto; apply plain_digits.
Qed.

Lemma fancyStringify_spaced v : fancyStringify v = spaced_text (stringify v).
Proof. reflexivity. Qed.

(** A space in front of a value, a list of elements or a list of members
    is skipped. *)
Lemma parse_value_space fuel t : parse_value fuel (String " " t) = parse_value fuel t.
Proof. destruct fuel; reflexivity. Qed.

Lemma parse_elems_space fuel t : parse_elems fuel (String " " t) = parse_elems fuel t.
Proof. destruct fuel; [reflexivity|]. now rewrite !parse_elems_step, parse_value_space. Qed.

Lemma parse_members_space fuel t : parse_members fuel (String " " t) = parse_members fuel t.
Proof. destruct fuel; reflexivity. Qed.

Lemma spaced_comma : spaced_text "," = ", ".
Proof. reflexivity. Qed.

Lemma spaced_colon : spaced_text ":" = ": ".
Proof. reflexivity. Qed.

Lemma fancy_arr elems :
  fancyStringify (VArr elems)
  = String "[" (spaced_text (String.concat "," (List.map elem_text elems)) ++ "]").
Proof.
  rewrite fancyStringify_spaced, stringify_arr.
  change ("[" ++ String.concat "," (List.map elem_text elems) ++ "]")
    with (String "[" "" ++ String.concat "," (List.map elem_text elems) ++ "]").
  now rewrite !spaced_text_app.
Qed.

Lemma fancy_obj props :
  fancyStringify (VObj props)
  = String "{" (spaced_text (String.concat "," (flat_map member_texts props)) ++ "}").
Proof.
  rewrite fancyStringify_spaced, stringify_obj.
  change ("{" ++ String.concat "," (flat_map member_texts props) ++ "}")
    with (String "{" "" ++ String.concat "," (flat_map member_texts props) ++ "}").
  now rewrite !spaced_text_app.
Qed.

Lemma fancy_str s : fancyStringify (VStr s) = quote (spaced_text s).
Proof. rewrite fancyStringify_spaced. apply spaced_quote. Qed.

Lemma fancy_num z : fancyStringify (VNum z) = string_of_Z z.
Proof. rewrite fancyStringify_spaced. apply spaced_number. Qed.

Lemma fancy_start v :
  json_value v = true ->
  exists c t, fancyStringify v = String c t /\ value_start c = true.
Proof.
  intros Hj. destruct v as [| |b|z|s|elems|props]; try discriminate Hj.
  - do 2 eexists. split; reflexivity.
  - destruct b; do 2 eexists; split; reflexivity.
  - rewrite fancy_num. apply (stringify_start (VNum z) eq_refl).
  - rewrite fancy_str. do 2 eexists. split; reflexivity.
  - rewrite fancy_arr. do 2 eexists. split; reflexivity.
  - rewrite fancy_obj. do 2 eexists. split; reflexivity.
Qed.

Lemma spaced_member_text k v :
  spaced_text (member_text (k, v))
  = quote (spaced_text k) ++ ": " ++ fancyStringify v.
Proof.
  unfold member_text. simpl fst. simpl snd.
  now rewrite !spaced_text_app, spaced_quote, spaced_colon.
Qed.

Lemma parse_elems_fancy elems :
  elems <> [] -> Forall fancy_parses elems -> forallb json_value elems = true ->
  forall fuel rest,
    String.length (spaced_text (String.concat "," (List.map elem_text elems))) + 2 <= fuel ->
    parse_elems fuel
      (spaced_text (String.concat "," (List.map elem_text elems)) ++ String "]" rest)
    = Some (List.map spaced elems, rest).
Proof.
  induction elems as [|e es IH]; [congruence|].
  intros _ HF Hj fuel rest Hfuel.
  inversion HF as [|? ? He Hes]; subst.
  simpl in Hj. apply andb_true_iff in Hj as [Hje Hjes].
  destruct fuel as [|fuel]; [lia|]. rewrite parse_elems_step.
  unfold fancy_parses in He. rewrite fancyStringify_spaced in He.
  destruct es as [|e' es'].
  - change (String.concat "," (List.map elem_text [e])) with (elem_text e) in *.
    rewrite elem_text_stringify in * by assumption.
    rewrite (He fuel (String "]" rest) ltac:(lia) eq_refl). reflexivity.
  - set (C := String.concat "," (List.map elem_text (e' :: es'))) in *.
    change (String.concat "," (List.map elem_text (e :: e' :: es')))
      with (elem_text e ++ "," ++ C) in *.
    rewrite !spaced_text_app, spaced_comma in *.
    rewrite !length_append in Hfuel. change (String.length ", ") with 2 in Hfuel.
    rewrite !append_assoc.
    change (", " ++ spaced_text C ++ String "]" rest)
      with (String "," (String " " (spaced_text C ++ String "]" rest))).
    rewrite elem_text_stringify in * by assumption.
    rewrite (He fuel (String "," (String " " (spaced_text C ++ String "]" rest)))
               ltac:(lia) eq_refl).
    change (skip_ws (String "," (String " " (spaced_text C ++ String "]" rest))))
      with (String "," (String " " (spaced_text C ++ String "]" rest))).
    cbv beta iota. change (Ascii.eqb "," ",") with true. cbv beta iota.
    rewrite parse_elems_space.
    rewrite IH; auto; try discriminate. lia.
Qed.

Lemma spaced_member_append k v tail :
  spaced_text (member_text (k, v)) ++ tail
  = String dquote
      (escape (spaced_text k)
       ++ String dquote (String ":" (String " " (fancyStringify v ++ tail)))).
Proof.
  rewrite spaced_member_text, append_assoc, quote_append.
  now rewrite append_assoc.
Qed.

Lemma length_spaced_member k v :
  String.length (spaced_text (member_text (k, v)))
  = String.length (quote (spaced_text k)) + S (S (String.length (fancyStringify v))).
Proof. rewrite spaced_member_text, !length_append. reflexivity. Qed.

Lemma parse_members_fancy props :
  props <> [] -> Forall (fun kv => fancy_parses (snd kv)) props ->
  forall fuel rest,
    String.length (spaced_text (String.concat "," (List.map member_text props))) + 2 <= fuel ->
    parse_members fuel
      (spaced_text (String.concat "," (List.map member_text props)) ++ String "}" rest)
    = Some (List.map (fun kv => (spaced_text (fst kv), spaced (snd kv))) props, rest).
Proof.
  induction props as [|[k v] ps IH]; [congruence|].
  intros _ HF fuel rest Hfuel.
  inversion HF as [|? ? Hv Hps]; subst. simpl in Hv. unfold fancy_parses in Hv.
  destruct fuel as [|fuel]; [lia|].
  destruct ps as [|kv' ps'].
  - change (String.concat "," (List.map member_text [(k, v)]))
      with (member_text (k, v)) in *.
    rewrite length_spaced_member in Hfuel.
    rewrite spaced_member_append, parse_members_step, parse_string_body_escape.
    change (skip_ws (String ":" (String " " (fancyStringify v ++ String "}" rest))))
      with (String ":" (String " " (fancyStringify v ++ String "}" rest))).
    cbv beta iota. change (Ascii.eqb ":" ":") with true. cbv beta iota.
    rewrite parse_value_space.
    rewrite (Hv fuel (String "}" rest) ltac:(lia) eq_refl). reflexivity.
  - set (C := String.concat "," (List.map member_text (kv' :: ps'))) in *.
    change (String.concat "," (List.map member_text ((k, v) :: kv' :: ps')))
      with (member_text (k, v) ++ "," ++ C) in *.
    rewrite !spaced_text_app, spaced_comma in *.
    rewrite !length_append, length_spaced_member in Hfuel.
    change (String.length ", ") with 2 in Hfuel.
    rewrite append_assoc, spaced_member_append.
    rewrite parse_members_step, parse_string_body_escape.
    change ((", " ++ spaced_text C) ++ String "}" rest)
      with (String "," (String " " (spaced_text C ++ String "}" rest))).
    set (tail := String "," (String " " (spaced_text C ++ String "}" rest))).
    change (skip_ws (String ":" (String " " (fancyStringify v ++ tail))))
      with (String ":" (String " " (fancyStringify v ++ tail))).
    cbv beta iota. change (Ascii.eqb ":" ":") with true. cbv beta iota.
    rewrite parse_value_space.
    rewrite (Hv fuel tail ltac:(lia) eq_refl).
    unfold tail.
    change (skip_ws (String "," (String " " (spaced_text C ++ String "}" rest))))
      with (String "," (String " " (spaced_text C ++ String "}" rest))).
    cbv beta iota. change (Ascii.eqb "," ",") with true. cbv beta iota.
    rewrite parse_members_space.
    rewrite IH; auto; try discriminate. lia.
Qed.

(** Every JSON value serialized by [fancyStringify] parses to the value
    with its strings spaced out. *)
Lemma parse_value_fancy v :
  json_value v = true -> json_value (spaced v) = true -> fancy_parses v.
Proof.
  induction v as [| |b|z|s|elems IH|props IH] using Value_nested_ind;
    intros Hj Hjs fuel rest Hfuel Hrest; try discriminate Hj;
    (destruct fuel as [|fuel]; [lia|]).
  - reflexivity.
  - destruct b; reflexivity.
  - rewrite fancy_num in *.
    destruct (string_of_Z_start z) as (c & t & E & Hc).
    change (spaced (VNum z)) with (VNum z).
    rewrite <- (parse_number_string_of_Z z rest Hrest).
    rewrite E. now apply parse_value_number.
  - rewrite fancy_str.
    now rewrite quote_append, parse_value_string, parse_string_body_escape.
  - simpl in Hj. rewrite fancy_arr in *.
    set (T := spaced_text (String.concat "," (List.map elem_text elems))) in *.
    change (String.length (String "[" (T ++ "]"))) with (S (String.length (T ++ "]")))
      in Hfuel.
    rewrite length_append in Hfuel. change (String.length "]") with 1 in Hfuel.
    change (String "[" (T ++ "]") ++ rest) with (String "[" ((T ++ "]") ++ rest)).
    rewrite append_assoc.
    change ("]" ++ rest) with (String "]" rest).
    rewrite parse_value_array.
    destruct elems as [|e es]; [reflexivity|].
    change (json_value (spaced (VArr (e :: es))))
      with (forallb json_value (List.map spaced (e :: es))) in Hjs.
    assert (HP : Forall fancy_parses (e :: es)).
    { apply Forall_forall. intros x Hx. rewrite Forall_forall in IH.
      apply IH; auto.
      - rewrite forallb_forall in Hj. auto.
      - rewrite forallb_forall in Hjs. apply Hjs. now apply in_map. }
    pose proof (@parse_elems_fancy (e :: es) ltac:(discriminate) HP Hj fuel rest) as HE.
    fold T in HE. specialize (HE ltac:(lia)).
    assert (Hs : exists c t, T ++ String "]" rest = String c t /\ value_start c = true).
    { simpl in Hj. apply andb_true_iff in Hj as [Hje _].
      destruct (fancy_start e Hje) as (c & t & E & Hc).
      rewrite fancyStringify_spaced, <- elem_text_stringify in E by assumption.
      unfold T. destruct es as [|e' es'].
      - change (String.concat "," (List.map elem_text [e])) with (elem_text e).
        rewrite E. simpl. eauto.
      - change (String.concat "," (List.map elem_text (e :: e' :: es')))
          with (elem_text e ++ "," ++ String.concat "," (List.map elem_text (e' :: es'))).
        rewrite spaced_text_app, E. simpl. eauto. }
    destruct Hs as (c & t & Es & Hc). rewrite Es in *.
    rewrite (@skip_ws_start c t Hc).
    unfold value_start in Hc. apply andb_true_iff in Hc as [Hc _].
    apply andb_true_iff in Hc as [_ Hc]. apply negb_true_iff in Hc.
    rewrite Hc, HE. reflexivity.
  - simpl in Hj. apply andb_true_iff in Hj as [Hd Hj].
    rewrite fancy_obj in *. rewrite member_texts_json in * by assumption.
    set (T := spaced_text (String.concat "," (List.map member_text props))) in *.
    change (String.length (String "{" (T ++ "}"))) with (S (String.length (T ++ "}")))
      in Hfuel.
    rewrite length_append in Hfuel. change (String.length "}") with 1 in Hfuel.
    change (String "{" (T ++ "}") ++ rest) with (String "{" ((T ++ "}") ++ rest)).
    rewrite append_assoc.
    change ("}" ++ rest) with (String "}" rest).
    rewrite parse_value_object.
    destruct props as [|[k v] ps]; [reflexivity|].
    set (sp := fun kv : string * Value => (spaced_text (fst kv), spaced (snd kv))).
    change (json_value (spaced (VObj ((k, v) :: ps))))
      with (distinct (List.map fst (List.map sp ((k, v) :: ps)))
            && forallb (fun kv => json_value (snd kv)) (List.map sp ((k, v) :: ps))) in Hjs.
    apply andb_true_iff in Hjs as [Hds Hjs].
    assert (HP : Forall (fun kv => fancy_parses (snd kv)) ((k, v) :: ps)).
    { apply Forall_forall. intros x Hx. rewrite Forall_forall in IH.
      apply IH; auto.
      - rewrite forallb_forall in Hj. auto.
      - rewrite forallb_forall in Hjs. apply (Hjs (sp x)). now apply in_map. }
    pose proof (@parse_members_fancy ((k, v) :: ps) ltac:(discriminate) HP fuel rest) as HE.
    fold T in HE. fold sp in HE. specialize (HE ltac:(lia)).
    assert (Hs : exists t, T ++ String "}" rest = String dquote t).
    { unfold T. destruct ps as [|kv' ps'].
      - change (String.concat "," (List.map member_text [(k, v)]))
          with (member_text (k, v)).
        rewrite spaced_member_append. eauto.
      - change (String.concat "," (List.map member_text ((k, v) :: kv' :: ps')))
          with (member_text (k, v) ++ ","
                ++ String.concat "," (List.map member_text (kv' :: ps'))).
        rewrite spaced_text_app, append_assoc, spaced_member_append. eauto. }
    destruct Hs as (t & Es). rewrite Es in *.
    change (skip_ws (String dquote t)) with (String dquote t). cbv beta iota.
    change (Ascii.eqb dquote "}") with false. cbv beta iota.
    rewrite HE. unfold object_of_members.
    rewrite object_of_members_distinct; auto.
Qed.

End FancyFacts.

Lemma spaced_plain v : plain_value v = true -> spaced v = v.
Proof.
  induction v as [| |b|z|s|elems IH|props IH] using JSONFacts.Value_nested_ind;
    intros Hp; try reflexivity.
  - simpl in *. now rewrite FancyFacts.spaced_text_plain.
  - simpl in *. f_equal. induction elems as [|e es IHl]; [reflexivity|].
    simpl in Hp. apply andb_true_iff in Hp as [He Hes].
    inversion IH as [|? ? IHe IHes]; subst. simpl.
    rewrite IHe by assumption. now rewrite IHl.
  - simpl in *. f_equal. induction props as [|[k e] ps IHl]; [reflexivity|].
    simpl in Hp. apply andb_true_iff in Hp as [He Hes].
    apply andb_true_iff in He as [Hk He].
    inversion IH as [|? ? IHe IHes]; subst. simpl in *.
    rewrite IHe by assumption. rewrite FancyFacts.spaced_text_plain by assumption.
    now rewrite IHl.
Qed.

Lemma spaced_char c :
  spaced_text (String c "")
  = if Ascii.eqb c "," then ", " else if Ascii.eqb c ":" then ": " else String c "".
Proof.
  unfold spaced_text. simpl. destruct (Ascii.eqb c ",") eqn:E1; [reflexivity|].
  simpl. destruct (Ascii.eqb c ":"); reflexivity.
Qed.

Lemma spaced_text_length s : String.length s <= String.length (spaced_text s).
Proof.
  induction s as [|c s IH]; [simpl; lia|].
  rewrite FancyFacts.spaced_text_cons, JSONFacts.length_append, spaced_char.
  destruct (Ascii.eqb c ","); [simpl; lia|]. destruct (Ascii.eqb c ":"); simpl; lia.
Qed.

(** A string with a comma or a colon gets longer. *)
Lemma spaced_text_grows s :
  plain_text s = false -> String.length s < String.length (spaced_text s).
Proof.
  induction s as [|c s IH]; [discriminate|]. intros Hp.
  rewrite FancyFacts.spaced_text_cons, JSONFacts.length_append, spaced_char.
  pose proof (spaced_text_length s) as Hl.
  simpl in Hp.
  destruct (Ascii.eqb c ","); [simpl; lia|]. destruct (Ascii.eqb c ":"); [simpl; lia|].
  simpl in Hp. specialize (IH Hp). simpl. lia.
Qed.

Lemma parse_fancyStringify v :
  json_value v = true -> json_value (spaced v) = true ->
  JSON.parse (fancyStringify v) = Some (spaced v).
Proof.
  intros Hj Hjs. unfold JSON.parse.
  pose proof (@FancyFacts.parse_value_fancy v Hj Hjs
                (S (String.length (fancyStringify v))) "" ltac:(lia) eq_refl) as HP.
  rewrite JSONFacts.append_nil_r in HP. now rewrite HP.
Qed.

(** X22.  What [fancyStringify] writes is JSON text, but not of the value
    it was given: for every value that JSON represents, parsing the text
    gives the value in which every string, property names included, has a
    space inserted after each comma and each colon (provided the property
    names of an object stay distinct under that). *)
Theorem fancyStringify_parses (v : Value) :
  json_value v = true -> json_value (spaced v) = true ->
  JSON.parse (fancyStringify v) = Some (spaced v).
Proof.
  intros Hj Hjs. unfold JSON.parse.
  pose proof (@FancyFacts.parse_value_fancy v Hj Hjs
                (S (String.length (fancyStringify v))) "" ltac:(lia) eq_refl) as HP.
  rewrite JSONFacts.append_nil_r in HP. now rewrite HP.
Qed.

Lemma fancyStringify_parses_witness :
  JSON.parse (fancyStringify
                (VObj [("iss", VStr "https://issuer.example.com");
                       ("nationalities", VArr [VStr "US"; VStr "DE"]);
                       ("iat", VNum 1683000000)]))
  = Some (VObj [("iss", VStr "https: //issuer.example.com");
                ("nationalities", VArr [VStr "US"; VStr "DE"]);
                ("iat", VNum 1683000000)]).
Proof.
  refine (@fancyStringify_parses
            (VObj [("iss", VStr "https://issuer.example.com");
                   ("nationalities", VArr [VStr "US"; VStr "DE"]);
                   ("iat", VNum 1683000000)]) _ _); reflexivity.
Defined.

(** X23.  A disclosure made with [fancyStringify], the serializer of the
    tests, decodes to the tuple it was made from when no string in the
    tuple holds a comma or a colon; when the claim value is a string that
    holds one, it decodes to a tuple with another claim value. *)
Theorem fancy_disclosure_roundtrip (salt claimName : string) :
  plain_text salt = true -> plain_text claimName = true ->
  (forall value,
      json_value value = true -> plain_value value = true ->
      JSON.parse (Base64url.decode
                    (disclosureForObjectProps salt claimName value fancyStringify))
      = Some (VArr [VStr salt; VStr claimName; value])
      /\ JSON.parse (Base64url.decode
                       (disclosureForArrayElement salt value fancyStringify))
         = Some (VArr [VStr salt; value]))
  /\ (forall s,
         plain_text s = false ->
         JSON.parse (Base64url.decode
                       (disclosureForObjectProps salt claimName (VStr s) fancyStringify))
         = Some (VArr [VStr salt; VStr claimName; VStr (spaced_text s)])
         /\ spaced_text s <> s).
Proof.
  intros Hsalt Hname. split.
  - intros value Hj Hp.
    unfold disclosureForObjectProps, disclosureForArrayElement.
    rewrite !Base64urlFacts.decode_encode.
    assert (E3 : spaced (VArr [VStr salt; VStr claimName; value])
                 = VArr [VStr salt; VStr claimName; value]).
    { apply spaced_plain. simpl. now rewrite Hsalt, Hname, Hp. }
    assert (E2 : spaced (VArr [VStr salt; value]) = VArr [VStr salt; value]).
    { apply spaced_plain. simpl. now rewrite Hsalt, Hp. }
    split.
    + rewrite <- E3 at 2. apply parse_fancyStringify; [|rewrite E3]; simpl; now rewrite Hj.
    + rewrite <- E2 at 2. apply parse_fancyStringify; [|rewrite E2]; simpl; now rewrite Hj.
  - intros s Hs. split.
    + unfold disclosureForObjectProps. rewrite Base64urlFacts.decode_encode.
      rewrite parse_fancyStringify by reflexivity.
      simpl. now rewrite !FancyFacts.spaced_text_plain by assumption.
    + intros E. pose proof (spaced_text_grows s Hs) as Hl. rewrite E in Hl. lia.
Qed.

Lemma fancy_disclosure_roundtrip_witness :
  JSON.parse (Base64url.decode
                (disclosureForObjectProps "2GLC42sKQveCfGfryNRN9w" "email"
                   (VStr "johndoe@example.com") fancyStringify))
  = Some (VArr [VStr "2GLC42sKQveCfGfryNRN9w"; VStr "email"; VStr "johndoe@example.com"])
  /\ JSON.parse (Base64url.decode
                   (disclosureForObjectProps "2GLC42sKQveCfGfryNRN9w" "website"
                      (VStr "https://example.com") fancyStringify))
     = Some (VArr [VStr "2GLC42sKQveCfGfryNRN9w"; VStr "website";
                   VStr "https: //example.com"]).
Proof.
  split.
  - apply (proj1 (@fancy_disclosure_roundtrip "2GLC42sKQveCfGfryNRN9w" "email"
                    eq_refl eq_refl) (VStr "johndoe@example.com")); reflexivity.
  - apply (proj2 (@fancy_disclosure_roundtrip "2GLC42sKQveCfGfryNRN9w" "website"
                    eq_refl eq_refl) "https://example.com" eq_refl).
Defined.
